(** * FSICFR on Dark Hex: a shallow embedding of [Projects/CFR/fsicfr.py]

    The file follows the Python module top to bottom: the [Node] record with
    its two methods, the two passes of [FSICFR.train], the recursive graph
    construction, and then the properties of each.

    Conventions of the embedding.
    - numpy [float64] values are exact rationals ([Qc]) in the trainer;
      the two methods of [Node] are repeated on binary64 numbers in module
      [F64], where their rounding shows.  Python [int]s are [Z].
    - A Python exception ends the run: every operation that can raise returns
      a [result].  A quotient with a zero divisor, which numpy turns into
      [inf] or [nan], is not a rational and ends the run as [NotFinite].
    - [self.nodes] is the arena of nodes; [self.nodes_dict] holds references
      to the same objects and is a finite map from information sets to
      positions in the arena.
    - The rule engine ([Hex], [DarkHex]) and the colour table ([pieces]) are
      not part of this module; they are parameters of the sections below. *)

From stdpp Require Import base decidable option list numbers countable gmap.
From Stdlib Require Import QArith Qcanon Lia.
From Stdlib Require PrimFloat.

Local Open Scope Qc_scope.

(** ** Colours, cells, boards *)

(** [pieces.C_PLAYER1] and [pieces.C_PLAYER2]. *)
Inductive Player := P1 | P2.

(** A cell holds [pieces.NEUTRAL] (the literal ['.'] that [__add_stone] and
    [__is_board_legal] test for) or a player's colour. *)
Inductive Cell := Empty | Stone (p : Player).

Abbreviation Board := (list Cell).

(** What [Hex.game_status] answers: ['='], a colour, or ['i']. *)
Inductive Status := InProgress | Won (p : Player) | Illegal.

(** The third component of [DarkHex.step]: ['='], ['f'] or the winner. *)
Inductive StepResult := Continue | Failed | Winner (p : Player).

Global Instance Player_eq_dec : EqDecision Player.
Proof. solve_decision. Defined.
Global Instance Cell_eq_dec : EqDecision Cell.
Proof. solve_decision. Defined.
Global Instance Status_eq_dec : EqDecision Status.
Proof. solve_decision. Defined.
Global Instance StepResult_eq_dec : EqDecision StepResult.
Proof. solve_decision. Defined.

Global Instance Player_countable : Countable Player.
Proof.
  refine (inj_countable' (λ p, match p with P1 => false | P2 => true end)
                         (λ b : bool, if b then P2 else P1) _).
  by intros [].
Defined.

Global Instance Cell_countable : Countable Cell.
Proof.
  refine (inj_countable'
            (λ c, match c with Empty => None | Stone p => Some p end)
            (λ o : option Player, match o with None => Empty | Some p => Stone p end) _).
  by intros [].
Defined.

(** [reverse_player], also the inline [rev_player] of [train]. *)
Definition reverse_player (p : Player) : Player :=
  if decide (p = P2) then P1 else P2.

(** ** Exceptions *)

Inductive Exn := IndexError | TypeError | NotFinite | Dangling.

Inductive result (A : Type) := Ok (a : A) | Raise (e : Exn).
Arguments Ok {A} a.
Arguments Raise {A} e.

Definition bind {A B} (m : result A) (f : A → result B) : result B :=
  match m with Ok a => f a | Raise e => Raise e end.

Notation "x ←! m ; k" := (bind m (λ x, k))
  (at level 20, m at level 100, k at level 200, only parsing).
Notation "' p ←! m ; k" := (bind m (λ p, k))
  (at level 20, p pattern, m at level 100, k at level 200, only parsing).

(** A Python [for] loop whose body may raise. *)
Fixpoint for_each {A S} (xs : list A) (body : A → S → result S) (s : S)
  : result S :=
  match xs with
  | [] => Ok s
  | x :: rest => s' ←! body x s; for_each rest body s'
  end.

(** [xs[i]] on a list: [IndexError] past the end. *)
Definition at_index {A} (xs : list A) (i : nat) : result A :=
  match xs !! i with Some x => Ok x | None => Raise IndexError end.

(** [xs[i] = v]. *)
Definition set_index {A} (xs : list A) (i : nat) (v : A) : result (list A) :=
  if decide (i < length xs)%nat then Ok (<[i:=v]> xs) else Raise IndexError.

(** ** Information sets *)

(** [get_infoset([player, *board, h])]: the flat tuple determines the three
    parts, so the key is kept as a triple. *)
Definition InfoSet : Type := Player * Board * Z.

Definition get_infoset (p : Player) (b : Board) (h : Z) : InfoSet := (p, b, h).

(** ** Node *)

Record Node := mkNode {
  player : Player;
  num_actions : nat;
  board : Board;
  h : Z;
  strategy : list Qc;
  regretSum : list Qc;
  strategySum : list Qc;
  T : Z;
  u : Qc;
  pSum1 : Qc;
  pSum2 : Qc;
  visits : Z;
  pos_actions : list nat;
  is_terminal : bool
}.

Definition infoSet (n : Node) : InfoSet := get_infoset (player n) (board n) (h n).

(** [enumerate(board)] filtered on [pieces.NEUTRAL]. *)
Fixpoint neutral_from (i : nat) (b : Board) : list nat :=
  match b with
  | [] => []
  | c :: rest =>
      if decide (c = Empty) then i :: neutral_from (S i) rest
      else neutral_from (S i) rest
  end.

(** [Node.__init__]; [move_history] is stored by the constructor and read
    nowhere in the module, it is left out. *)
Definition Node_init (b : Board) (p : Player) (hid : Z) : Node :=
  {| player := p;
     num_actions := length b;
     board := b;
     h := hid;
     strategy := replicate (length b) 0;
     regretSum := replicate (length b) 0;
     strategySum := replicate (length b) 0;
     T := 0;
     u := 0;
     pSum1 := 1;
     pSum2 := 1;
     visits := 1;
     pos_actions := neutral_from 0 b;
     is_terminal := false |}.

(** Field updates. *)
Definition with_strategy (s ss : list Qc) (n : Node) : Node :=
  {| player := player n; num_actions := num_actions n; board := board n;
     h := h n; strategy := s; regretSum := regretSum n; strategySum := ss;
     T := T n; u := u n; pSum1 := pSum1 n; pSum2 := pSum2 n;
     visits := visits n; pos_actions := pos_actions n;
     is_terminal := is_terminal n |}.

Definition with_strategySum (ss : list Qc) (n : Node) : Node :=
  with_strategy (strategy n) ss n.

Definition with_reach (v : Z) (p1 p2 : Qc) (n : Node) : Node :=
  {| player := player n; num_actions := num_actions n; board := board n;
     h := h n; strategy := strategy n; regretSum := regretSum n;
     strategySum := strategySum n; T := T n; u := u n; pSum1 := p1;
     pSum2 := p2; visits := v; pos_actions := pos_actions n;
     is_terminal := is_terminal n |}.

Definition with_u (x : Qc) (n : Node) : Node :=
  {| player := player n; num_actions := num_actions n; board := board n;
     h := h n; strategy := strategy n; regretSum := regretSum n;
     strategySum := strategySum n; T := T n; u := x; pSum1 := pSum1 n;
     pSum2 := pSum2 n; visits := visits n; pos_actions := pos_actions n;
     is_terminal := is_terminal n |}.

Definition with_regretSum (rs : list Qc) (n : Node) : Node :=
  {| player := player n; num_actions := num_actions n; board := board n;
     h := h n; strategy := strategy n; regretSum := rs;
     strategySum := strategySum n; T := T n; u := u n; pSum1 := pSum1 n;
     pSum2 := pSum2 n; visits := visits n; pos_actions := pos_actions n;
     is_terminal := is_terminal n |}.

Definition with_T (t : Z) (n : Node) : Node :=
  {| player := player n; num_actions := num_actions n; board := board n;
     h := h n; strategy := strategy n; regretSum := regretSum n;
     strategySum := strategySum n; T := t; u := u n; pSum1 := pSum1 n;
     pSum2 := pSum2 n; visits := visits n; pos_actions := pos_actions n;
     is_terminal := is_terminal n |}.

Definition with_is_terminal (t : bool) (n : Node) : Node :=
  {| player := player n; num_actions := num_actions n; board := board n;
     h := h n; strategy := strategy n; regretSum := regretSum n;
     strategySum := strategySum n; T := T n; u := u n; pSum1 := pSum1 n;
     pSum2 := pSum2 n; visits := visits n; pos_actions := pos_actions n;
     is_terminal := t |}.

(** *** Arithmetic on rows *)

(** Python's [max(x, 0)]: the first argument unless the second is greater. *)
Definition max0 (x : Qc) : Qc := if decide (x < 0) then 0 else x.

(** [total] is the running [normalizingSum += ...] of both methods. *)
Definition total (xs : list Qc) : Qc := foldl Qcplus 0 xs.

Definition Qc_of_nat (k : nat) : Qc := Qc_of_Z (Z.of_nat k).

(** The reach weight [getStrategy] multiplies by. *)
Definition reachWeight (n : Node) : Qc :=
  if decide (player n = P1) then pSum1 n else pSum2 n.

(** The second loop of [getStrategy] on the strategy row: divide by the sum
    when it is positive, else [1.0 / len(self.strategy)] everywhere. *)
Definition normalise (k : nat) (s : Qc) (xs : list Qc) : list Qc :=
  if decide (0 < s) then (λ x, x / s) <$> xs
  else replicate (length xs) (1 / Qc_of_nat k).

(** [Node.getStrategy].  Both loops run over [range(len(self.strategy))] and
    index [regretSum] and [strategySum]: a shorter array raises. *)
Definition getStrategy (n : Node) : result Node :=
  let k := length (strategy n) in
  if decide (k ≤ length (regretSum n) ∧ k ≤ length (strategySum n))%nat then
    let pos := max0 <$> take k (regretSum n) in
    let strat := normalise k (total pos) pos in
    let w := reachWeight n in
    Ok (with_strategy strat
          (zip_with (λ acc p, acc + p * w) (take k (strategySum n)) strat
             ++ drop k (strategySum n)) n)
  else Raise IndexError.

(** [Node.getAverageStrategy]: rewrites [strategySum] and returns it. *)
Definition getAverageStrategy (n : Node) : Node * list Qc :=
  let ss := strategySum n in
  let avg := normalise (length ss) (total ss) ss in
  (with_strategySum avg n, avg).

(** ** FSICFR: the trainer *)

Section Trainer.

(** [Hex(BOARD_SIZE=[rows, cols], BOARD=b, verbose=False).game_status()],
    the rule engine's verdict on a board. *)
Variable game_status : nat → nat → Board → Status.

(** [self.num_rows], [self.num_cols], [self.nodes_dict]; the arena
    [self.nodes] and the scratch list [regret] are the state that the
    passes thread. *)
Variable num_rows num_cols : nat.
Variable nodes_dict : gmap InfoSet nat.

Definition fsicfr_num_actions : nat := (num_cols * num_rows)%nat.

Definition TrainState : Type := list Node * list Qc.

(** The node object behind an arena position. *)
Definition node_at (nodes : list Node) (i : nat) : result Node :=
  match nodes !! i with Some n => Ok n | None => Raise Dangling end.

(** [__add_stone]: [None] is the Python [False]. *)
Definition add_stone (b : Board) (action : nat) (p : Player)
  : result (option Board) :=
  c ←! at_index b action;
  if decide (c ≠ Empty) then Ok None else Ok (Some (<[action := Stone p]> b)).

(** Lines 94-101: the successor keys of action [a] in the forward pass.
    Unpacking the [False] of a refused placement is a [TypeError]. *)
Definition forward_children (n : Node) (a : nat) : result (list InfoSet) :=
  nb ←! add_stone (board n) a (player n);
  match nb with
  | None => Raise TypeError
  | Some b1 =>
      let k1 := get_infoset (player n) b1 (h n) in
      if decide (0 < h n)%Z then
        nb2 ←! add_stone (board n) a (reverse_player (player n));
        match nb2 with
        | None => Raise TypeError
        | Some b2 => Ok [k1; get_infoset (player n) b2 (h n - 1)]
        end
      else Ok [k1]
  end.

(** Lines 103-109 for one successor key; [i] is the position of [node].
    The successor may be any node of the arena, [node] itself included, so
    both are read from the arena as it is at that moment. *)
Definition visit_child (i : nat) (strat : list Qc) (a : nat) (k : InfoSet)
    (nodes : list Node) : result (list Node) :=
  match nodes_dict !! k with
  | None => Ok nodes
  | Some j =>
      nd ←! node_at nodes i;
      c ←! node_at nodes j;
      sa ←! at_index strat a;
      Ok (<[j := with_reach
                   (visits c + visits nd)
                   (pSum1 c + (if decide (player nd = P1)
                               then sa * pSum1 nd else pSum1 nd))
                   (pSum2 c + (if decide (player nd = P2)
                               then sa * pSum2 nd else pSum2 nd))
                   c]> nodes)
  end.

(** Lines 90-109: the body of the forward loop for the node at [i]. *)
Definition forward_node (i : nat) (nodes : list Node) : result (list Node) :=
  nd ←! node_at nodes i;
  nd' ←! getStrategy nd;
  let strat := strategy nd' in
  for_each (pos_actions nd')
    (λ a ns, ks ←! forward_children nd' a;
             for_each ks (visit_child i strat a) ns)
    (<[i := nd']> nodes).

(** Lines 123-134: the successor keys of action index [a] in the backward
    pass; [None] is a [continue]. *)
Definition backward_children (n : Node) (a : nat)
  : result (option (list InfoSet)) :=
  nb ←! add_stone (board n) a (player n);
  match nb with
  | None => Ok None
  | Some b1 =>
      let k1 := get_infoset (player n) b1 (h n) in
      if decide (0 < h n)%Z then
        nb2 ←! add_stone (board n) a (reverse_player (player n));
        match nb2 with
        | None => Ok None
        | Some b2 => Ok (Some [k1; get_infoset (player n) b2 (h n - 1)])
        end
      else Ok (Some [k1])
  end.

(** Lines 136-142 for one successor key. *)
Definition collect_child (i : nat) (strat : list Qc) (a : nat) (k : InfoSet)
    (st : TrainState) : result TrainState :=
  let '(nodes, regret) := st in
  match nodes_dict !! k with
  | None => Ok st
  | Some j =>
      nd ←! node_at nodes i;
      c ←! node_at nodes j;
      let childUtil := if decide (player c = player nd) then u c else - u c in
      r ←! at_index regret a;
      regret' ←! set_index regret a (r + childUtil);
      sa ←! at_index strat a;
      Ok (<[i := with_u (u nd + sa * childUtil) nd]> nodes, regret')
  end.

(** Lines 122-142: one action index of the utility loop. *)
Definition collect_action (i : nat) (strat : list Qc) (a : nat)
    (st : TrainState) : result TrainState :=
  nd ←! node_at st.1 i;
  ks ←! backward_children nd a;
  match ks with
  | None => Ok st
  | Some ks => for_each ks (collect_child i strat a) st
  end.

(** Lines 145-147 as arithmetic: [nomin / denom]. *)
Definition regret_mean (t : Z) (old : Qc) (v : Z) (cfp diff : Qc) : Qc :=
  (Qc_of_Z t * old + Qc_of_Z v * cfp * diff) / Qc_of_Z (t + v).

(** The reach mass of the other player. *)
Definition cfp_of (n : Node) : Qc :=
  if decide (player n = P1) then pSum2 n else pSum1 n.

(** Lines 144-147 for one legal action. *)
Definition update_regret (n : Node) (regret : list Qc) (a : nat)
    (rs : list Qc) : result (list Qc) :=
  old ←! at_index rs a;
  r ←! at_index regret a;
  if decide (T n + visits n = 0)%Z then Raise NotFinite
  else set_index rs a (regret_mean (T n) old (visits n) (cfp_of n) (r - u n)).

(** Lines 122-148: the non-terminal branch. *)
Definition backward_inner (i : nat) (strat : list Qc) (st : TrainState)
  : result TrainState :=
  '(nodes, regret) ←!
     for_each (seq 0 fsicfr_num_actions) (collect_action i strat) st;
  nd ←! node_at nodes i;
  rs ←! for_each (pos_actions nd) (update_regret nd regret) (regretSum nd);
  Ok (<[i := with_T (T nd + visits nd) (with_regretSum rs nd)]> nodes, regret).

(** Lines 113-152: the body of the backward loop for the node at [i].  The
    two calls of [game_status()] on the one board are one value here. *)
Definition backward_node (i : nat) (st : TrainState) : result TrainState :=
  let '(nodes, regret) := st in
  nd ←! node_at nodes i;
  nd1 ←! getStrategy nd;
  let nodes1 := <[i := nd1]> nodes in
  '(nodes2, regret2) ←!
     match game_status num_rows num_cols (board nd1) with
     | InProgress => backward_inner i (strategy nd1) (nodes1, regret)
     | s =>
         if decide (s = Won (player nd1))
         then Ok (<[i := with_u 1 nd1]> nodes1, regret)
         else Ok (<[i := with_u (-1) nd1]> nodes1, regret)
     end;
  nd3 ←! node_at nodes2 i;
  Ok (<[i := with_reach 0 0 0 nd3]> nodes2, regret2).

(** Lines 87-111 and 112-152. *)
Definition forward_pass (nodes : list Node) : result (list Node) :=
  for_each (seq 0 (length nodes)) forward_node nodes.

Definition backward_pass (st : TrainState) : result TrainState :=
  for_each (reverse (seq 0 (length st.1))) backward_node st.

(** One round of the [for it in range(num_of_iterations)] loop. *)
Definition iteration (st : TrainState) : result TrainState :=
  nodes' ←! forward_pass st.1;
  backward_pass (nodes', st.2).

Fixpoint iterations (k : nat) (st : TrainState) : result TrainState :=
  match k with
  | O => Ok st
  | S k' => st' ←! iteration st; iterations k' st'
  end.

(** Lines 160-162: the final loop, which normalises [strategySum] of every
    node not flagged terminal (the printing itself is not modelled). *)
Definition extract (nodes : list Node) : list Node :=
  (λ n, if is_terminal n then n else (getAverageStrategy n).1) <$> nodes.

(** [FSICFR.train]. *)
Definition train (num_of_iterations : nat) (nodes : list Node)
  : result (list Node) :=
  let regret := replicate fsicfr_num_actions 0 in
  '(nodes', _) ←! iterations num_of_iterations (nodes, regret);
  Ok (extract nodes').

End Trainer.

(** ** FSICFR: the graph construction *)

Section Builder.

(** The [DarkHex] object: its state, its constructor and the members that
    [__topSort_play] reads or calls.  [step] returns the new state and
    the third component of the tuple it yields in Python. *)
Variable Game : Type.
Variable DarkHex : nat → nat → Game.
Variable turn_info : Game → Player.
Variable BOARDS : Game → Player → Board.
Variable totalHidden_for_player : Game → Player → Z.
Variable valid_moves_colors : Game → Player → list nat.
Variable step : Game → Player → nat → Game * StepResult.
Variable rewind : Game → bool → Game.

(** [Hex(BOARD_SIZE=[rows, cols], BOARD=b, legality_check=True,
    h_player=q, h=hid)]: its [game_status()] and its [turn_info()].  The
    object's [BOARD] is the list it was given. *)
Variable legality_status : nat → nat → Board → Player → Z → Status.
Variable legality_turn_info : nat → nat → Board → Player → Z → Player.

Variable num_rows num_cols : nat.

(** [__is_board_legal]. *)
Definition is_board_legal (b : Board) (rev_player player_turn : Player)
    (hid : Z) : bool :=
  let res := legality_status num_rows num_cols b rev_player hid in
  let ct := Z.of_nat (length (filter (λ c, c = Empty) b)) in
  if decide (res = Illegal
             ∨ legality_turn_info num_rows num_cols b rev_player hid ≠ player_turn
             ∨ (ct ≤ hid)%Z)
  then false else true.

(** The mutable arguments of [__topSort_play]: the stack, the keys that
    [visited] maps to [True], and [nodes_dict], which records for every key
    the stack position of its node. *)
Record BuildState := mkBuild {
  stack : list Node;
  visited : gset Board;
  build_dict : gmap InfoSet nat
}.

(** Lines 222-224 and 232-234. *)
Definition push_node (n : Node) (bs : BuildState) : BuildState :=
  match build_dict bs !! infoSet n with
  | Some _ => bs
  | None =>
      {| stack := stack bs ++ [n];
         visited := visited bs;
         build_dict := <[infoSet n := length (stack bs)]> (build_dict bs) |}
  end.

Definition mark_visited (ext : Board) (bs : BuildState) : BuildState :=
  {| stack := stack bs; visited := {[ext]} ∪ visited bs;
     build_dict := build_dict bs |}.

(** Lines 178-219: the node of the call, the player it is for, or [None]
    when the call returns before line 221. *)
Definition enter (game : Game) (res : StepResult) (bs : BuildState)
  : option (Node * Player * BuildState) :=
  let player0 := turn_info game in
  let ext_infoSet := BOARDS game P1 ++ BOARDS game P2 in
  match res with
  | Failed =>
      let rev_player := reverse_player player0 in
      let node := Node_init (BOARDS game player0) player0
                    (totalHidden_for_player game player0) in
      if negb (is_board_legal (BOARDS game player0) rev_player player0 (h node))
      then None
      else if decide (ext_infoSet ∈ visited bs) then None
      else Some (node, player0, mark_visited ext_infoSet bs)
  | _ =>
      let player := match res with Winner w => w | _ => player0 end in
      let rev_player := reverse_player player in
      let new_h := totalHidden_for_player game player in
      let node := with_is_terminal
                    (if decide (res = Continue) then false else true)
                    (Node_init (BOARDS game player) player new_h) in
      if negb (is_board_legal (BOARDS game player) rev_player player new_h)
         && negb (is_board_legal (BOARDS game rev_player) player rev_player
                    (totalHidden_for_player game rev_player))
      then None
      else if decide (ext_infoSet ∈ visited bs) then None
      else Some (node, player, mark_visited ext_infoSet bs)
  end.

(** A loop whose body may run out of fuel. *)
Fixpoint for_moves {A S} (xs : list A) (body : A → S → option S) (s : S)
  : option S :=
  match xs with
  | [] => Some s
  | x :: rest =>
      match body x s with
      | Some s' => for_moves rest body s'
      | None => None
      end
  end.

(** [__topSort_play].  The recursion of the Python function is bounded by
    [fuel]; [None] means the bound was reached. *)
Fixpoint topSort_play (fuel : nat) (game : Game) (res : StepResult)
    (bs : BuildState) : option (Game * BuildState) :=
  match fuel with
  | O => None
  | S fuel' =>
      match enter game res bs with
      | None => Some (game, bs)
      | Some (node, player, bs1) =>
          if is_terminal node then Some (game, push_node node bs1)
          else
            match
              for_moves (valid_moves_colors game player)
                (λ a '(g, s),
                   let '(g1, r) := step g player a in
                   match topSort_play fuel' g1 r s with
                   | Some (g2, s2) =>
                       Some (rewind g2 (bool_decide (r = Failed)), s2)
                   | None => None
                   end)
                (game, bs1)
            with
            | Some (g', bs2) => Some (g', push_node node bs2)
            | None => None
            end
      end
  end.

(** [__init_board_topSorted]: the reversed stack, and [nodes_dict] with
    each reference turned into the position it has after the reversal. *)
Definition init_board_topSorted (fuel : nat)
  : option (list Node * gmap InfoSet nat) :=
  let bs0 := {| stack := []; visited := ∅; build_dict := ∅ |} in
  match topSort_play fuel (DarkHex num_rows num_cols) Continue bs0 with
  | Some (_, bs) =>
      Some (reverse (stack bs),
            (λ j, length (stack bs) - 1 - j)%nat <$> build_dict bs)
  | None => None
  end.

(** A node as the construction makes it: the constructor's node, with the
    terminal flag set or not. *)
Definition built_node (n : Node) : Prop :=
  ∃ b p hid t, n = with_is_terminal t (Node_init b p hid).

(** The legality check on the key of a node. *)
Definition own_view_legal (n : Node) : Prop :=
  is_board_legal (board n) (reverse_player (player n)) (player n) (h n)
  = true.

(** The look-ahead of lines 210-215: the node is the view of its player in
    a game state whose other view passes the check for the other player. *)
Definition kept_by_lookahead (n : Node) : Prop :=
  ∃ g, board n = BOARDS g (player n)
     ∧ h n = totalHidden_for_player g (player n)
     ∧ is_board_legal (BOARDS g (reverse_player (player n))) (player n)
         (reverse_player (player n))
         (totalHidden_for_player g (reverse_player (player n))) = true.

(** What holds of the stack and the map all through the construction. *)
Definition build_inv (bs : BuildState) : Prop :=
  Forall (λ n, built_node n ∧ (own_view_legal n ∨ kept_by_lookahead n))
    (stack bs)
  ∧ (∀ k j, build_dict bs !! k = Some j →
            ∃ n, stack bs !! j = Some n ∧ infoSet n = k)
  ∧ (∀ j n, stack bs !! j = Some n → build_dict bs !! infoSet n = Some j).

End Builder.

Arguments enter {Game}.
Arguments topSort_play {Game}.
Arguments init_board_topSorted {Game}.
Arguments kept_by_lookahead {Game}.
Arguments build_inv {Game}.

(** ** A rule engine to run the code on

    Dark Hex by its rules on a [rows × cols] board, cells numbered row by
    row: [P1] joins the top row to the bottom row, [P2] the left column to
    the right one; a placement on a cell that hides a stone of the opponent
    fails, shows that stone to the mover and leaves the turn with the mover.
    The developments above are parametric in the engine; this instance only
    serves to evaluate them on concrete boards. *)

Module MiniHex.

Record Game := mkGame {
  g_rows : nat;
  g_cols : nat;
  g_full : Board;
  g_view1 : Board;
  g_view2 : Board;
  g_turn : Player;
  g_prev : list (Board * Board * Board * Player)
}.

Definition new_game (rows cols : nat) : Game :=
  let b := replicate (rows * cols) Empty in
  mkGame rows cols b b b P1 [].

Definition turn_info (g : Game) : Player := g_turn g.

Definition BOARDS (g : Game) (p : Player) : Board :=
  match p with P1 => g_view1 g | P2 => g_view2 g end.

Definition count_stones (p : Player) (b : Board) : nat :=
  length (filter (λ c, c = Stone p) b).

Definition totalHidden_for_player (g : Game) (p : Player) : Z :=
  let q := reverse_player p in
  Z.of_nat (count_stones q (g_full g)) - Z.of_nat (count_stones q (BOARDS g p)).

Definition valid_moves_colors (g : Game) (p : Player) : list nat :=
  neutral_from 0 (BOARDS g p).

(** The six neighbours of a cell on the rhombus. *)
Definition adjacent (cols i j : nat) : bool :=
  let ri := (i / cols)%nat in let ci := (i mod cols)%nat in
  let rj := (j / cols)%nat in let cj := (j mod cols)%nat in
  bool_decide ((ri = rj ∧ (ci = S cj ∨ cj = S ci))
            ∨ (ci = cj ∧ (ri = S rj ∨ rj = S ri))
            ∨ (ri = S rj ∧ cj = S ci)
            ∨ (rj = S ri ∧ ci = S cj)).

Definition cells_of (p : Player) (b : Board) : list nat :=
  filter (λ i, b !! i = Some (Stone p)) (seq 0 (length b)).

(** One round of flooding: the cells of [mine] next to a reached cell. *)
Definition grow (cols : nat) (mine reached : list nat) : list nat :=
  filter (λ i, i ∈ reached ∨ Exists (λ j, adjacent cols i j = true) reached) mine.

Fixpoint flood (k : nat) (cols : nat) (mine reached : list nat) : list nat :=
  match k with
  | O => reached
  | S k' => flood k' cols mine (grow cols mine reached)
  end.

Definition connects (rows cols : nat) (p : Player) (b : Board) : bool :=
  let mine := cells_of p b in
  let starts := match p with
                | P1 => filter (λ i, (i / cols = 0)%nat) mine
                | P2 => filter (λ i, (i mod cols = 0)%nat) mine
                end in
  let reached := flood (length b) cols mine starts in
  match p with
  | P1 => bool_decide (Exists (λ i, (i / cols = rows - 1)%nat) reached)
  | P2 => bool_decide (Exists (λ i, (i mod cols = cols - 1)%nat) reached)
  end.

(** [Hex.game_status] without the legality check. *)
Definition game_status (rows cols : nat) (b : Board) : Status :=
  if connects rows cols P1 b then Won P1
  else if connects rows cols P2 b then Won P2
  else InProgress.

(** Stones of each colour on a view, the [hid] hidden ones of [q] added. *)
Definition stones_with_hidden (p q : Player) (hid : Z) (b : Board) : Z :=
  Z.of_nat (count_stones p b) + (if decide (p = q) then hid else 0).

(** With the legality check: a view is illegal when its stone counts cannot
    come from alternating play that [P1] opens. *)
Definition legality_status (rows cols : nat) (b : Board) (q : Player)
    (hid : Z) : Status :=
  let n1 := stones_with_hidden P1 q hid b in
  let n2 := stones_with_hidden P2 q hid b in
  if decide (n1 = n2 ∨ n1 = n2 + 1)%Z then game_status rows cols b
  else Illegal.

Definition legality_turn_info (rows cols : nat) (b : Board) (q : Player)
    (hid : Z) : Player :=
  if decide (stones_with_hidden P1 q hid b = stones_with_hidden P2 q hid b)
  then P1 else P2.

Definition snapshot (g : Game) : Board * Board * Board * Player :=
  (g_full g, g_view1 g, g_view2 g, g_turn g).

Definition set_view (p : Player) (a : nat) (c : Cell) (g : Game)
  : Board * Board :=
  match p with
  | P1 => (<[a := c]> (g_view1 g), g_view2 g)
  | P2 => (g_view1 g, <[a := c]> (g_view2 g))
  end.

Definition step (g : Game) (p : Player) (a : nat) : Game * StepResult :=
  match g_full g !! a with
  | Some Empty =>
      let full := <[a := Stone p]> (g_full g) in
      let '(v1, v2) := set_view p a (Stone p) g in
      (mkGame (g_rows g) (g_cols g) full v1 v2 (reverse_player p)
              (snapshot g :: g_prev g),
       if connects (g_rows g) (g_cols g) p full then Winner p else Continue)
  | Some (Stone q) =>
      let '(v1, v2) := set_view p a (Stone q) g in
      (mkGame (g_rows g) (g_cols g) (g_full g) v1 v2 p
              (snapshot g :: g_prev g), Failed)
  | None => (g, Failed)
  end.

Definition rewind (g : Game) (failed : bool) : Game :=
  match g_prev g with
  | (full, v1, v2, t) :: rest => mkGame (g_rows g) (g_cols g) full v1 v2 t rest
  | [] => g
  end.

Definition build (rows cols fuel : nat) :=
  init_board_topSorted new_game turn_info BOARDS totalHidden_for_player
    valid_moves_colors step rewind legality_status legality_turn_info
    rows cols fuel.

(** The graphs of three small boards.  The recursion bounds are large
    enough for the construction to return. *)
Definition graph_of (r : option (list Node * gmap InfoSet nat))
  : list Node * gmap InfoSet nat :=
  default ([], ∅) r.

Definition returned (r : option (list Node * gmap InfoSet nat)) : bool :=
  match r with Some _ => true | None => false end.

Definition row_graph := graph_of (build 1 2 5).
Definition column_graph := graph_of (build 2 1 5).
Definition square_graph := graph_of (build 2 2 12).

End MiniHex.

(** ** Vocabulary of the statements *)

(** The three arrays of a node have the length [Node.__init__] gave them. *)
Definition node_wf (n : Node) : Prop :=
  length (strategy n) = num_actions n
  ∧ length (regretSum n) = num_actions n
  ∧ length (strategySum n) = num_actions n.

(** What the utility loop of the backward step may change: [u] of the node
    at [i], and entries of the scratch list. *)
Definition only_u (i : nat) (nd : Node) (nodes0 : list Node)
    (regret0 : list Qc) (st : list Node * list Qc) : Prop :=
  (∃ x, st.1 = <[i := with_u x nd]> nodes0) ∧ length st.2 = length regret0.

(** What a forward step does to a successor: [c.visits], [c.pSum1] and
    [c.pSum2] grow by the share of the node [nd] that is being expanded. *)
Definition add_reach (sa : Qc) (nd c : Node) : Node :=
  with_reach (visits c + visits nd)
    (pSum1 c + (if decide (player nd = P1) then sa * pSum1 nd else pSum1 nd))
    (pSum2 c + (if decide (player nd = P2) then sa * pSum2 nd else pSum2 nd))
    c.

(** Two views of a node that differ at most in the reach accumulators. *)
Definition reach_changed (m m' : Node) : Prop :=
  m' = with_reach (visits m') (pSum1 m') (pSum2 m') m.

(** ** The run of [train] as a sequence of steps *)

Section Schedule.

Variable game_status : nat → nat → Board → Status.
Variable num_rows num_cols : nat.
Variable nodes_dict : gmap InfoSet nat.

(** One visit of one node, in the forward or in the backward loop. *)
Inductive Step := Fwd (i : nat) | Bwd (i : nat).

Definition run_step (s : Step) (st : TrainState) : result TrainState :=
  match s with
  | Fwd i => ns ←! forward_node nodes_dict i st.1; Ok (ns, st.2)
  | Bwd i => backward_node game_status num_rows num_cols nodes_dict i st
  end.

Definition run (steps : list Step) (st : TrainState) : result TrainState :=
  for_each steps run_step st.

(** The visits of one round over an arena of [len] nodes, and of [k]
    rounds. *)
Definition round (len : nat) : list Step :=
  (Fwd <$> seq 0 len) ++ (Bwd <$> reverse (seq 0 len)).

Definition rounds (k len : nat) : list Step :=
  concat (replicate k (round len)).

End Schedule.

(** The reach accumulators of a node are cleared. *)
Definition reach_cleared (n : Node) : Prop :=
  visits n = 0%Z ∧ pSum1 n = 0 ∧ pSum2 n = 0.

(** What no step of [train] writes: the fields that the constructor derives
    from the position, and, in a forward step, also the ones that only the
    backward step writes. *)
Definition same_position (m m' : Node) : Prop :=
  player m' = player m ∧ board m' = board m ∧ h m' = h m
  ∧ pos_actions m' = pos_actions m ∧ is_terminal m' = is_terminal m
  ∧ num_actions m' = num_actions m.

Definition same_learned (m m' : Node) : Prop :=
  u m' = u m ∧ T m' = T m ∧ regretSum m' = regretSum m.


(** The counters of a node as the constructor leaves them. *)
Definition fresh_counts (n : Node) : Prop := visits n = 1%Z ∧ T n = 0%Z.

(** The state of the counters that the rounds maintain: neither is
    negative, and a node that the backward step would update has a positive
    [T + visits]. *)
Definition counts_ok (game_status : nat → nat → Board → Status)
    (num_rows num_cols : nat) (n : Node) : Prop :=
  (0 ≤ visits n)%Z ∧ (0 ≤ T n)%Z
  ∧ (game_status num_rows num_cols (board n) = InProgress →
     (0 < T n + visits n)%Z).

(** ** The scratch list, in the words of its use

    What the backward pass adds to [regret[a]], written down without the
    loops: for every successor key of action [a] that is in the map, the
    utility of that successor, negated when the successor belongs to the
    other player. *)

Section Scratch.

Variable game_status : nat → nat → Board → Status.
Variable num_rows num_cols : nat.
Variable nodes_dict : gmap InfoSet nat.

(** Every key of the map points at a node with that key. *)
Definition dict_consistent (nodes : list Node) : Prop :=
  ∀ k j, nodes_dict !! k = Some j →
         ∃ c, nodes !! j = Some c ∧ infoSet c = k.

Definition childUtil_of (nodes : list Node) (n : Node) (k : InfoSet) : Qc :=
  match nodes_dict !! k with
  | Some j =>
      match nodes !! j with
      | Some c => if decide (player c = player n) then u c else - u c
      | None => 0
      end
  | None => 0
  end.

Definition action_contribution (nodes : list Node) (n : Node) (a : nat)
  : Qc :=
  match backward_children n a with
  | Ok (Some ks) => total (childUtil_of nodes n <$> ks)
  | _ => 0
  end.

(** The contribution of the backward step on the node at [i] to
    [regret[a]], in the arena [nodes] that the step starts from. *)
Definition step_contribution (nodes : list Node) (i a : nat) : Qc :=
  match nodes !! i with
  | Some n =>
      if decide (game_status num_rows num_cols (board n) = InProgress
                 ∧ (a < fsicfr_num_actions num_rows num_cols)%nat)
      then action_contribution nodes n a
      else 0
  | None => 0
  end.

(** The backward steps of a run, each with the arena it started from. *)
Fixpoint backward_visits (steps : list Step) (st : TrainState)
  : list (list Node * nat) :=
  match steps with
  | [] => []
  | s :: rest =>
      match run_step game_status num_rows num_cols nodes_dict s st with
      | Ok st' =>
          match s with
          | Bwd i => (st.1, i) :: backward_visits rest st'
          | Fwd _ => backward_visits rest st'
          end
      | Raise _ => []
      end
  end.

(** The sum of the contributions to [regret[a]] of all these steps. *)
Definition accumulated (visits_so_far : list (list Node * nat)) (a : nat)
  : Qc :=
  total ((λ v : list Node * nat, step_contribution v.1 v.2 a)
           <$> visits_so_far).

End Scratch.

(** The strategy that regret matching derives from a row of regrets. *)
Definition regret_matching (rs : list Qc) : list Qc :=
  normalise (length rs) (total (max0 <$> rs)) (max0 <$> rs).

(** One increment of [strategySum] by [getStrategy]. *)
Definition add_weighted (w : Qc) (ss strat : list Qc) : list Qc :=
  zip_with (λ acc p, acc + p * w) ss strat.

(** The fields that only [getStrategy] and the backward update write. *)
Definition strategy_kept (m m' : Node) : Prop :=
  strategy m' = strategy m ∧ strategySum m' = strategySum m
  ∧ regretSum m' = regretSum m ∧ player m' = player m
  ∧ num_actions m' = num_actions m.

(** A run that does not end on a quotient by zero. *)
Definition finite {A} (r : result A) : Prop := r ≠ Raise NotFinite.

(** The shape that every node has from its construction on: arrays of the
    constructor's length, legal actions listed once, reach accumulators and
    strategy sums that are not negative. *)
Definition node_ok (n : Node) : Prop :=
  node_wf n ∧ NoDup (pos_actions n)
  ∧ 0 ≤ pSum1 n ∧ 0 ≤ pSum2 n
  ∧ Forall (λ x, 0 ≤ x) (strategySum n).

(** ** Vocabulary of the further statements *)

(** The tuple that [get_infoset] makes of its argument.  Every call passes
    [[player, *board, h]]: a colour, the cells, and the hidden count. *)
Inductive Item := Colour (c : Cell) | Count (z : Z).

Definition get_infoset_tuple (args : list Item) : list Item := args.

Definition flat_infoset (p : Player) (b : Board) (hid : Z) : list Item :=
  get_infoset_tuple (Colour (Stone p) :: (Colour <$> b) ++ [Count hid]).

(** [board.count('.')], as [__is_board_legal] takes it. *)
Definition empties (b : Board) : nat := length (filter (λ c, c = Empty) b).

(** The keys that [train] derives from a node: those that the backward
    loop makes for some action index. *)
Definition successor_key (n : Node) (k : InfoSet) : Prop :=
  ∃ a ks, backward_children n a = Ok (Some ks) ∧ k ∈ ks.

(** An edge of the graph that [train] walks: from an arena position to the
    position that [nodes_dict] gives for a successor key of its node. *)
Definition edge (nodes_dict : gmap InfoSet nat) (nodes : list Node)
    (i j : nat) : Prop :=
  ∃ n k, nodes !! i = Some n ∧ successor_key n k ∧ nodes_dict !! k = Some j.

(** The fields in which [train] keeps what it has learned. *)
Definition frozen (m m' : Node) : Prop :=
  regretSum m' = regretSum m ∧ strategySum m' = strategySum m ∧ T m' = T m.

(** A node as a finished round leaves it: cleared reach accumulators, and a
    positive [T] when its board is in progress. *)
Definition settled (game_status : nat → nat → Board → Status)
    (num_rows num_cols : nat) (n : Node) : Prop :=
  reach_cleared n
  ∧ (game_status num_rows num_cols (board n) = InProgress → (0 < T n)%Z).

(** A node made for a board of [actions] cells: its legal actions are empty
    cells of that board. *)
Definition fits (actions : nat) (n : Node) : Prop :=
  length (board n) = actions ∧ num_actions n = actions
  ∧ ∀ a, a ∈ pos_actions n → board n !! a = Some Empty.

(** [strategy[a] * v], read only when a successor is found. *)
Definition weighted (strat : list Qc) (a : nat) (v : Qc) : Qc :=
  match strat !! a with Some sa => sa * v | None => 0 end.

(** All boards of a given number of cells. *)
Fixpoint boards_of_length (k : nat) : list Board :=
  match k with
  | O => [[]]
  | S k' =>
      b ← boards_of_length k';
      [Empty :: b; Stone P1 :: b; Stone P2 :: b]
  end.

(** What [train] relies on, of the arena and of the scratch list: [len]
    nodes made for boards of [num_cols * num_rows] cells, a map that points
    into the arena, and a scratch list of that many entries. *)
Definition arena_ok (game_status : nat → nat → Board → Status)
    (num_rows num_cols : nat) (nodes_dict : gmap InfoSet nat) (len : nat)
    (st : TrainState) : Prop :=
  length st.1 = len
  ∧ length st.2 = fsicfr_num_actions num_rows num_cols
  ∧ dict_consistent nodes_dict st.1
  ∧ Forall node_ok st.1
  ∧ Forall (counts_ok game_status num_rows num_cols) st.1
  ∧ Forall (fits (fsicfr_num_actions num_rows num_cols)) st.1.

(** The arena positions that a list of steps visits are below [len]. *)
Definition step_index (s : Step) : nat :=
  match s with Fwd i => i | Bwd i => i end.

(** The states that a game of the engine above on [k] cells goes through:
    both views, now and in every snapshot kept for [rewind], have [k]
    cells. *)
Definition sized (k : nat) (g : MiniHex.Game) : Prop :=
  length (MiniHex.g_view1 g) = k ∧ length (MiniHex.g_view2 g) = k
  ∧ Forall (λ s : Board * Board * Board * Player,
              length s.1.1.2 = k ∧ length s.1.2 = k) (MiniHex.g_prev g).

(** A node with regrets 3, -1 and 1. *)
Definition sample_node : Node :=
  with_regretSum [Qc_of_Z 3; Qc_of_Z (-1); Qc_of_Z 1]
    (Node_init [Empty; Empty; Empty] P1 0).

(** The value of a run that returns. *)
Definition value_of {A} (d : A) (r : result A) : A :=
  match r with Ok a => a | Raise _ => d end.

Definition returns {A} (r : result A) : bool :=
  match r with Ok _ => true | Raise _ => false end.

(** The first round on the 1 × 2 graph, up to the backward step on the
    root, and after it. *)
Definition row_before_root : TrainState :=
  value_of ([], [])
    (run MiniHex.game_status 1 2 MiniHex.row_graph.2
       [Fwd 0; Fwd 1; Fwd 2; Bwd 2; Bwd 1]
       (MiniHex.row_graph.1, replicate 2 0)).

Definition row_after_root : TrainState :=
  value_of ([], [])
    (backward_node MiniHex.game_status 1 2 MiniHex.row_graph.2 0
       row_before_root).

(** A stack and a map that already hold a node, to start a call of
    [__topSort_play] from. *)
Definition seeded : BuildState :=
  {| stack := [sample_node]; visited := ∅;
     build_dict := {[ infoSet sample_node := 0%nat ]} |}.

(** ** The calls of the construction *)

Section BuilderCalls.

Variable Game : Type.
Variable turn_info : Game → Player.
Variable BOARDS : Game → Player → Board.
Variable totalHidden_for_player : Game → Player → Z.
Variable valid_moves_colors : Game → Player → list nat.
Variable step : Game → Player → nat → Game * StepResult.
Variable rewind : Game → bool → Game.
Variable legality_status : nat → nat → Board → Player → Z → Status.
Variable legality_turn_info : nat → nat → Board → Player → Z → Player.
Variable num_rows num_cols : nat.

(** Lines 229-231: one turn of the loop over [valid_moves], as
    [__topSort_play] has it, for the inner calls that the recursion bound
    [fuel] allows. *)
Definition play_move (fuel : nat) (player : Player)
  : nat → Game * BuildState → option (Game * BuildState) :=
  λ a '(g, s),
    let '(g1, r) := step g player a in
    match topSort_play turn_info BOARDS totalHidden_for_player
            valid_moves_colors step rewind legality_status legality_turn_info
            num_rows num_cols fuel g1 r s with
    | Some (g2, s2) => Some (rewind g2 (bool_decide (r = Failed)), s2)
    | None => None
    end.

(** [calls fuel game res bs game' res' bs']: the call
    [__topSort_play(game, res, ...)], started with the stack, the visited
    keys and the map of [bs], makes the call
    [__topSort_play(game', res', ...)] with those of [bs'], itself or through
    the loop of line 228.  An inner call is the one for a move [a] of
    [valid_moves], on the game as the turns for the moves before [a] have
    left it. *)
Inductive calls
  : nat → Game → StepResult → BuildState
    → Game → StepResult → BuildState → Prop :=
| calls_itself fuel game res bs :
    calls (S fuel) game res bs game res bs
| calls_inner fuel game res bs node player bs1 pre a post g s
      game' res' bs' :
    enter turn_info BOARDS totalHidden_for_player legality_status
      legality_turn_info num_rows num_cols game res bs
      = Some (node, player, bs1) →
    is_terminal node = false →
    valid_moves_colors game player = pre ++ a :: post →
    for_moves pre (play_move fuel player) (game, bs1) = Some (g, s) →
    calls fuel (step g player a).1 (step g player a).2 s game' res' bs' →
    calls (S fuel) game res bs game' res' bs'.

End BuilderCalls.

Arguments play_move {Game}.
Arguments calls {Game}.

(** ** The two methods of [Node] in the arithmetic of numpy

    The arrays [strategy], [regretSum] and [strategySum] are numpy
    [float64] arrays: IEEE 754 binary64, every operation rounded to
    nearest.  This module repeats [getStrategy] and [getAverageStrategy] on
    the kernel's binary64 numbers, with the fields that the two methods read
    or write, to evaluate them where the rounding shows. *)

Module F64.

Import PrimInt63 PrimFloat.

Record Node := mkNode {
  player : Player;
  strategy : list float;
  regretSum : list float;
  strategySum : list float;
  pSum1 : float;
  pSum2 : float
}.

(** [len(...)], an integer, and the float it is in a quotient. *)
Fixpoint int_of_nat (k : nat) : int :=
  match k with
  | O => 0%uint63
  | S k' => PrimInt63.add (int_of_nat k') 1%uint63
  end.

Definition of_nat (k : nat) : float := of_uint63 (int_of_nat k).

(** Python's [max(x, 0)]: the first argument unless the second is greater. *)
Definition max0 (x : float) : float := if ltb x 0 then 0%float else x.

(** The running [normalizingSum += ...], from the integer 0. *)
Definition total (xs : list float) : float := foldl add 0%float xs.

Definition reachWeight (n : Node) : float :=
  if decide (player n = P1) then pSum1 n else pSum2 n.

(** The second loop of both methods on a row. *)
Definition normalise (k : nat) (s : float) (xs : list float) : list float :=
  if ltb 0 s then (λ x, div x s) <$> xs
  else replicate (length xs) (div 1 (of_nat k)).

(** [Node.getStrategy]. *)
Definition getStrategy (n : Node) : result Node :=
  let k := length (strategy n) in
  if decide (k ≤ length (regretSum n) ∧ k ≤ length (strategySum n))%nat then
    let pos := max0 <$> take k (regretSum n) in
    let strat := normalise k (total pos) pos in
    let w := reachWeight n in
    Ok {| player := player n; strategy := strat; regretSum := regretSum n;
          strategySum :=
            zip_with (λ acc p, add acc (mul p w)) (take k (strategySum n)) strat
              ++ drop k (strategySum n);
          pSum1 := pSum1 n; pSum2 := pSum2 n |}
  else Raise IndexError.

(** [Node.getAverageStrategy]. *)
Definition getAverageStrategy (n : Node) : Node * list float :=
  let ss := strategySum n in
  let avg := normalise (length ss) (total ss) ss in
  ({| player := player n; strategy := strategy n; regretSum := regretSum n;
      strategySum := avg; pSum1 := pSum1 n; pSum2 := pSum2 n |}, avg).

End F64.

(** * Properties *)

(** ** Sums of rows *)

Lemma foldl_Qcplus_shift (xs : list Qc) (a b : Qc) :
  foldl Qcplus (a + b) xs = a + foldl Qcplus b xs.
Proof.
  revert b. induction xs as [|x xs IH]; intros b; simpl; [done|].
  by rewrite <- Qcplus_assoc, IH.
Qed.

Lemma total_nil : total [] = 0.
Proof. done. Qed.

Lemma total_cons (x : Qc) (xs : list Qc) : total (x :: xs) = x + total xs.
Proof.
  unfold total. simpl. rewrite (Qcplus_comm 0 x). apply foldl_Qcplus_shift.
Qed.

(** The running sum of the two methods is the sum of the row. *)
Lemma total_foldr (xs : list Qc) : total xs = foldr Qcplus 0 xs.
Proof.
  induction xs as [|x xs IH]; [done|]. by rewrite total_cons, IH.
Qed.

Lemma total_app (xs ys : list Qc) : total (xs ++ ys) = total xs + total ys.
Proof.
  induction xs as [|x xs IH]; simpl.
  - by rewrite total_nil, Qcplus_0_l.
  - by rewrite !total_cons, IH, Qcplus_assoc.
Qed.

Lemma total_scale (c : Qc) (xs : list Qc) :
  total ((λ x, x * c) <$> xs) = total xs * c.
Proof.
  induction xs as [|x xs IH].
  - by rewrite fmap_nil, total_nil, Qcmult_0_l.
  - rewrite fmap_cons, !total_cons, IH. ring.
Qed.

Lemma total_div (s : Qc) (xs : list Qc) :
  total ((λ x, x / s) <$> xs) = total xs / s.
Proof. apply (total_scale (/ s)). Qed.

Lemma total_replicate (k : nat) (c : Qc) :
  total (replicate k c) = Qc_of_nat k * c.
Proof.
  induction k as [|k IH].
  - unfold Qc_of_nat. change (Z.of_nat 0) with 0%Z.
    by rewrite Z2Qc_inj_0, Qcmult_0_l.
  - simpl replicate. rewrite total_cons, IH. unfold Qc_of_nat.
    rewrite Nat2Z.inj_succ, <- Z.add_1_r, Z2Qc_inj_add, Z2Qc_inj_1. ring.
Qed.

Lemma total_nonneg (xs : list Qc) : Forall (λ x, 0 ≤ x) xs → 0 ≤ total xs.
Proof.
  induction 1 as [|x xs Hx _ IH]; [done|].
  rewrite total_cons. by apply Qcplus_nonneg_nonneg.
Qed.

Lemma Qc_of_nat_pos (k : nat) : (0 < k)%nat → 0 < Qc_of_nat k.
Proof.
  intros Hk. unfold Qc_of_nat. rewrite <- Z2Qc_inj_0. apply (proj1 (Z2Qc_inj_lt 0 (Z.of_nat k))). lia.
Qed.

Lemma Qc_of_nat_inv_nonneg (k : nat) : 0 ≤ 1 / Qc_of_nat k.
Proof.
  destruct k as [|k].
  - by vm_compute.
  - unfold Qcdiv. rewrite Qcmult_1_l. apply Qclt_le_weak, Qcinv_pos, Qc_of_nat_pos. lia.
Qed.

Lemma max0_nonneg (x : Qc) : 0 ≤ max0 x.
Proof.
  unfold max0. case_decide; [done|]. by apply Qcnot_lt_le.
Qed.

Lemma max0_nonpos (x : Qc) : x ≤ 0 → max0 x = 0.
Proof.
  intros Hx. unfold max0. case_decide; [done|].
  apply Qcle_antisym; [done|]. by apply Qcnot_lt_le.
Qed.

(** ** The normalisation shared by both methods *)

Lemma length_normalise (k : nat) (s : Qc) (xs : list Qc) :
  length (normalise k s xs) = length xs.
Proof.
  unfold normalise. case_decide; [by rewrite length_fmap | by rewrite length_replicate].
Qed.

Lemma normalise_nonneg (k : nat) (s : Qc) (xs : list Qc) :
  Forall (λ x, 0 ≤ x) xs → Forall (λ x, 0 ≤ x) (normalise k s xs).
Proof.
  intros Hxs. unfold normalise. case_decide as Hs.
  - apply Forall_fmap. eapply Forall_impl; [exact Hxs|]. intros x Hx. simpl.
    apply Qcmult_nonneg_nonneg; [done|]. by apply Qclt_le_weak, Qcinv_pos.
  - apply Forall_replicate. apply Qc_of_nat_inv_nonneg.
Qed.

Lemma total_normalise (xs : list Qc) :
  (0 < length xs)%nat → total (normalise (length xs) (total xs) xs) = 1.
Proof.
  intros Hlen. unfold normalise. case_decide as Hs.
  - rewrite total_div. unfold Qcdiv. apply Qcmult_inv_r.
    intros Heq. rewrite Heq in Hs. by apply (Qclt_not_eq 0 0).
  - rewrite total_replicate. unfold Qcdiv. rewrite Qcmult_1_l.
    apply Qcmult_inv_r. intros Heq.
    pose proof (Qc_of_nat_pos _ Hlen) as Hpos. rewrite Heq in Hpos.
    by apply (Qclt_not_eq 0 0).
Qed.

(** ** [Node.getStrategy] and [Node.getAverageStrategy] *)

Lemma Node_init_wf (b : Board) (p : Player) (hid : Z) : node_wf (Node_init b p hid).
Proof. unfold node_wf. simpl. by rewrite !length_replicate. Qed.

Lemma getStrategy_ok (n : Node) :
  (length (strategy n) ≤ length (regretSum n))%nat →
  (length (strategy n) ≤ length (strategySum n))%nat →
  getStrategy n =
    Ok (with_strategy
          (normalise (length (strategy n))
             (total (max0 <$> take (length (strategy n)) (regretSum n)))
             (max0 <$> take (length (strategy n)) (regretSum n)))
          (zip_with (λ acc p, acc + p * reachWeight n)
             (take (length (strategy n)) (strategySum n))
             (normalise (length (strategy n))
                (total (max0 <$> take (length (strategy n)) (regretSum n)))
                (max0 <$> take (length (strategy n)) (regretSum n)))
           ++ drop (length (strategy n)) (strategySum n)) n).
Proof.
  intros H1 H2. unfold getStrategy. by rewrite decide_True.
Qed.

(** C5, in exact arithmetic: on a node whose arrays have the length
    [num_actions] > 0 that the constructor gives them, [getStrategy]
    returns, and its [strategy] is a probability vector of that length:
    entries that are not negative and whose sum, taken over the rationals,
    is 1.  When no [regretSum] entry is positive, every index, legal or
    not, holds [1 / num_actions].  The sum is written out on the row, not
    through the running sum of the method. *)
Theorem getStrategy_distribution (n : Node) :
  node_wf n → (0 < num_actions n)%nat →
  ∃ n', getStrategy n = Ok n'
    ∧ length (strategy n') = num_actions n
    ∧ Forall (λ x, 0 ≤ x) (strategy n')
    ∧ foldr Qcplus 0 (strategy n') = 1
    ∧ (Forall (λ r, r ≤ 0) (regretSum n) →
       strategy n'
       = replicate (num_actions n) (1 / Qc_of_Z (Z.of_nat (num_actions n)))).
Proof.
  intros (Hs & Hr & Hss) Hpos.
  eexists. split; [apply getStrategy_ok; lia|]. simpl.
  rewrite Hs, <- Hr, firstn_all.
  assert (Hlen : length (max0 <$> regretSum n) = length (regretSum n))
    by apply length_fmap.
  split_and!.
  - by rewrite length_normalise.
  - apply normalise_nonneg, Forall_fmap, Forall_true. intros x. apply max0_nonneg.
  - rewrite <- total_foldr, <- Hlen. apply total_normalise. lia.
  - intros Hneg.
    assert (Hz : max0 <$> regretSum n = replicate (length (regretSum n)) 0).
    { clear -Hneg. induction Hneg as [|x xs Hx _ IH]; [done|].
      rewrite fmap_cons, IH, max0_nonpos by done. done. }
    unfold normalise. rewrite Hz, total_replicate, Qcmult_0_r.
    rewrite decide_False by (by apply Qcle_not_lt).
    by rewrite length_replicate.
Qed.

(** C8, in exact arithmetic: [getAverageStrategy] stores what it returns
    and changes no other field; that row is the old [strategySum] divided
    by its sum when the sum is positive and [1 / num_actions] at every
    index otherwise; taken over the rationals it sums to 1, and it has no
    negative entry when the old row had none.  The sums are written out on
    the rows, not through the running sum of the method. *)
Theorem getAverageStrategy_normalises (n : Node) :
  length (strategySum n) = num_actions n → (0 < num_actions n)%nat →
  strategySum (getAverageStrategy n).1 = (getAverageStrategy n).2
  ∧ strategy (getAverageStrategy n).1 = strategy n
  ∧ regretSum (getAverageStrategy n).1 = regretSum n
  ∧ length (getAverageStrategy n).2 = num_actions n
  ∧ (0 < foldr Qcplus 0 (strategySum n) →
     (getAverageStrategy n).2
     = (λ x, x / foldr Qcplus 0 (strategySum n)) <$> strategySum n)
  ∧ (¬ 0 < foldr Qcplus 0 (strategySum n) →
     (getAverageStrategy n).2
     = replicate (num_actions n) (1 / Qc_of_Z (Z.of_nat (num_actions n))))
  ∧ foldr Qcplus 0 (getAverageStrategy n).2 = 1
  ∧ (Forall (λ x, 0 ≤ x) (strategySum n) →
     Forall (λ x, 0 ≤ x) (getAverageStrategy n).2).
Proof.
  intros Hlen Hpos. unfold getAverageStrategy. simpl.
  rewrite <- !total_foldr. split_and!.
  - done.
  - done.
  - done.
  - by rewrite length_normalise.
  - intros Hs. unfold normalise. by rewrite decide_True.
  - intros Hs. unfold normalise. by rewrite decide_False, Hlen.
  - apply total_normalise. lia.
  - apply normalise_nonneg.
Qed.

(** ** Reasoning about runs that do not raise *)

Lemma bind_Ok {A B} (m : result A) (f : A → result B) (b : B) :
  bind m f = Ok b → ∃ a, m = Ok a ∧ f a = Ok b.
Proof. destruct m as [a|e]; simpl; [eauto | done]. Qed.

Lemma node_at_Ok (nodes : list Node) (i : nat) (n : Node) :
  node_at nodes i = Ok n ↔ nodes !! i = Some n.
Proof. unfold node_at. destruct (nodes !! i); split; congruence. Qed.

Lemma at_index_Ok {A} (xs : list A) (i : nat) (x : A) :
  at_index xs i = Ok x ↔ xs !! i = Some x.
Proof. unfold at_index. destruct (xs !! i); split; congruence. Qed.

Lemma set_index_Ok {A} (xs ys : list A) (i : nat) (x : A) :
  set_index xs i x = Ok ys ↔ (i < length xs)%nat ∧ ys = <[i:=x]> xs.
Proof.
  unfold set_index. case_decide as Hlt; split;
    [intros [= <-]; done | intros [_ ->]; done | done | intros [? _]; done].
Qed.

(** Loop invariants. *)
Lemma for_each_invariant {A S} (P : S → Prop) (xs : list A)
    (body : A → S → result S) (s s' : S) :
  for_each xs body s = Ok s' →
  P s →
  (∀ x t t', x ∈ xs → P t → body x t = Ok t' → P t') →
  P s'.
Proof.
  revert s. induction xs as [|x xs IH]; intros s Hrun Hs Hstep; simpl in Hrun.
  - by injection Hrun as <-.
  - apply bind_Ok in Hrun as (s1 & Hx & Hrun). eapply IH; [exact Hrun| |].
    + eapply Hstep; [apply list_elem_of_here|done..].
    + intros y t t' Hy. apply Hstep. by apply list_elem_of_further.
Qed.

Lemma for_each_app {A S} (xs ys : list A) (body : A → S → result S) (s : S) :
  for_each (xs ++ ys) body s = (s' ←! for_each xs body s; for_each ys body s').
Proof.
  revert s. induction xs as [|x xs IH]; intros s; simpl; [done|].
  destruct (body x s); simpl; [apply IH | done].
Qed.

(** Field updates that compose or cancel. *)
Lemma with_u_id (n : Node) : with_u (u n) n = n.
Proof. by destruct n. Qed.
Lemma with_reach_id (n : Node) : with_reach (visits n) (pSum1 n) (pSum2 n) n = n.
Proof. by destruct n. Qed.
(** ** The backward step on one node *)

Section TrainerProofs.

Context (game_status : nat → nat → Board → Status).
Context (num_rows num_cols : nat) (nodes_dict : gmap InfoSet nat).

Lemma only_u_start i nd nodes regret :
  nodes !! i = Some nd → only_u i nd nodes regret (nodes, regret).
Proof.
  intros Hi. split; [|done]. exists (u nd). simpl.
  by rewrite with_u_id, list_insert_id.
Qed.

Lemma only_u_lookup i nd nodes0 regret0 st :
  nodes0 !! i = Some nd → only_u i nd nodes0 regret0 st →
  ∃ x, st.1 !! i = Some (with_u x nd).
Proof.
  intros Hi [[x Hx] _]. exists x. rewrite Hx.
  apply list_lookup_insert_eq. by eapply lookup_lt_Some.
Qed.

Lemma collect_child_only_u i strat a k nd nodes0 regret0 st st' :
  nodes0 !! i = Some nd →
  only_u i nd nodes0 regret0 st →
  collect_child nodes_dict i strat a k st = Ok st' →
  only_u i nd nodes0 regret0 st'.
Proof.
  intros Hi Hinv Hrun.
  destruct (only_u_lookup _ _ _ _ _ Hi Hinv) as [x Hx].
  destruct Hinv as [[y Hy] Hlen]. destruct st as [nodes regret].
  simpl in *. unfold collect_child in Hrun.
  destruct (nodes_dict !! k) as [j|];
    [|injection Hrun as <-; split; simpl; eauto].
  apply bind_Ok in Hrun as (nd0 & Hnd0 & Hrun).
  apply bind_Ok in Hrun as (c & Hc & Hrun).
  apply bind_Ok in Hrun as (r & Hr & Hrun).
  apply bind_Ok in Hrun as (regret1 & Hset & Hrun).
  apply bind_Ok in Hrun as (sa & Hsa & Hrun). injection Hrun as <-.
  apply node_at_Ok in Hnd0. rewrite Hx in Hnd0. injection Hnd0 as <-.
  apply set_index_Ok in Hset as [Hlt ->].
  split; simpl.
  - eexists. rewrite Hy, list_insert_insert_eq. reflexivity.
  - by rewrite length_insert.
Qed.

Lemma collect_action_only_u i strat a nd nodes0 regret0 st st' :
  nodes0 !! i = Some nd →
  only_u i nd nodes0 regret0 st →
  collect_action nodes_dict i strat a st = Ok st' →
  only_u i nd nodes0 regret0 st'.
Proof.
  intros Hi Hinv Hrun. unfold collect_action in Hrun.
  apply bind_Ok in Hrun as (nd0 & _ & Hrun).
  apply bind_Ok in Hrun as (ks & _ & Hrun).
  destruct ks as [ks|]; [|by injection Hrun as <-].
  eapply (for_each_invariant (only_u i nd nodes0 regret0)); [done..|].
  intros k t t' _ Ht. by apply collect_child_only_u.
Qed.

Lemma collect_loop_only_u i strat xs nd nodes regret st' :
  nodes !! i = Some nd →
  for_each xs (collect_action nodes_dict i strat) (nodes, regret) = Ok st' →
  only_u i nd nodes regret st'.
Proof.
  intros Hi Hrun.
  eapply (for_each_invariant (only_u i nd nodes regret)); [done| |].
  - by apply only_u_start.
  - intros a t t' _ Ht. by apply collect_action_only_u.
Qed.

(** The regret loop over distinct legal actions. *)
Lemma update_loop_spec (n : Node) (regret : list Qc) (acts : list nat)
    (rs rs' : list Qc) :
  for_each acts (update_regret n regret) rs = Ok rs' →
  NoDup acts →
  length rs' = length rs
  ∧ (∀ a, a ∉ acts → rs' !! a = rs !! a)
  ∧ (∀ a, a ∈ acts →
       (T n + visits n ≠ 0)%Z
       ∧ ∃ old r, rs !! a = Some old ∧ regret !! a = Some r
           ∧ rs' !! a = Some (regret_mean (T n) old (visits n) (cfp_of n) (r - u n))).
Proof.
  revert rs. induction acts as [|a acts IH]; intros rs Hrun Hnd; simpl in Hrun.
  - injection Hrun as <-. split_and!; [done..|].
    intros a Ha. by apply elem_of_nil in Ha.
  - apply bind_Ok in Hrun as (rs1 & Hupd & Hrun).
    apply NoDup_cons in Hnd as [Hna Hnd]. unfold update_regret in Hupd.
    apply bind_Ok in Hupd as (v0 & Hv0 & Hupd).
    apply bind_Ok in Hupd as (v1 & Hv1 & Hupd).
    case_decide as Hden; [done|].
    apply set_index_Ok in Hupd as [Hlt ->].
    apply at_index_Ok in Hv0, Hv1.
    destruct (IH _ Hrun Hnd) as (Hlen & Hout & Hin).
    rewrite length_insert in Hlen. split_and!; [done| |].
    + intros b Hb. apply not_elem_of_cons in Hb as [Hne Hb].
      rewrite Hout by done. by rewrite list_lookup_insert_ne.
    + intros b Hb. apply elem_of_cons in Hb as [->|Hb].
      * split; [done|]. exists v0, v1. split_and!; [done..|].
        rewrite Hout by done. by rewrite list_lookup_insert_eq.
      * destruct (Hin b Hb) as (Hd & old & r & Hold & Hr & Hnew).
        split; [done|]. exists old, r. split_and!; [|done..].
        rewrite list_lookup_insert_ne in Hold; [done|].
        intros ->. done.
Qed.

Lemma getStrategy_fields (n n' : Node) :
  getStrategy n = Ok n' →
  n' = with_strategy (strategy n') (strategySum n') n.
Proof. unfold getStrategy. case_decide; [|done]. by intros [= <-]. Qed.

(** What one backward step does to the arena and to the scratch list. *)
Lemma backward_node_shape i nodes regret nodes' regret' n :
  backward_node game_status num_rows num_cols nodes_dict i (nodes, regret)
    = Ok (nodes', regret') →
  nodes !! i = Some n →
  ∃ nd1, getStrategy n = Ok nd1 ∧
    match game_status num_rows num_cols (board n) with
    | InProgress =>
        ∃ x rs,
          for_each (seq 0 (fsicfr_num_actions num_rows num_cols))
            (collect_action nodes_dict i (strategy nd1))
            (<[i := nd1]> nodes, regret)
            = Ok (<[i := with_u x nd1]> nodes, regret')
          ∧ for_each (pos_actions n) (update_regret (with_u x nd1) regret')
              (regretSum n) = Ok rs
          ∧ nodes' = <[i := with_reach 0 0 0
                             (with_T (T n + visits n)
                                (with_regretSum rs (with_u x nd1)))]> nodes
    | s =>
        regret' = regret
        ∧ nodes' = <[i := with_reach 0 0 0
                           (with_u (if decide (s = Won (player n))
                                    then 1 else -1) nd1)]> nodes
    end.
Proof.
  intros Hrun Hi. unfold backward_node in Hrun.
  apply bind_Ok in Hrun as (n0 & Hn0 & Hrun).
  apply node_at_Ok in Hn0. rewrite Hi in Hn0. injection Hn0 as <-.
  apply bind_Ok in Hrun as (nd1 & Hgs & Hrun).
  apply bind_Ok in Hrun as ([nodes2 regret2] & Hmid & Hrun).
  apply bind_Ok in Hrun as (nd3 & Hnd3 & Hrun).
  injection Hrun as <- <-. apply node_at_Ok in Hnd3.
  exists nd1. split; [done|].
  pose proof (getStrategy_fields _ _ Hgs) as Hnd1.
  assert (Hlt : (i < length nodes)%nat) by (by eapply lookup_lt_Some).
  assert (Hb : board nd1 = board n) by (by rewrite Hnd1).
  assert (Hp : player nd1 = player n) by (by rewrite Hnd1).
  rewrite Hb, Hp in Hmid.
  destruct (game_status num_rows num_cols (board n)) as [|w|] eqn:Hst.
  - unfold backward_inner in Hmid.
    apply bind_Ok in Hmid as ([nodesA regretA] & Hcol & Hmid).
    apply bind_Ok in Hmid as (nd2 & Hnd2 & Hmid).
    apply bind_Ok in Hmid as (rs & Hupd & Hmid).
    injection Hmid as <- <-.
    assert (Hn1 : <[i := nd1]> nodes !! i = Some nd1)
      by (by apply list_lookup_insert_eq).
    pose proof (collect_loop_only_u _ _ _ _ _ _ _ Hn1 Hcol) as [[x Hx] _].
    simpl in Hx. rewrite list_insert_insert_eq in Hx. subst nodesA.
    apply node_at_Ok in Hnd2. rewrite list_lookup_insert_eq in Hnd2 by done.
    injection Hnd2 as <-.
    rewrite list_lookup_insert_eq in Hnd3 by (by rewrite length_insert).
    injection Hnd3 as <-. rewrite !list_insert_insert_eq.
    assert (Hpa : pos_actions nd1 = pos_actions n) by (by rewrite Hnd1).
    assert (Hrs : regretSum nd1 = regretSum n) by (by rewrite Hnd1).
    assert (HT : T nd1 = T n) by (by rewrite Hnd1).
    assert (Hvis : visits nd1 = visits n) by (by rewrite Hnd1).
    simpl in Hupd. rewrite Hpa, Hrs in Hupd. simpl. rewrite HT, Hvis.
    by exists x, rs.
  - case_decide as Hw; injection Hmid as <- <-;
      rewrite list_lookup_insert_eq in Hnd3 by (by rewrite length_insert);
      injection Hnd3 as <-;
      rewrite !list_insert_insert_eq; cbv zeta;
      [rewrite decide_True by done | rewrite decide_False by done]; done.
  - case_decide as Hw; [done|]. injection Hmid as <- <-.
    rewrite list_lookup_insert_eq in Hnd3 by (by rewrite length_insert).
    injection Hnd3 as <-.
    rewrite !list_insert_insert_eq. cbv zeta.
    by rewrite decide_False by done.
Qed.

Lemma backward_node_update i nodes regret nodes' regret' n :
  backward_node game_status num_rows num_cols nodes_dict i (nodes, regret)
    = Ok (nodes', regret') →
  nodes !! i = Some n →
  game_status num_rows num_cols (board n) = InProgress →
  NoDup (pos_actions n) →
  ∃ n', nodes' !! i = Some n'
    ∧ T n' = (T n + visits n)%Z
    ∧ ∀ a, a ∈ pos_actions n →
        (T n + visits n ≠ 0)%Z
        ∧ ∃ old r, regretSum n !! a = Some old ∧ regret' !! a = Some r
            ∧ regretSum n' !! a
              = Some (regret_mean (T n) old (visits n) (cfp_of n) (r - u n')).
Proof.
  intros Hrun Hi Hst Hnd.
  destruct (backward_node_shape _ _ _ _ _ _ Hrun Hi) as (nd1 & Hgs & Hshape).
  rewrite Hst in Hshape. destruct Hshape as (x & rs & _ & Hupd & ->).
  pose proof (getStrategy_fields _ _ Hgs) as Hnd1.
  destruct (update_loop_spec _ _ _ _ _ Hupd Hnd) as (_ & _ & Hin).
  eexists. split; [apply list_lookup_insert_eq; by eapply lookup_lt_Some|].
  split; [done|]. intros a Ha.
  destruct (Hin a Ha) as (Hden & old & r & Ho & Hr & Hnew).
  simpl in Hden, Hnew. unfold cfp_of in Hnew. simpl in Hnew.
  assert (HT : T nd1 = T n) by (by rewrite Hnd1).
  assert (Hvis : visits nd1 = visits n) by (by rewrite Hnd1).
  assert (Hpl : player nd1 = player n) by (by rewrite Hnd1).
  assert (Hp1 : pSum1 nd1 = pSum1 n) by (by rewrite Hnd1).
  assert (Hp2 : pSum2 nd1 = pSum2 n) by (by rewrite Hnd1).
  rewrite HT, Hvis in Hden. rewrite HT, Hvis, Hpl, Hp1, Hp2 in Hnew.
  split; [done|]. by exists old, r.
Qed.

(** C1: when the backward step reaches a node that the rule engine reports
    in progress, every legal action [a] gets the weighted running mean
    [(T * regretSum[a] + visits * cfp * (regret[a] - u)) / (T + visits)],
    with [cfp] the reach accumulator of the other player, [regret[a]] and
    [u] the values after the utility loop of this step; then [T] grows by
    [visits].  The two worked updates of the specification are instances
    of that mean. *)
Theorem regretSum_weighted_mean i nodes regret nodes' regret' n :
  backward_node game_status num_rows num_cols nodes_dict i (nodes, regret)
    = Ok (nodes', regret') →
  nodes !! i = Some n →
  game_status num_rows num_cols (board n) = InProgress →
  NoDup (pos_actions n) →
  (∃ n', nodes' !! i = Some n'
     ∧ T n' = (T n + visits n)%Z
     ∧ ∀ a, a ∈ pos_actions n →
         (T n + visits n ≠ 0)%Z
         ∧ ∃ old r, regretSum n !! a = Some old ∧ regret' !! a = Some r
             ∧ regretSum n' !! a
               = Some ((Qc_of_Z (T n) * old
                        + Qc_of_Z (visits n)
                          * (if decide (player n = P1) then pSum2 n else pSum1 n)
                          * (r - u n'))
                       / Qc_of_Z (T n + visits n)))
  ∧ (∀ old, regret_mean 0 old 2 1 (Qc_of_Z 3) = Qc_of_Z 3)
  ∧ regret_mean 2 (Qc_of_Z 3) 2 1 1 = Qc_of_Z 2.
Proof.
  intros Hrun Hi Hst Hnd. split_and!.
  - exact (backward_node_update _ _ _ _ _ _ Hrun Hi Hst Hnd).
  - intros old. unfold regret_mean. rewrite Z2Qc_inj_0, Qcmult_0_l, Qcplus_0_l.
    apply Qc_is_canon. by vm_compute.
  - apply Qc_is_canon. by vm_compute.
Qed.

(** ** The forward step on one node *)

Lemma visit_child_shape i strat a k nodes nodes' :
  visit_child nodes_dict i strat a k nodes = Ok nodes' →
  nodes' = nodes
  ∨ ∃ j nd c sa, nodes_dict !! k = Some j ∧ nodes !! i = Some nd
      ∧ nodes !! j = Some c ∧ strat !! a = Some sa
      ∧ nodes' = <[j := add_reach sa nd c]> nodes.
Proof.
  unfold visit_child. destruct (nodes_dict !! k) as [j|]; [|intros [= <-]; by left].
  intros Hrun. right.
  apply bind_Ok in Hrun as (nd & Hnd & Hrun).
  apply bind_Ok in Hrun as (c & Hc & Hrun).
  apply bind_Ok in Hrun as (sa & Hsa & Hrun).
  injection Hrun as <-.
  apply node_at_Ok in Hnd, Hc. apply at_index_Ok in Hsa.
  by exists j, nd, c, sa.
Qed.

(** A property of the arena that survives [getStrategy] on the expanded
    node and every successor update survives the forward step. *)
Lemma forward_node_invariant (P : list Node → Prop) i nodes nodes' :
  forward_node nodes_dict i nodes = Ok nodes' →
  (∀ n nd1, nodes !! i = Some n → getStrategy n = Ok nd1 →
     P (<[i := nd1]> nodes)) →
  (∀ ns j nd c sa, P ns → ns !! i = Some nd → ns !! j = Some c →
     P (<[j := add_reach sa nd c]> ns)) →
  P nodes'.
Proof.
  intros Hrun Hgs Hstep. unfold forward_node in Hrun.
  apply bind_Ok in Hrun as (n & Hn & Hrun). apply node_at_Ok in Hn.
  apply bind_Ok in Hrun as (nd1 & Hnd1 & Hrun).
  eapply (for_each_invariant P); [exact Hrun|by eapply Hgs|].
  intros a t t' _ Ht Hbody.
  apply bind_Ok in Hbody as (ks & _ & Hbody).
  eapply (for_each_invariant P); [exact Hbody|done|].
  intros k s s' _ Hs Hvc.
  destruct (visit_child_shape _ _ _ _ _ _ Hvc)
    as [->|(j & nd & c & sa & _ & Hnd & Hc & _ & ->)]; [done|].
  by eapply Hstep.
Qed.

Lemma reach_changed_refl m : reach_changed m m.
Proof. unfold reach_changed. by rewrite with_reach_id. Qed.

Lemma reach_changed_add sa nd m c :
  reach_changed m c → reach_changed m (add_reach sa nd c).
Proof. unfold reach_changed, add_reach. intros ->. reflexivity. Qed.

Lemma Forall2_reach_changed_refl (ns : list Node) :
  Forall2 reach_changed ns ns.
Proof. apply Forall_Forall2_diag, Forall_true, reach_changed_refl. Qed.

Lemma forward_node_effect i nodes nodes' n :
  forward_node nodes_dict i nodes = Ok nodes' →
  nodes !! i = Some n →
  ∃ nd1, getStrategy n = Ok nd1
    ∧ Forall2 reach_changed (<[i := nd1]> nodes) nodes'.
Proof.
  intros Hrun Hi.
  assert (∃ nd1, getStrategy n = Ok nd1) as [nd1 Hnd1].
  { unfold forward_node in Hrun.
    apply bind_Ok in Hrun as (n0 & Hn0 & Hrun). apply node_at_Ok in Hn0.
    apply bind_Ok in Hrun as (nd1 & Hnd1 & _). exists nd1. congruence. }
  exists nd1. split; [done|].
  eapply (forward_node_invariant
            (λ ns, Forall2 reach_changed (<[i := nd1]> nodes) ns));
    [exact Hrun| |].
  - intros n0 nd0 Hn0 Hnd0. assert (nd0 = nd1) as -> by congruence.
    apply Forall2_reach_changed_refl.
  - intros ns j nd c sa HP _ Hc.
    apply Forall2_same_length_lookup. split.
    + pose proof (Forall2_length _ _ _ HP) as Hlen.
      by rewrite !length_insert in *.
    + intros idx x y Hx Hy. destruct (decide (idx = j)) as [->|Hne].
      * rewrite list_lookup_insert_eq in Hy by (by eapply lookup_lt_Some).
        injection Hy as <-. apply reach_changed_add.
        eapply Forall2_lookup_lr; [exact HP|exact Hx|exact Hc].
      * rewrite list_lookup_insert_ne in Hy by done.
        eapply Forall2_lookup_lr; [exact HP|exact Hx|exact Hy].
Qed.

(** ** Steps, passes and rounds *)

Lemma with_T_regretSum_id (x : Qc) (n : Node) :
  with_T (T n) (with_regretSum (regretSum n) (with_u x n)) = with_u x n.
Proof. by destruct n. Qed.

Lemma backward_node_effect i st st' :
  backward_node game_status num_rows num_cols nodes_dict i st = Ok st' →
  ∃ n nd1 x rs t,
    st.1 !! i = Some n ∧ getStrategy n = Ok nd1
    ∧ st'.1 = <[i := with_reach 0 0 0
                       (with_T t (with_regretSum rs (with_u x nd1)))]> st.1.
Proof.
  destruct st as [nodes regret], st' as [nodes' regret']. intros Hrun.
  assert (∃ n, nodes !! i = Some n) as [n Hn].
  { unfold backward_node in Hrun. apply bind_Ok in Hrun as (n & Hn & _).
    apply node_at_Ok in Hn. eauto. }
  destruct (backward_node_shape _ _ _ _ _ _ Hrun Hn) as (nd1 & Hgs & Hshape).
  exists n, nd1. simpl.
  destruct (game_status num_rows num_cols (board n)).
  - destruct Hshape as (x & rs & _ & _ & ->). by exists x, rs, (T n + visits n)%Z.
  - destruct Hshape as [_ ->]. eexists _, (regretSum nd1), (T nd1).
    by rewrite with_T_regretSum_id.
  - destruct Hshape as [_ ->]. eexists _, (regretSum nd1), (T nd1).
    by rewrite with_T_regretSum_id.
Qed.

Lemma backward_node_length i st st' :
  backward_node game_status num_rows num_cols nodes_dict i st = Ok st' →
  length st'.1 = length st.1.
Proof.
  intros Hrun. destruct (backward_node_effect _ _ _ Hrun)
    as (n & nd1 & x & rs & t & _ & _ & ->). apply length_insert.
Qed.

Lemma backward_node_other i j st st' :
  backward_node game_status num_rows num_cols nodes_dict i st = Ok st' →
  j ≠ i → st'.1 !! j = st.1 !! j.
Proof.
  intros Hrun Hne. destruct (backward_node_effect _ _ _ Hrun)
    as (n & nd1 & x & rs & t & _ & _ & ->). by apply list_lookup_insert_ne.
Qed.

Lemma forward_node_length i nodes nodes' :
  forward_node nodes_dict i nodes = Ok nodes' → length nodes' = length nodes.
Proof.
  intros Hrun.
  apply (forward_node_invariant (λ ns, length ns = length nodes) _ _ _ Hrun).
  - intros. apply length_insert.
  - intros ns j nd c sa Hlen _ _. by rewrite length_insert.
Qed.

Lemma run_step_length s st st' :
  run_step game_status num_rows num_cols nodes_dict s st = Ok st' →
  length st'.1 = length st.1.
Proof.
  destruct s as [i|i]; simpl; intros Hrun.
  - apply bind_Ok in Hrun as (ns & Hns & Hrun). injection Hrun as <-.
    by eapply forward_node_length.
  - by eapply backward_node_length.
Qed.

Lemma run_length steps st st' :
  run game_status num_rows num_cols nodes_dict steps st = Ok st' →
  length st'.1 = length st.1.
Proof.
  intros Hrun.
  apply (for_each_invariant (λ t, length t.1 = length st.1) _ _ _ _ Hrun);
    [done|].
  intros s t t' _ Ht Hs. by rewrite (run_step_length _ _ _ Hs).
Qed.

Lemma for_each_fmap {A B S} (f : A → B) (xs : list A)
    (body : B → S → result S) (s : S) :
  for_each (f <$> xs) body s = for_each xs (λ x, body (f x)) s.
Proof.
  revert s. induction xs as [|x xs IH]; intros s; simpl; [done|].
  destruct (body (f x) s); simpl; [apply IH|done].
Qed.

Lemma for_each_lift_fst {A} (xs : list A)
    (body : A → list Node → result (list Node)) (nodes : list Node)
    (regret : list Qc) :
  for_each xs (λ x (st : TrainState), ns ←! body x st.1; Ok (ns, st.2))
    (nodes, regret)
  = (ns ←! for_each xs body nodes; Ok (ns, regret)).
Proof.
  revert nodes. induction xs as [|x xs IH]; intros nodes; simpl; [done|].
  destruct (body x nodes); simpl; [apply IH|done].
Qed.

(** One round of [train] is the run of [round]. *)
Lemma iteration_as_run st :
  iteration game_status num_rows num_cols nodes_dict st
  = run game_status num_rows num_cols nodes_dict (round (length st.1)) st.
Proof.
  destruct st as [nodes regret]. unfold iteration, run, round. simpl.
  rewrite for_each_app, !for_each_fmap. simpl.
  rewrite (for_each_lift_fst _ (forward_node nodes_dict)).
  unfold forward_pass.
  destruct (for_each (seq 0 (length nodes)) (forward_node nodes_dict) nodes)
    as [ns|e] eqn:Hfw; simpl; [|done].
  unfold backward_pass. simpl.
  assert (length ns = length nodes) as ->; [|by rewrite for_each_fmap].
  apply (for_each_invariant (λ t, length t = length nodes) _ _ _ _ Hfw);
    [done|].
  intros i t t' _ Ht Hi. by rewrite (forward_node_length _ _ _ Hi).
Qed.

Lemma iterations_as_run k st :
  iterations game_status num_rows num_cols nodes_dict k st
  = run game_status num_rows num_cols nodes_dict (rounds k (length st.1)) st.
Proof.
  revert st. induction k as [|k IH]; intros st; simpl; [done|].
  unfold rounds. simpl. unfold run. rewrite for_each_app.
  rewrite iteration_as_run. unfold run.
  destruct (for_each (round (length st.1))
              (run_step game_status num_rows num_cols nodes_dict) st)
    as [st1|e] eqn:Hr; simpl; [|done].
  rewrite IH. by rewrite (run_length _ _ _ Hr).
Qed.

(** ** The reset at the end of the backward step *)

Lemma backward_node_clears i j st st' n' :
  backward_node game_status num_rows num_cols nodes_dict i st = Ok st' →
  (∀ n, st.1 !! j = Some n → reach_cleared n) ∨ j = i →
  st'.1 !! j = Some n' → reach_cleared n'.
Proof.
  intros Hrun Hj Hn'. destruct (backward_node_effect _ _ _ Hrun)
    as (n & nd1 & x & rs & t & Hn & _ & Heq).
  rewrite Heq in Hn'. destruct (decide (j = i)) as [->|Hne].
  - rewrite list_lookup_insert_eq in Hn' by (by eapply lookup_lt_Some).
    by injection Hn' as <-.
  - rewrite list_lookup_insert_ne in Hn' by done.
    destruct Hj as [Hj|Hj]; [by apply Hj|done].
Qed.

Lemma backward_loop_clears xs st st' j n' :
  for_each xs (backward_node game_status num_rows num_cols nodes_dict) st
    = Ok st' →
  j ∈ xs → st'.1 !! j = Some n' → reach_cleared n'.
Proof.
  revert st. induction xs as [|x xs IH]; intros st Hrun Hj Hn'.
  - by apply elem_of_nil in Hj.
  - simpl in Hrun. apply bind_Ok in Hrun as (st1 & Hx & Hrun).
    destruct (decide (j ∈ xs)) as [Hin|Hnin]; [by eapply IH|].
    apply elem_of_cons in Hj as [->|Hj]; [|done].
    clear IH. revert n' Hn'.
    apply (for_each_invariant
             (λ t, ∀ n', t.1 !! x = Some n' → reach_cleared n') _ _ _ _ Hrun).
    + intros n' Hn'. eapply backward_node_clears; [exact Hx|by right|done].
    + intros i t t' _ Ht Hi n' Hn'.
      eapply backward_node_clears; [exact Hi|by left|done].
Qed.

Lemma backward_pass_clears st st' j n' :
  backward_pass game_status num_rows num_cols nodes_dict st = Ok st' →
  st'.1 !! j = Some n' → reach_cleared n'.
Proof.
  intros Hbw Hn'. unfold backward_pass in Hbw.
  eapply (backward_loop_clears _ _ _ j); [exact Hbw| |done].
  apply elem_of_reverse, elem_of_seq. simpl.
  apply lookup_lt_Some in Hn'.
  assert (length st'.1 = length st.1); [|lia].
  apply (for_each_invariant (λ s, length s.1 = length st.1) _ _ _ _ Hbw);
    [done|].
  intros i s s' _ Hs Hi. by rewrite (backward_node_length _ _ _ Hi).
Qed.

(** ** What a step leaves alone *)

Lemma same_position_refl m : same_position m m.
Proof. by repeat split. Qed.

Lemma same_position_trans m1 m2 m3 :
  same_position m1 m2 → same_position m2 m3 → same_position m1 m3.
Proof.
  intros (?&?&?&?&?&?) (?&?&?&?&?&?). repeat split; congruence.
Qed.

Lemma forward_node_lookup i j nodes nodes' m' :
  forward_node nodes_dict i nodes = Ok nodes' →
  nodes' !! j = Some m' →
  ∃ m, nodes !! j = Some m ∧ same_position m m' ∧ same_learned m m'
    ∧ (j ≠ i → strategy m' = strategy m ∧ strategySum m' = strategySum m)
    ∧ (j = i → ∃ nd1, getStrategy m = Ok nd1 ∧ strategy m' = strategy nd1
                 ∧ strategySum m' = strategySum nd1).
Proof.
  intros Hrun Hm'.
  assert (∃ n, nodes !! i = Some n) as [n Hn].
  { unfold forward_node in Hrun. apply bind_Ok in Hrun as (n & Hn & _).
    apply node_at_Ok in Hn. eauto. }
  destruct (forward_node_effect _ _ _ _ Hrun Hn) as (nd1 & Hgs & Hall).
  pose proof (getStrategy_fields _ _ Hgs) as Hnd1.
  destruct (Forall2_lookup_r _ _ _ _ _ Hall Hm') as (m0 & Hm0 & Hrc).
  destruct (decide (j = i)) as [->|Hne].
  - rewrite list_lookup_insert_eq in Hm0 by (by eapply lookup_lt_Some).
    injection Hm0 as <-. exists n. split; [done|].
    unfold reach_changed in Hrc. rewrite Hrc, Hnd1.
    split_and!; [by repeat split..|done|].
    intros _. exists nd1. by rewrite <- Hnd1.
  - rewrite list_lookup_insert_ne in Hm0 by done. exists m0.
    unfold reach_changed in Hrc. rewrite Hrc.
    by split_and!; [|repeat split..| |].
Qed.

Lemma backward_node_lookup i j st st' m' :
  backward_node game_status num_rows num_cols nodes_dict i st = Ok st' →
  st'.1 !! j = Some m' →
  ∃ m, st.1 !! j = Some m ∧ same_position m m' ∧ (j ≠ i → m' = m).
Proof.
  intros Hrun Hm'. destruct (backward_node_effect _ _ _ Hrun)
    as (n & nd1 & x & rs & t & Hn & Hgs & Heq).
  pose proof (getStrategy_fields _ _ Hgs) as Hnd1.
  rewrite Heq in Hm'. destruct (decide (j = i)) as [->|Hne].
  - rewrite list_lookup_insert_eq in Hm' by (by eapply lookup_lt_Some).
    injection Hm' as <-. exists n. split; [done|]. rewrite Hnd1.
    by split; [repeat split|].
  - rewrite list_lookup_insert_ne in Hm' by done. exists m'.
    split_and!; [done|apply same_position_refl|done].
Qed.

Lemma run_step_position s j st st' m' :
  run_step game_status num_rows num_cols nodes_dict s st = Ok st' →
  st'.1 !! j = Some m' →
  ∃ m, st.1 !! j = Some m ∧ same_position m m'.
Proof.
  destruct s as [i|i]; simpl; intros Hrun Hm'.
  - apply bind_Ok in Hrun as (ns & Hns & Hrun). injection Hrun as <-.
    destruct (forward_node_lookup _ _ _ _ _ Hns Hm') as (m & ? & ? & _).
    eauto.
  - destruct (backward_node_lookup _ _ _ _ _ Hrun Hm') as (m & ? & ? & _).
    eauto.
Qed.

(** ** Utilities of decided positions and of leaves *)




(** ** The denominator of the regret update *)

Lemma fresh_counts_ok n :
  fresh_counts n → counts_ok game_status num_rows num_cols n.
Proof. intros [Hv Ht]. unfold counts_ok. rewrite Hv, Ht. lia. Qed.

Lemma forward_node_counts i nodes nodes' :
  forward_node nodes_dict i nodes = Ok nodes' →
  Forall (counts_ok game_status num_rows num_cols) nodes →
  Forall (counts_ok game_status num_rows num_cols) nodes'.
Proof.
  intros Hrun Hall.
  apply (forward_node_invariant
           (Forall (counts_ok game_status num_rows num_cols)) _ _ _ Hrun).
  - intros n nd1 Hn Hgs. apply Forall_insert; [done|].
    rewrite Forall_lookup in Hall. specialize (Hall _ _ Hn).
    rewrite (getStrategy_fields _ _ Hgs). exact Hall.
  - intros ns j nd c sa Hns Hnd Hc. apply Forall_insert; [done|].
    rewrite Forall_lookup in Hns.
    destruct (Hns _ _ Hnd) as (Hv1 & _ & _).
    destruct (Hns _ _ Hc) as (Hv2 & Ht2 & Hd2).
    unfold counts_ok, add_reach. simpl. split_and!; [lia|done|].
    intros Hst. specialize (Hd2 Hst). lia.
Qed.

Lemma backward_node_counts i st st' :
  backward_node game_status num_rows num_cols nodes_dict i st = Ok st' →
  Forall (counts_ok game_status num_rows num_cols) st.1 →
  Forall (counts_ok game_status num_rows num_cols) st'.1.
Proof.
  destruct st as [nodes regret], st' as [nodes' regret']. simpl.
  intros Hrun Hall.
  assert (∃ n, nodes !! i = Some n) as [n Hn].
  { unfold backward_node in Hrun. apply bind_Ok in Hrun as (n & Hn & _).
    apply node_at_Ok in Hn. eauto. }
  destruct (backward_node_shape _ _ _ _ _ _ Hrun Hn) as (nd1 & Hgs & Hshape).
  pose proof (getStrategy_fields _ _ Hgs) as Hnd1.
  assert (Hb : board nd1 = board n) by (by rewrite Hnd1).
  assert (HT : T nd1 = T n) by (by rewrite Hnd1).
  pose proof Hall as Hall'. rewrite Forall_lookup in Hall'.
  destruct (Hall' _ _ Hn) as (Hv & Ht & Hd).
  destruct (game_status num_rows num_cols (board n)) as [|w|] eqn:Hst.
  - destruct Hshape as (x & rs & _ & _ & ->).
    apply Forall_insert; [done|]. unfold counts_ok. simpl.
    specialize (Hd eq_refl). lia.
  - destruct Hshape as [_ ->]. apply Forall_insert; [done|].
    unfold counts_ok, with_reach, with_u. cbn [visits T board].
    rewrite Hb, Hst, HT. split_and!; [lia|done|done].
  - destruct Hshape as [_ ->]. apply Forall_insert; [done|].
    unfold counts_ok, with_reach, with_u. cbn [visits T board].
    rewrite Hb, Hst, HT. split_and!; [lia|done|done].
Qed.

Lemma run_counts steps st st' :
  run game_status num_rows num_cols nodes_dict steps st = Ok st' →
  Forall (counts_ok game_status num_rows num_cols) st.1 →
  Forall (counts_ok game_status num_rows num_cols) st'.1.
Proof.
  intros Hrun Hall.
  apply (for_each_invariant
           (λ t, Forall (counts_ok game_status num_rows num_cols) t.1)
           _ _ _ _ Hrun); [done|].
  intros [i|i] t t' _ Ht Hs; simpl in Hs.
  - apply bind_Ok in Hs as (ns & Hns & Hs). injection Hs as <-.
    by eapply forward_node_counts.
  - by eapply backward_node_counts.
Qed.

(** No step other than the division of the regret update can end a run as
    [NotFinite], and that one cannot while the counters are as above. *)
Lemma bind_finite {A B} (m : result A) (f : A → result B) :
  finite m → (∀ a, m = Ok a → finite (f a)) → finite (bind m f).
Proof.
  destruct m as [a|e]; simpl; [intros _ H; by apply H|].
  unfold finite. intros H _ [= ->]. by apply H.
Qed.

Lemma for_each_finite {A S} (P : S → Prop) (xs : list A)
    (body : A → S → result S) (s : S) :
  P s →
  (∀ x t, P t → finite (body x t)) →
  (∀ x t t', P t → body x t = Ok t' → P t') →
  finite (for_each xs body s).
Proof.
  intros Hs Hfin Hstep. revert s Hs.
  induction xs as [|x xs IH]; intros s Hs; simpl; [done|].
  apply bind_finite; [by apply Hfin|]. intros t Ht. apply IH. by eapply Hstep.
Qed.

Lemma node_at_finite nodes i : finite (node_at nodes i).
Proof. unfold finite, node_at. by destruct (nodes !! i). Qed.

Lemma at_index_finite {A} (xs : list A) i : finite (at_index xs i).
Proof. unfold finite, at_index. by destruct (xs !! i). Qed.

Lemma set_index_finite {A} (xs : list A) i x : finite (set_index xs i x).
Proof. unfold finite, set_index. by case_decide. Qed.

Lemma getStrategy_finite n : finite (getStrategy n).
Proof. unfold finite, getStrategy. by case_decide. Qed.

Lemma add_stone_finite b a p : finite (add_stone b a p).
Proof.
  unfold add_stone. apply bind_finite; [apply at_index_finite|].
  intros c _. unfold finite. by case_decide.
Qed.

Lemma forward_children_finite n a : finite (forward_children n a).
Proof.
  unfold forward_children. apply bind_finite; [apply add_stone_finite|].
  intros [b1|] _; [|done]. case_decide; [|done].
  apply bind_finite; [apply add_stone_finite|]. by intros [b2|] _.
Qed.

Lemma backward_children_finite n a : finite (backward_children n a).
Proof.
  unfold backward_children. apply bind_finite; [apply add_stone_finite|].
  intros [b1|] _; [|done]. case_decide; [|done].
  apply bind_finite; [apply add_stone_finite|]. by intros [b2|] _.
Qed.

Lemma visit_child_finite i strat a k nodes :
  finite (visit_child nodes_dict i strat a k nodes).
Proof.
  unfold visit_child. destruct (nodes_dict !! k); [|done].
  apply bind_finite; [apply node_at_finite|]. intros nd _.
  apply bind_finite; [apply node_at_finite|]. intros c _.
  apply bind_finite; [apply at_index_finite|]. by intros sa _.
Qed.

Lemma forward_node_finite i nodes : finite (forward_node nodes_dict i nodes).
Proof.
  unfold forward_node. apply bind_finite; [apply node_at_finite|].
  intros nd _. apply bind_finite; [apply getStrategy_finite|]. intros nd' _.
  apply (for_each_finite (λ _, True)); [done| |done].
  intros a ns _. apply bind_finite; [apply forward_children_finite|].
  intros ks _. apply (for_each_finite (λ _, True)); [done| |done].
  intros k t _. apply visit_child_finite.
Qed.

Lemma collect_child_finite i strat a k st :
  finite (collect_child nodes_dict i strat a k st).
Proof.
  unfold collect_child. destruct st as [nodes regret].
  destruct (nodes_dict !! k); [|done].
  apply bind_finite; [apply node_at_finite|]. intros nd _.
  apply bind_finite; [apply node_at_finite|]. intros c _.
  apply bind_finite; [apply at_index_finite|]. intros r _.
  apply bind_finite; [apply set_index_finite|]. intros r' _.
  apply bind_finite; [apply at_index_finite|]. by intros sa _.
Qed.

Lemma collect_action_finite i strat a st :
  finite (collect_action nodes_dict i strat a st).
Proof.
  unfold collect_action. apply bind_finite; [apply node_at_finite|].
  intros nd _. apply bind_finite; [apply backward_children_finite|].
  intros [ks|] _; [|done].
  apply (for_each_finite (λ _, True)); [done| |done].
  intros k t _. apply collect_child_finite.
Qed.

Lemma update_regret_finite n regret a rs :
  (T n + visits n ≠ 0)%Z → finite (update_regret n regret a rs).
Proof.
  intros Hden. unfold update_regret.
  apply bind_finite; [apply at_index_finite|]. intros old _.
  apply bind_finite; [apply at_index_finite|]. intros r _.
  rewrite decide_False by done. apply set_index_finite.
Qed.

Lemma backward_node_finite i st :
  Forall (counts_ok game_status num_rows num_cols) st.1 →
  finite (backward_node game_status num_rows num_cols nodes_dict i st).
Proof.
  destruct st as [nodes regret]. simpl. intros Hall. unfold backward_node.
  apply bind_finite; [apply node_at_finite|]. intros nd Hnd.
  apply node_at_Ok in Hnd.
  apply bind_finite; [apply getStrategy_finite|]. intros nd1 Hgs.
  pose proof (getStrategy_fields _ _ Hgs) as Hnd1.
  assert (Hb : board nd1 = board nd) by (by rewrite Hnd1).
  assert (HT : T nd1 = T nd) by (by rewrite Hnd1).
  assert (Hv : visits nd1 = visits nd) by (by rewrite Hnd1).
  rewrite Forall_lookup in Hall. destruct (Hall _ _ Hnd) as (_ & _ & Hden).
  apply bind_finite.
  - destruct (game_status num_rows num_cols (board nd1)) eqn:Hst;
      [|unfold finite; try destruct (decide _); done..].
    unfold backward_inner. apply bind_finite.
    + apply (for_each_finite (λ _, True)); [done| |done].
      intros a t _. apply collect_action_finite.
    + intros [nodesA regretA] Hcol.
      assert (Hn1 : <[i := nd1]> nodes !! i = Some nd1).
      { apply list_lookup_insert_eq. by eapply lookup_lt_Some. }
      destruct (collect_loop_only_u _ _ _ _ _ _ _ Hn1 Hcol) as [[x Hx] _].
      simpl in Hx. subst nodesA.
      apply bind_finite; [apply node_at_finite|]. intros nd2 Hnd2.
      apply node_at_Ok in Hnd2.
      rewrite list_lookup_insert_eq in Hnd2
        by (rewrite length_insert; by eapply lookup_lt_Some).
      injection Hnd2 as <-.
      apply bind_finite; [|by intros rs _].
      apply (for_each_finite (λ _, True)); [done| |done].
      intros a rs _. apply update_regret_finite. simpl.
      rewrite HT, Hv. rewrite Hb in Hst. specialize (Hden Hst). lia.
  - intros [nodes2 regret2] _.
    apply bind_finite; [apply node_at_finite|]. by intros nd3 _.
Qed.

Lemma run_finite steps st :
  Forall (counts_ok game_status num_rows num_cols) st.1 →
  finite (run game_status num_rows num_cols nodes_dict steps st).
Proof.
  intros Hall. unfold run.
  apply (for_each_finite
           (λ t, Forall (counts_ok game_status num_rows num_cols) t.1));
    [done| |].
  - intros [i|i] t Ht; simpl.
    + apply bind_finite; [apply forward_node_finite|]. by intros ns _.
    + by apply backward_node_finite.
  - intros [i|i] t t' Ht Hs; simpl in Hs.
    + apply bind_Ok in Hs as (ns & Hns & Hs). injection Hs as <-.
      by eapply forward_node_counts.
    + by eapply backward_node_counts.
Qed.

Lemma train_finite_fresh k nodes :
  Forall fresh_counts nodes →
  finite (train game_status num_rows num_cols nodes_dict k nodes).
Proof.
  intros Hfresh. unfold train. apply bind_finite; [|by intros [ns r] _].
  rewrite iterations_as_run. apply run_finite. simpl.
  eapply Forall_impl; [exact Hfresh|]. apply fresh_counts_ok.
Qed.

(** Whatever part of the rounds has run on an arena of fresh nodes, the
    node that the next backward step updates has [T + visits > 0]. *)
Lemma denominator_positive_fresh k nodes regret pre i post st n :
  Forall fresh_counts nodes →
  rounds k (length nodes) = pre ++ Bwd i :: post →
  run game_status num_rows num_cols nodes_dict pre (nodes, regret) = Ok st →
  st.1 !! i = Some n →
  game_status num_rows num_cols (board n) = InProgress →
  (0 < T n + visits n)%Z ∧ ¬ (visits n = 0 ∧ T n = 0)%Z.
Proof.
  intros Hfresh _ Hrun Hn Hst.
  assert (Hall : Forall (counts_ok game_status num_rows num_cols) st.1).
  { eapply run_counts; [exact Hrun|]. simpl.
    eapply Forall_impl; [exact Hfresh|]. apply fresh_counts_ok. }
  rewrite Forall_lookup in Hall. destruct (Hall _ _ Hn) as (_ & _ & Hd).
  specialize (Hd Hst). lia.
Qed.

(** ** The scratch list of the backward pass *)

Lemma add_stone_Some b a p b' :
  add_stone b a p = Ok (Some b') →
  b !! a = Some Empty ∧ b' = <[a := Stone p]> b.
Proof.
  unfold add_stone. intros Hrun. apply bind_Ok in Hrun as (c & Hc & Hrun).
  apply at_index_Ok in Hc. case_decide as Hne; [done|].
  injection Hrun as <-. split; [|done].
  destruct c; [done|]. by destruct Hne.
Qed.

Lemma add_stone_changes b a p b' : add_stone b a p = Ok (Some b') → b' ≠ b.
Proof.
  intros Hadd Heq. apply add_stone_Some in Hadd as [Hb ->].
  apply (f_equal (λ l, l !! a)) in Heq. simpl in Heq.
  rewrite list_lookup_insert_eq in Heq by (by eapply lookup_lt_Some).
  congruence.
Qed.

Lemma backward_children_new_key n a ks k :
  backward_children n a = Ok (Some ks) → k ∈ ks → k ≠ infoSet n.
Proof.
  unfold backward_children. intros Hrun Hk.
  apply bind_Ok in Hrun as (nb & Hnb & Hrun).
  destruct nb as [b1|]; [|done].
  pose proof (add_stone_changes _ _ _ _ Hnb) as Hb1.
  case_decide as Hh.
  - apply bind_Ok in Hrun as (nb2 & Hnb2 & Hrun).
    destruct nb2 as [b2|]; [|done]. injection Hrun as <-.
    pose proof (add_stone_changes _ _ _ _ Hnb2) as Hb2.
    apply elem_of_cons in Hk as [->|Hk];
      [|apply list_elem_of_singleton in Hk as ->];
      unfold infoSet, get_infoset; congruence.
  - injection Hrun as <-. apply list_elem_of_singleton in Hk as ->.
    unfold infoSet, get_infoset; congruence.
Qed.

Lemma insert_as_alter {A} (f : A → A) (l : list A) (i : nat) (x : A) :
  l !! i = Some x → <[i := f x]> l = alter f i l.
Proof.
  intros Hx. apply list_eq. intros j. destruct (decide (i = j)) as [->|Hne].
  - rewrite list_lookup_insert_eq by (by eapply lookup_lt_Some).
    by rewrite list_lookup_alter_eq, Hx.
  - by rewrite list_lookup_insert_ne, list_lookup_alter_ne.
Qed.

Section CollectLoop.

Context (nodes : list Node) (i : nat) (n nd1 : Node).
Context (Hn : nodes !! i = Some n).
Context (Hpos : same_position n nd1).
Context (Hdict : dict_consistent nodes_dict nodes).

Lemma collect_child_regret strat a k x r st' :
  collect_child nodes_dict i strat a k (<[i := with_u x nd1]> nodes, r)
    = Ok st' →
  k ≠ infoSet n →
  (∃ y, st'.1 = <[i := with_u y nd1]> nodes)
  ∧ st'.2 = alter (λ v, v + childUtil_of nodes_dict nodes n k) a r.
Proof.
  intros Hrun Hk.
  assert (Hlt : (i < length nodes)%nat) by (by eapply lookup_lt_Some).
  unfold collect_child in Hrun. unfold childUtil_of.
  destruct (nodes_dict !! k) as [j|] eqn:Hj.
  - destruct (Hdict _ _ Hj) as (c & Hc & Hck).
    assert (Hji : j ≠ i).
    { intros ->. apply Hk. rewrite <- Hck. congruence. }
    apply bind_Ok in Hrun as (nd & Hnd & Hrun). apply node_at_Ok in Hnd.
    rewrite list_lookup_insert_eq in Hnd by done. injection Hnd as <-.
    apply bind_Ok in Hrun as (c' & Hc' & Hrun). apply node_at_Ok in Hc'.
    rewrite list_lookup_insert_ne in Hc' by done.
    assert (c' = c) as -> by congruence.
    apply bind_Ok in Hrun as (v & Hv & Hrun). apply at_index_Ok in Hv.
    apply bind_Ok in Hrun as (r' & Hr' & Hrun).
    apply set_index_Ok in Hr' as [_ ->].
    apply bind_Ok in Hrun as (sa & _ & Hrun). injection Hrun as <-.
    simpl. rewrite list_insert_insert_eq, Hc. split; [eauto|].
    destruct Hpos as (Hp & _). rewrite Hp.
    by apply (insert_as_alter
                (λ v, v + (if decide (player c = player n)
                           then u c else - u c))).
  - injection Hrun as <-. simpl. split; [eauto|].
    symmetry. apply list_alter_id. intros v. by rewrite Qcplus_0_r.
Qed.

Lemma collect_children_regret strat a ks x r st' :
  for_each ks (collect_child nodes_dict i strat a)
    (<[i := with_u x nd1]> nodes, r) = Ok st' →
  (∀ k, k ∈ ks → k ≠ infoSet n) →
  (∃ y, st'.1 = <[i := with_u y nd1]> nodes)
  ∧ st'.2 = alter (λ v, v + total (childUtil_of nodes_dict nodes n <$> ks))
              a r.
Proof.
  revert x r. induction ks as [|k ks IH]; intros x r Hrun Hks.
  - injection Hrun as <-. simpl. split; [eauto|].
    symmetry. apply list_alter_id. intros v.
    by rewrite total_nil, Qcplus_0_r.
  - simpl in Hrun. apply bind_Ok in Hrun as ([ns1 r1] & Hk & Hrun).
    destruct (collect_child_regret _ _ _ _ _ _ Hk) as [[y Hy] Hr1];
      [apply Hks, list_elem_of_here|].
    simpl in Hy, Hr1. subst ns1 r1.
    destruct (IH _ _ Hrun) as [Hshape ->];
      [intros k' Hk'; by apply Hks, list_elem_of_further|].
    split; [done|]. rewrite list_alter_alter_eq.
    apply list_alter_ext; [|done]. intros v _. cbn beta.
    unfold compose. rewrite fmap_cons, total_cons. ring.
Qed.

Lemma collect_action_regret strat a x r st' :
  collect_action nodes_dict i strat a (<[i := with_u x nd1]> nodes, r)
    = Ok st' →
  (∃ y, st'.1 = <[i := with_u y nd1]> nodes)
  ∧ st'.2 = alter (λ v, v + action_contribution nodes_dict nodes n a) a r.
Proof.
  intros Hrun.
  assert (Hlt : (i < length nodes)%nat) by (by eapply lookup_lt_Some).
  unfold collect_action in Hrun. simpl in Hrun.
  apply bind_Ok in Hrun as (nd & Hnd & Hrun). apply node_at_Ok in Hnd.
  rewrite list_lookup_insert_eq in Hnd by done. injection Hnd as <-.
  apply bind_Ok in Hrun as (ks & Hks & Hrun).
  assert (Hks' : backward_children n a = Ok ks).
  { rewrite <- Hks. unfold backward_children. simpl.
    destruct Hpos as (Hp & Hb & Hh & _). by rewrite Hp, Hb, Hh. }
  unfold action_contribution. rewrite Hks'.
  destruct ks as [ks|].
  - apply (collect_children_regret _ _ _ _ _ _ Hrun).
    intros k. by apply (backward_children_new_key n a).
  - injection Hrun as <-. simpl. split; [eauto|].
    symmetry. apply list_alter_id. intros v. by rewrite Qcplus_0_r.
Qed.

Lemma collect_actions_regret strat acts x r st' :
  for_each acts (collect_action nodes_dict i strat)
    (<[i := with_u x nd1]> nodes, r) = Ok st' →
  NoDup acts →
  ∀ a, st'.2 !! a
       = if decide (a ∈ acts)
         then (λ v, v + action_contribution nodes_dict nodes n a) <$> r !! a
         else r !! a.
Proof.
  revert x r. induction acts as [|b acts IH]; intros x r Hrun Hnd a.
  - injection Hrun as <-. rewrite decide_False; [done|].
    apply not_elem_of_nil.
  - simpl in Hrun. apply bind_Ok in Hrun as ([ns1 r1] & Hb & Hrun).
    destruct (collect_action_regret _ _ _ _ _ Hb) as [[y Hy] Hr1].
    simpl in Hy, Hr1. subst ns1 r1.
    apply NoDup_cons in Hnd as [Hnb Hnd].
    rewrite (IH _ _ Hrun Hnd a).
    destruct (decide (a = b)) as [->|Hne].
    + rewrite decide_False by done.
      rewrite decide_True by apply list_elem_of_here.
      apply list_lookup_alter_eq.
    + rewrite list_lookup_alter_ne by done.
      destruct (decide (a ∈ acts)) as [Hin|Hnin].
      * by rewrite decide_True by (by apply list_elem_of_further).
      * rewrite decide_False; [done|].
        intros Hin. apply elem_of_cons in Hin as [?|?]; done.
Qed.

End CollectLoop.

Lemma backward_node_regret i nodes regret nodes' regret' :
  backward_node game_status num_rows num_cols nodes_dict i (nodes, regret)
    = Ok (nodes', regret') →
  dict_consistent nodes_dict nodes →
  ∀ a, regret' !! a
       = (λ v, v + step_contribution game_status num_rows num_cols
                     nodes_dict nodes i a) <$> regret !! a.
Proof.
  intros Hrun Hdict a.
  assert (∃ n, nodes !! i = Some n) as [n Hn].
  { unfold backward_node in Hrun. apply bind_Ok in Hrun as (n & Hn & _).
    apply node_at_Ok in Hn. eauto. }
  destruct (backward_node_shape _ _ _ _ _ _ Hrun Hn) as (nd1 & Hgs & Hshape).
  pose proof (getStrategy_fields _ _ Hgs) as Hnd1.
  assert (Hzero : ∀ o : option Qc, o = (λ v, v + 0) <$> o).
  { intros [v|]; simpl; [by rewrite Qcplus_0_r|done]. }
  unfold step_contribution. rewrite Hn.
  destruct (game_status num_rows num_cols (board n)) as [|w|] eqn:Hst.
  - destruct Hshape as (x & rs & Hcol & _ & _).
    assert (Hpos : same_position n nd1) by (rewrite Hnd1; by repeat split).
    rewrite <- (with_u_id nd1) in Hcol at 2.
    rewrite <- (list_insert_insert_eq nodes i (with_u (u nd1) nd1) n) in Hcol.
    rewrite (list_insert_id nodes i n) in Hcol by done.
    pose proof (collect_actions_regret _ _ _ _ Hn Hpos Hdict _ _ _ _ _ Hcol
                  (NoDup_seq _ _) a) as Hreg.
    cbn [snd] in Hreg. rewrite Hreg. clear Hreg.
    destruct (decide (a ∈ seq 0 (fsicfr_num_actions num_rows num_cols)))
      as [Hin|Hnin].
    + rewrite decide_True; [done|]. apply elem_of_seq in Hin. split; [done|lia].
    + rewrite decide_False; [apply Hzero|].
      intros [_ Hlt]. apply Hnin, elem_of_seq. lia.
  - destruct Hshape as [-> _]. rewrite decide_False by (by intros [? _]).
    apply Hzero.
  - destruct Hshape as [-> _]. rewrite decide_False by (by intros [? _]).
    apply Hzero.
Qed.

Lemma run_step_consistent s st st' :
  run_step game_status num_rows num_cols nodes_dict s st = Ok st' →
  dict_consistent nodes_dict st.1 → dict_consistent nodes_dict st'.1.
Proof.
  intros Hs Hdict k j Hj. destruct (Hdict k j Hj) as (c & Hc & Hck).
  assert (is_Some (st'.1 !! j)) as [c' Hc'].
  { apply lookup_lt_is_Some. rewrite (run_step_length _ _ _ Hs).
    by eapply lookup_lt_Some. }
  exists c'. split; [done|].
  destruct (run_step_position _ _ _ _ _ Hs Hc') as (m & Hm & Hp & Hb & Hh & _).
  assert (m = c) as -> by congruence.
  rewrite <- Hck. unfold infoSet. by rewrite Hp, Hb, Hh.
Qed.

Lemma run_app steps1 steps2 st :
  run game_status num_rows num_cols nodes_dict (steps1 ++ steps2) st
  = (st1 ←! run game_status num_rows num_cols nodes_dict steps1 st;
     run game_status num_rows num_cols nodes_dict steps2 st1).
Proof. apply for_each_app. Qed.

Lemma backward_visits_app steps1 steps2 st st1 :
  run game_status num_rows num_cols nodes_dict steps1 st = Ok st1 →
  backward_visits game_status num_rows num_cols nodes_dict
    (steps1 ++ steps2) st
  = backward_visits game_status num_rows num_cols nodes_dict steps1 st
    ++ backward_visits game_status num_rows num_cols nodes_dict steps2 st1.
Proof.
  revert st. induction steps1 as [|s steps1 IH]; intros st Hrun.
  - by injection Hrun as <-.
  - unfold run in Hrun. simpl in Hrun.
    apply bind_Ok in Hrun as (st2 & Hs & Hrun). simpl. rewrite Hs.
    destruct s; by rewrite (IH _ Hrun).
Qed.

Lemma accumulated_cons ns i rest a :
  accumulated game_status num_rows num_cols nodes_dict ((ns, i) :: rest) a
  = step_contribution game_status num_rows num_cols nodes_dict ns i a
    + accumulated game_status num_rows num_cols nodes_dict rest a.
Proof. unfold accumulated. by rewrite fmap_cons, total_cons. Qed.

(** Through any run, [regret[a]] is its initial value plus the
    contributions of all the backward steps of the run. *)
Lemma run_regret steps st st' :
  run game_status num_rows num_cols nodes_dict steps st = Ok st' →
  dict_consistent nodes_dict st.1 →
  ∀ a, st'.2 !! a
       = (λ v, v + accumulated game_status num_rows num_cols nodes_dict
                     (backward_visits game_status num_rows num_cols
                        nodes_dict steps st) a) <$> st.2 !! a.
Proof.
  revert st. induction steps as [|s steps IH]; intros st Hrun Hdict a.
  - injection Hrun as <-. simpl. unfold accumulated. rewrite fmap_nil, total_nil.
    destruct (st.2 !! a); simpl; [by rewrite Qcplus_0_r|done].
  - unfold run in Hrun. simpl in Hrun.
    apply bind_Ok in Hrun as (st1 & Hs & Hrun).
    pose proof (run_step_consistent _ _ _ Hs Hdict) as Hdict1.
    rewrite (IH _ Hrun Hdict1 a). simpl. rewrite Hs.
    destruct s as [i|i]; simpl in Hs.
    + apply bind_Ok in Hs as (ns & _ & Hs). by injection Hs as <-.
    + destruct st as [nodes regret], st1 as [nodes1 regret1].
      cbn [fst snd] in *.
      rewrite (backward_node_regret _ _ _ _ _ Hs Hdict a).
      rewrite accumulated_cons.
      destruct (regret !! a); simpl; [|done]. f_equal. ring.
Qed.

(** C9: [train] makes the scratch list once, as zeros, and runs all rounds
    on it.  When a backward step of any round has gone through its
    utility loop, [regret[a]] is the sum of the contributions of every
    backward step so far, those of earlier nodes and of earlier rounds
    included, and that sum is the value that enters the running mean of
    the node being updated. *)
Theorem scratch_accumulates k nodes pre i post st st' :
  dict_consistent nodes_dict nodes →
  rounds k (length nodes) = pre ++ Bwd i :: post →
  run game_status num_rows num_cols nodes_dict pre
    (nodes, replicate (fsicfr_num_actions num_rows num_cols) 0) = Ok st →
  backward_node game_status num_rows num_cols nodes_dict i st = Ok st' →
  let seen :=
    backward_visits game_status num_rows num_cols nodes_dict pre
      (nodes, replicate (fsicfr_num_actions num_rows num_cols) 0)
    ++ [(st.1, i)] in
  (∀ a, (a < fsicfr_num_actions num_rows num_cols)%nat →
     st'.2 !! a
     = Some (accumulated game_status num_rows num_cols nodes_dict seen a))
  ∧ (∀ n b, st.1 !! i = Some n →
       game_status num_rows num_cols (board n) = InProgress →
       NoDup (pos_actions n) → b ∈ pos_actions n →
       ∃ n' old, st'.1 !! i = Some n' ∧ regretSum n !! b = Some old
         ∧ regretSum n' !! b
           = Some (regret_mean (T n) old (visits n) (cfp_of n)
                     (accumulated game_status num_rows num_cols nodes_dict
                        seen b - u n')))
  ∧ train game_status num_rows num_cols nodes_dict k nodes
    = (st ←! run game_status num_rows num_cols nodes_dict
               (rounds k (length nodes))
               (nodes, replicate (fsicfr_num_actions num_rows num_cols) 0);
       Ok (extract st.1)).
Proof.
  intros Hdict _ Hpre Hstep seen.
  assert (Hrun : run game_status num_rows num_cols nodes_dict (pre ++ [Bwd i])
                   (nodes, replicate (fsicfr_num_actions num_rows num_cols) 0)
                 = Ok st').
  { rewrite run_app, Hpre. simpl. unfold run. simpl. by rewrite Hstep. }
  assert (Hseen : backward_visits game_status num_rows num_cols nodes_dict
                    (pre ++ [Bwd i])
                    (nodes, replicate (fsicfr_num_actions num_rows num_cols) 0)
                  = seen).
  { rewrite (backward_visits_app _ _ _ _ Hpre). simpl. by rewrite Hstep. }
  assert (Hall : ∀ a, st'.2 !! a
             = (λ v, v + accumulated game_status num_rows num_cols
                           nodes_dict seen a)
               <$> replicate (fsicfr_num_actions num_rows num_cols) 0 !! a).
  { intros a. rewrite <- Hseen. by apply (run_regret _ _ _ Hrun). }
  split_and!.
  - intros a Ha. rewrite Hall, lookup_replicate_2 by done. simpl.
    by rewrite Qcplus_0_l.
  - intros n b Hn Hst Hnd Hb. destruct st as [ns r], st' as [ns' r'].
    destruct (backward_node_update _ _ _ _ _ _ Hstep Hn Hst Hnd)
      as (n' & Hn' & _ & Hupd).
    destruct (Hupd b Hb) as (_ & old & rb & Hold & Hrb & Hnew).
    exists n', old. split_and!; [done..|].
    rewrite Hnew. do 2 f_equal.
    specialize (Hall b). simpl in Hall. rewrite Hrb in Hall.
    destruct (replicate (fsicfr_num_actions num_rows num_cols) 0 !! b)
      as [z|] eqn:Hz; [|done].
    apply lookup_replicate_1 in Hz as [-> _]. simpl in Hall.
    injection Hall as ->. by rewrite Qcplus_0_l.
  - unfold train. rewrite iterations_as_run. simpl.
    destruct (run game_status num_rows num_cols nodes_dict
                (rounds k (length nodes))
                (nodes, replicate (fsicfr_num_actions num_rows num_cols) 0))
      as [[ns r]|e]; done.
Qed.

(** ** The two calls of [getStrategy] in a round *)

Lemma getStrategy_wf (m m1 : Node) :
  node_wf m → getStrategy m = Ok m1 →
  strategy m1 = regret_matching (regretSum m)
  ∧ strategySum m1
    = add_weighted (reachWeight m) (strategySum m)
        (regret_matching (regretSum m))
  ∧ node_wf m1.
Proof.
  intros (Hs & Hr & Hss) Hgs.
  rewrite getStrategy_ok in Hgs by lia. injection Hgs as <-.
  unfold regret_matching, add_weighted. cbn [strategy strategySum with_strategy].
  rewrite !take_ge, drop_ge, app_nil_r by lia.
  replace (length (strategy m)) with (length (regretSum m)) by lia.
  split_and!; [done..|].
  unfold node_wf. cbn [strategy strategySum regretSum num_actions with_strategy].
  split_and!; [|done|].
  - by rewrite length_normalise, length_fmap.
  - rewrite length_zip_with, length_normalise, length_fmap. lia.
Qed.

Lemma strategy_kept_wf m m' : strategy_kept m m' → node_wf m → node_wf m'.
Proof.
  intros (Hs & Hss & Hr & _ & Hn) (H1 & H2 & H3). unfold node_wf.
  by rewrite Hs, Hss, Hr, Hn.
Qed.

(** ** The shape of the nodes through a run *)

Lemma neutral_from_ge i b a : a ∈ neutral_from i b → (i ≤ a)%nat.
Proof.
  revert i. induction b as [|c b IH]; intros i Ha; simpl in Ha.
  - by apply elem_of_nil in Ha.
  - case_decide.
    + apply elem_of_cons in Ha as [->|Ha]; [done|]. apply IH in Ha. lia.
    + apply IH in Ha. lia.
Qed.

Lemma NoDup_neutral_from i b : NoDup (neutral_from i b).
Proof.
  revert i. induction b as [|c b IH]; intros i; simpl; [apply NoDup_nil_2|].
  case_decide; [|apply IH]. apply NoDup_cons. split; [|apply IH].
  intros Hin. apply neutral_from_ge in Hin. lia.
Qed.

Lemma regret_matching_nonneg rs : Forall (λ x, 0 ≤ x) (regret_matching rs).
Proof.
  apply normalise_nonneg, Forall_fmap, Forall_true. intros x. apply max0_nonneg.
Qed.

Lemma add_weighted_nonneg w ss strat :
  0 ≤ w → Forall (λ x, 0 ≤ x) ss → Forall (λ x, 0 ≤ x) strat →
  Forall (λ x, 0 ≤ x) (add_weighted w ss strat).
Proof.
  intros Hw Hss. revert strat. unfold add_weighted.
  induction Hss as [|x ss Hx _ IH]; intros strat Hst; [done|].
  destruct Hst as [|p strat Hp Hst]; [done|]. simpl.
  apply Forall_cons. split; [|by apply IH].
  apply Qcplus_nonneg_nonneg; [done|]. by apply Qcmult_nonneg_nonneg.
Qed.

Lemma Node_init_ok b p hid t : node_ok (with_is_terminal t (Node_init b p hid)).
Proof.
  unfold node_ok, node_wf. simpl. rewrite !length_replicate.
  split_and!; [done..|apply NoDup_neutral_from|done|done|].
  by apply Forall_replicate.
Qed.

Lemma getStrategy_keeps_ok n n1 :
  node_ok n → getStrategy n = Ok n1 →
  node_ok n1 ∧ Forall (λ x, 0 ≤ x) (strategy n1).
Proof.
  intros (Hwf & Hnd & Hp1 & Hp2 & Hss) Hgs.
  destruct (getStrategy_wf _ _ Hwf Hgs) as (Hs1 & Hss1 & Hwf1).
  pose proof (getStrategy_fields _ _ Hgs) as Hn1.
  split; [|rewrite Hs1; apply regret_matching_nonneg].
  unfold node_ok. rewrite Hss1. split_and!; [done|by rewrite Hn1..|].
  apply add_weighted_nonneg; [|done|apply regret_matching_nonneg].
  unfold reachWeight. by case_decide.
Qed.

Lemma add_reach_keeps_ok sa nd c :
  0 ≤ sa → node_ok nd → node_ok c → node_ok (add_reach sa nd c).
Proof.
  intros Hsa (_ & _ & Hn1 & Hn2 & _) (Hwf & Hnd & Hp1 & Hp2 & Hss).
  unfold node_ok, add_reach. split_and!; [done..| | |done]; simpl.
  - apply Qcplus_nonneg_nonneg; [done|].
    case_decide; [by apply Qcmult_nonneg_nonneg|done].
  - apply Qcplus_nonneg_nonneg; [done|].
    case_decide; [by apply Qcmult_nonneg_nonneg|done].
Qed.

Lemma forward_node_invariant_at (P : list Node → Prop) i nodes nodes' n nd1 :
  forward_node nodes_dict i nodes = Ok nodes' →
  nodes !! i = Some n → getStrategy n = Ok nd1 →
  P (<[i := nd1]> nodes) →
  (∀ ns j nd c sa, sa ∈ strategy nd1 → P ns → ns !! i = Some nd →
     ns !! j = Some c → P (<[j := add_reach sa nd c]> ns)) →
  P nodes'.
Proof.
  intros Hrun Hn Hgs Hstart Hstep. unfold forward_node in Hrun.
  apply bind_Ok in Hrun as (n0 & Hn0 & Hrun). apply node_at_Ok in Hn0.
  assert (n0 = n) as -> by congruence.
  apply bind_Ok in Hrun as (nd0 & Hnd0 & Hrun).
  assert (nd0 = nd1) as -> by congruence.
  eapply (for_each_invariant P); [exact Hrun|done|].
  intros a t t' _ Ht Hbody.
  apply bind_Ok in Hbody as (ks & _ & Hbody).
  eapply (for_each_invariant P); [exact Hbody|done|].
  intros k s s' _ Hs Hvc.
  destruct (visit_child_shape _ _ _ _ _ _ Hvc)
    as [->|(j & nd & c & sa & _ & Hnd & Hc & Hsa & ->)]; [done|].
  eapply Hstep; [|done..]. by eapply list_elem_of_lookup_2.
Qed.

Lemma forward_node_keeps_ok i nodes nodes' :
  forward_node nodes_dict i nodes = Ok nodes' →
  Forall node_ok nodes → Forall node_ok nodes'.
Proof.
  intros Hrun Hall.
  assert (∃ n nd1, nodes !! i = Some n ∧ getStrategy n = Ok nd1)
    as (n & nd1 & Hn & Hgs).
  { unfold forward_node in Hrun.
    apply bind_Ok in Hrun as (n & Hn & Hrun). apply node_at_Ok in Hn.
    apply bind_Ok in Hrun as (nd1 & Hnd1 & _). eauto. }
  pose proof Hall as Hall'. rewrite Forall_lookup in Hall'.
  destruct (getStrategy_keeps_ok _ _ (Hall' _ _ Hn) Hgs) as [Hok1 Hnonneg].
  apply (forward_node_invariant_at (Forall node_ok) _ _ _ _ _ Hrun Hn Hgs).
  - by apply Forall_insert.
  - intros ns j nd c sa Hsa Hns Hnd Hc. apply Forall_insert; [done|].
    rewrite Forall_lookup in Hns. rewrite Forall_forall in Hnonneg.
    apply add_reach_keeps_ok; [by apply Hnonneg|by eapply Hns..].
Qed.

Lemma backward_node_keeps_ok i st st' :
  backward_node game_status num_rows num_cols nodes_dict i st = Ok st' →
  Forall node_ok st.1 → Forall node_ok st'.1.
Proof.
  destruct st as [nodes regret], st' as [nodes' regret']. simpl.
  intros Hrun Hall.
  assert (∃ n, nodes !! i = Some n) as [n Hn].
  { unfold backward_node in Hrun. apply bind_Ok in Hrun as (n & Hn & _).
    apply node_at_Ok in Hn. eauto. }
  destruct (backward_node_shape _ _ _ _ _ _ Hrun Hn) as (nd1 & Hgs & Hshape).
  pose proof Hall as Hall'. rewrite Forall_lookup in Hall'.
  pose proof (Hall' _ _ Hn) as Hokn.
  destruct (getStrategy_keeps_ok _ _ Hokn Hgs)
    as [((Hs & Hr & Hss) & Hnd & _ & _ & Hnonneg) _].
  pose proof (getStrategy_fields _ _ Hgs) as Hnd1.
  assert (Hrs1 : regretSum nd1 = regretSum n) by (by rewrite Hnd1).
  assert (Hpa1 : pos_actions nd1 = pos_actions n) by (by rewrite Hnd1).
  destruct (game_status num_rows num_cols (board n)) as [|w|] eqn:Hst.
  - destruct Hshape as (x & rs & _ & Hupd & ->).
    rewrite <- Hpa1 in Hupd.
    destruct (update_loop_spec _ _ _ _ _ Hupd Hnd) as (Hlen & _ & _).
    apply Forall_insert; [done|].
    unfold node_ok, node_wf. simpl. rewrite Hlen, <- Hrs1.
    by split_and!.
  - destruct Hshape as [_ ->]. apply Forall_insert; [done|].
    unfold node_ok, node_wf, with_reach, with_u. simpl. by split_and!.
  - destruct Hshape as [_ ->]. apply Forall_insert; [done|].
    unfold node_ok, node_wf, with_reach, with_u. simpl. by split_and!.
Qed.

(** Every node keeps that shape through any run. *)
Lemma run_keeps_ok steps st st' :
  run game_status num_rows num_cols nodes_dict steps st = Ok st' →
  Forall node_ok st.1 → Forall node_ok st'.1.
Proof.
  intros Hrun Hall.
  apply (for_each_invariant (λ t, Forall node_ok t.1) _ _ _ _ Hrun); [done|].
  intros [i|i] t t' _ Ht Hs; simpl in Hs.
  - apply bind_Ok in Hs as (ns & Hns & Hs). injection Hs as <-.
    by eapply forward_node_keeps_ok.
  - by eapply backward_node_keeps_ok.
Qed.

Lemma forward_loop_frame xs nodes nodes' i m :
  for_each xs (forward_node nodes_dict) nodes = Ok nodes' →
  i ∉ xs → nodes !! i = Some m →
  ∃ m', nodes' !! i = Some m' ∧ strategy_kept m m'.
Proof.
  intros Hrun Hi Hm.
  apply (for_each_invariant
           (λ ns, ∃ m', ns !! i = Some m' ∧ strategy_kept m m')
           _ _ _ _ Hrun).
  - exists m. by repeat split.
  - intros j t t' Hj (m1 & Hm1 & Hk1) Hstep.
    assert (is_Some (t' !! i)) as [m2 Hm2].
    { apply lookup_lt_is_Some. rewrite (forward_node_length _ _ _ Hstep).
      by eapply lookup_lt_Some. }
    exists m2. split; [done|].
    destruct (forward_node_lookup _ _ _ _ _ Hstep Hm2)
      as (m0 & Hm0 & Hpos & Hlearned & Hne & _).
    assert (m0 = m1) as -> by congruence.
    destruct Hne as [Hs Hss]; [by intros ->|].
    destruct Hk1 as (? & ? & ? & ? & ?).
    destruct Hpos as (? & ? & ? & ? & ? & ?). destruct Hlearned as (? & ? & ?).
    repeat split; congruence.
Qed.

Lemma backward_loop_frame xs st st' i :
  for_each xs (backward_node game_status num_rows num_cols nodes_dict) st
    = Ok st' →
  i ∉ xs → st'.1 !! i = st.1 !! i.
Proof.
  intros Hrun Hi.
  apply (for_each_invariant (λ t, t.1 !! i = st.1 !! i) _ _ _ _ Hrun); [done|].
  intros j t t' Hj Ht Hstep. rewrite <- Ht.
  apply (backward_node_other _ _ _ _ Hstep). by intros ->.
Qed.

Lemma seq_split (len i : nat) :
  (i < len)%nat → seq 0 len = seq 0 i ++ i :: seq (S i) (len - S i).
Proof.
  intros Hlt. replace len with (i + S (len - S i))%nat at 1 by lia.
  by rewrite seq_app.
Qed.

Lemma same_learned_trans m1 m2 m3 :
  same_learned m1 m2 → same_learned m2 m3 → same_learned m1 m3.
Proof. intros (?&?&?) (?&?&?). repeat split; congruence. Qed.

Lemma forward_loop_learned xs nodes nodes' i m :
  for_each xs (forward_node nodes_dict) nodes = Ok nodes' →
  nodes !! i = Some m →
  ∃ m', nodes' !! i = Some m' ∧ same_position m m' ∧ same_learned m m'.
Proof.
  intros Hrun Hm.
  apply (for_each_invariant
           (λ ns, ∃ m', ns !! i = Some m' ∧ same_position m m'
                        ∧ same_learned m m') _ _ _ _ Hrun).
  - exists m. split_and!; [done|apply same_position_refl|by repeat split].
  - intros j t t' _ (m1 & Hm1 & Hp1 & Hl1) Hstep.
    assert (is_Some (t' !! i)) as [m2 Hm2].
    { apply lookup_lt_is_Some. rewrite (forward_node_length _ _ _ Hstep).
      by eapply lookup_lt_Some. }
    exists m2. split; [done|].
    destruct (forward_node_lookup _ _ _ _ _ Hstep Hm2)
      as (m0 & Hm0 & Hpos & Hlearned & _).
    assert (m0 = m1) as -> by congruence.
    split; [by eapply same_position_trans|by eapply same_learned_trans].
Qed.

(** One node through one round: the arena when the forward loop arrives at
    it ([nodesA]), when the forward pass is over ([nodesF]), when the
    backward loop arrives at it ([stB]) and when its backward step is done
    ([stJ]); after that step the round leaves the node alone. *)
Lemma round_history st st' i n :
  iteration game_status num_rows num_cols nodes_dict st = Ok st' →
  st.1 !! i = Some n → node_wf n →
  ∃ nodesA nA nodesF nF stB stJ n',
    for_each (seq 0 i) (forward_node nodes_dict) st.1 = Ok nodesA
    ∧ nodesA !! i = Some nA
    ∧ forward_pass nodes_dict st.1 = Ok nodesF
    ∧ nodesF !! i = Some nF
    ∧ for_each (reverse (seq (S i) (length st.1 - S i)))
        (backward_node game_status num_rows num_cols nodes_dict)
        (nodesF, st.2) = Ok stB
    ∧ stB.1 !! i = Some nF
    ∧ backward_node game_status num_rows num_cols nodes_dict i stB = Ok stJ
    ∧ stJ.1 !! i = Some n'
    ∧ st'.1 !! i = Some n'
    ∧ same_position n nA ∧ same_position n nF ∧ same_learned n nF
    ∧ strategy n' = regret_matching (regretSum n)
    ∧ strategySum n'
      = add_weighted (reachWeight nF)
          (add_weighted (reachWeight nA) (strategySum n)
             (regret_matching (regretSum n)))
          (regret_matching (regretSum n)).
Proof.
  intros Hit Hn Hwf. unfold iteration in Hit.
  apply bind_Ok in Hit as (nodesF & Hfw & Hbw).
  assert (Hlt : (i < length st.1)%nat) by (by eapply lookup_lt_Some).
  pose proof Hfw as Hfw'. unfold forward_pass in Hfw'.
  rewrite (seq_split _ _ Hlt), for_each_app in Hfw'.
  apply bind_Ok in Hfw' as (nodesA & HA & Hfw'). simpl in Hfw'.
  apply bind_Ok in Hfw' as (nodesB & HB & HF).
  assert (HiA : i ∉ seq 0 i) by (intros Hin; apply elem_of_seq in Hin; lia).
  destruct (forward_loop_frame _ _ _ _ _ HA HiA Hn) as (nA & HnA & HkA).
  destruct (forward_loop_learned _ _ _ _ _ HA Hn) as (nA' & HnA' & HpA & HlA).
  assert (nA' = nA) as -> by congruence.
  assert (is_Some (nodesB !! i)) as [nB HnB].
  { apply lookup_lt_is_Some. rewrite (forward_node_length _ _ _ HB).
    by eapply lookup_lt_Some. }
  destruct (forward_node_lookup _ _ _ _ _ HB HnB)
    as (m0 & Hm0 & HposB & HlearnB & _ & Hat).
  assert (m0 = nA) as -> by congruence.
  destruct (Hat eq_refl) as (nd1 & Hgs1 & Hs1 & Hss1).
  pose proof (strategy_kept_wf _ _ HkA Hwf) as HwfA.
  destruct (getStrategy_wf _ _ HwfA Hgs1) as (Hst1 & Hsum1 & Hwf1).
  assert (HiF : i ∉ seq (S i) (length st.1 - S i))
    by (intros Hin; apply elem_of_seq in Hin; lia).
  destruct (forward_loop_frame _ _ _ _ _ HF HiF HnB) as (nF & HnF & HkF).
  destruct (forward_loop_learned _ _ _ _ _ HF HnB) as (nF' & HnF' & HpF & HlF).
  assert (nF' = nF) as -> by congruence.
  pose proof (same_position_trans _ _ _ HpA
                (same_position_trans _ _ _ HposB HpF)) as HpnF.
  pose proof (same_learned_trans _ _ _ HlA
                (same_learned_trans _ _ _ HlearnB HlF)) as HlnF.
  destruct HkA as (HA1 & HA2 & HA3 & HA4 & HA5).
  destruct HkF as (HF1 & HF2 & HF3 & HF4 & HF5).
  assert (HwfF : node_wf nF).
  { destruct Hwf1 as (W1 & W2 & W3). destruct HwfA as (V1 & V2 & V3).
    destruct HposB as (_ & _ & _ & _ & _ & HB6).
    destruct HlearnB as (_ & _ & HB3).
    unfold node_wf. rewrite HF1, HF2, HF3, HF5, Hs1, Hss1, HB3, HB6.
    assert (num_actions nd1 = num_actions nA)
      by (by rewrite (getStrategy_fields _ _ Hgs1)).
    split_and!; congruence. }
  (* the backward pass *)
  unfold backward_pass in Hbw. cbn [fst] in Hbw.
  assert (HlenF : length nodesF = length st.1).
  { apply (for_each_invariant (λ t, length t = length st.1) _ _ _ _ Hfw);
      [done|].
    intros j t t' _ Ht Hj. by rewrite (forward_node_length _ _ _ Hj). }
  rewrite HlenF, (seq_split _ _ Hlt), reverse_app, reverse_cons in Hbw.
  rewrite <- app_assoc, !for_each_app in Hbw.
  apply bind_Ok in Hbw as (stB & H1 & Hbw).
  simpl in Hbw. apply bind_Ok in Hbw as (stJ & H2 & H3).
  assert (HiR1 : i ∉ reverse (seq (S i) (length st.1 - S i)))
    by (intros Hin; apply elem_of_reverse, elem_of_seq in Hin; lia).
  assert (HiR3 : i ∉ reverse (seq 0 i))
    by (intros Hin; apply elem_of_reverse, elem_of_seq in Hin; lia).
  pose proof (backward_loop_frame _ _ _ i H1 HiR1) as Hf1. cbn [fst] in Hf1.
  rewrite HnF in Hf1.
  destruct (backward_node_effect _ _ _ H2)
    as (n0 & nd2 & x & rs & t & Hn0 & Hgs2 & Hst2).
  assert (n0 = nF) as -> by congruence.
  destruct (getStrategy_wf _ _ HwfF Hgs2) as (Hst2' & Hsum2 & _).
  pose proof (backward_loop_frame _ _ _ i H3 HiR3) as Hf3.
  assert (HnJ : stJ.1 !! i
                = Some (with_reach 0 0 0
                          (with_T t (with_regretSum rs (with_u x nd2))))).
  { rewrite Hst2. apply list_lookup_insert_eq. by eapply lookup_lt_Some. }
  rewrite HnJ in Hf3.
  eexists nodesA, nA, nodesF, nF, stB, stJ, _.
  split_and!;
    [done|done|done|done|done|done|done|exact HnJ|exact Hf3|done..| |];
    cbn [strategy strategySum with_reach with_T with_regretSum with_u].
  - rewrite Hst2'. destruct HlnF as (_ & _ & ->). done.
  - rewrite Hsum2, HF2, Hss1, Hsum1.
    destruct HlnF as (_ & _ & ->). rewrite HA3, HA2. done.
Qed.

Lemma add_weighted_lookup w ss strat a acc s :
  ss !! a = Some acc → strat !! a = Some s →
  add_weighted w ss strat !! a = Some (acc + s * w).
Proof.
  intros Hacc Hs. unfold add_weighted.
  by rewrite lookup_zip_with, Hacc, Hs.
Qed.

(** What the backward step leaves in [regretSum] and [T]. *)
Lemma backward_node_learned i nodes regret nodes' regret' n :
  backward_node game_status num_rows num_cols nodes_dict i (nodes, regret)
    = Ok (nodes', regret') →
  nodes !! i = Some n → NoDup (pos_actions n) →
  ∃ n', nodes' !! i = Some n'
    ∧ length (regretSum n') = length (regretSum n)
    ∧ (game_status num_rows num_cols (board n) ≠ InProgress →
       regretSum n' = regretSum n ∧ T n' = T n)
    ∧ (game_status num_rows num_cols (board n) = InProgress →
       T n' = (T n + visits n)%Z
       ∧ ∀ a,
           (a ∉ pos_actions n → regretSum n' !! a = regretSum n !! a)
           ∧ (a ∈ pos_actions n →
              ∃ old r, regretSum n !! a = Some old ∧ regret' !! a = Some r
                ∧ regretSum n' !! a
                  = Some (regret_mean (T n) old (visits n) (cfp_of n)
                            (r - u n')))).
Proof.
  intros Hrun Hn Hnd.
  destruct (backward_node_shape _ _ _ _ _ _ Hrun Hn) as (nd1 & Hgs & Hshape).
  pose proof (getStrategy_fields _ _ Hgs) as Hnd1.
  assert (Hlt : (i < length nodes)%nat) by (by eapply lookup_lt_Some).
  assert (Hrs1 : regretSum nd1 = regretSum n) by (by rewrite Hnd1).
  assert (HT1 : T nd1 = T n) by (by rewrite Hnd1).
  destruct (game_status num_rows num_cols (board n)) as [|w|] eqn:Hst.
  - destruct Hshape as (x & rs & _ & Hupd & ->).
    destruct (update_loop_spec _ _ _ _ _ Hupd Hnd) as (Hlen & Hout & Hin).
    eexists. split; [by apply list_lookup_insert_eq|].
    cbn [regretSum T with_reach with_T with_regretSum with_u u].
    split_and!; [done|done|]. intros _. split; [done|].
    intros a. split; [apply Hout|]. intros Ha.
    destruct (Hin a Ha) as (_ & old & r & Ho & Hr & Hnew).
    exists old, r. split_and!; [done..|]. rewrite Hnew.
    unfold cfp_of.
    cbn [T visits player pSum1 pSum2 u with_u].
    by rewrite Hnd1.
  - destruct Hshape as [_ ->].
    eexists. split; [by apply list_lookup_insert_eq|].
    cbn [regretSum T with_reach with_u]. rewrite Hrs1, HT1.
    by split_and!.
  - destruct Hshape as [_ ->].
    eexists. split; [by apply list_lookup_insert_eq|].
    cbn [regretSum T with_reach with_u]. rewrite Hrs1, HT1.
    by split_and!.
Qed.

(** C10: in one round every node, whatever the rule engine says of its
    board, goes through [getStrategy] twice.  With [s] the strategy that
    [getStrategy] derives from the node at the start of the round, which is
    the one both calls compute, the round adds to [strategySum[a]] first
    [s[a]] times the reach accumulator of the node's player ([pSum1] for
    player 1, [pSum2] for player 2) as the forward loop finds it on
    arriving at the node, then [s[a]] times that accumulator as the forward
    pass leaves it, which is what the backward loop reads before it clears
    it. *)
Theorem getStrategy_twice_per_round st st' i n :
  iteration game_status num_rows num_cols nodes_dict st = Ok st' →
  st.1 !! i = Some n → node_wf n →
  ∃ nodesA nA nodesF nF n1 n',
    for_each (seq 0 i) (forward_node nodes_dict) st.1 = Ok nodesA
    ∧ nodesA !! i = Some nA
    ∧ forward_pass nodes_dict st.1 = Ok nodesF
    ∧ nodesF !! i = Some nF
    ∧ st'.1 !! i = Some n'
    ∧ getStrategy n = Ok n1
    ∧ strategy n' = strategy n1
    ∧ length (strategy n') = num_actions n
    ∧ length (strategySum n') = num_actions n
    ∧ ∀ a acc s,
        strategySum n !! a = Some acc → strategy n' !! a = Some s →
        strategySum n' !! a
        = Some (acc
                + s * (if decide (player n = P1) then pSum1 nA else pSum2 nA)
                + s * (if decide (player n = P1) then pSum1 nF else pSum2 nF)).
Proof.
  intros Hit Hn Hwf.
  destruct (round_history _ _ _ _ Hit Hn Hwf)
    as (nodesA & nA & nodesF & nF & stB & stJ & n' & HA & HnA & HF & HnF
        & _ & _ & _ & _ & Hn' & HpA & HpF & _ & Hstrat & Hsum).
  assert (∃ n1, getStrategy n = Ok n1) as [n1 Hgs].
  { destruct Hwf as (Hs & Hr & Hss). eexists. apply getStrategy_ok; lia. }
  destruct (getStrategy_wf _ _ Hwf Hgs) as (Hs1 & _ & _).
  exists nodesA, nA, nodesF, nF, n1, n'.
  split_and!; [done..|congruence| | |].
  - rewrite Hstrat. unfold regret_matching.
    rewrite length_normalise, length_fmap. by destruct Hwf as (_ & -> & _).
  - rewrite Hsum. unfold add_weighted, regret_matching.
    rewrite !length_zip_with, !length_normalise, !length_fmap.
    destruct Hwf as (_ & -> & ->). lia.
  - intros a acc s Hacc Hs. rewrite Hstrat in Hs. rewrite Hsum.
    destruct HpA as (HplA & _). destruct HpF as (HplF & _).
    unfold reachWeight. rewrite HplA, HplF.
    apply add_weighted_lookup; [|done].
    by apply add_weighted_lookup.
Qed.

(** C2, as the code has it.  When a round ends, [visits], [pSum1] and
    [pSum2] of every node are zero; [u] is not among the fields that the
    round clears.  [strategySum] and [regretSum] are not cleared either.
    For a node with arrays of the constructor's length and legal actions
    listed once: the round adds to every [strategySum] entry the two
    increments of [getStrategy]; it leaves [regretSum] and [T] of a node on
    a decided board as they were; on a board in progress it leaves every
    [regretSum] entry outside [pos_actions] as it was, replaces the others
    by the mean in which the old entry has weight [T], and adds [visits] to
    [T].  The accumulators are read where the round reads them: [nA] is the
    node as the forward loop finds it, [nF] as the forward pass leaves it,
    [stJ] the state after the backward step of the node.  The next round
    starts from the arena this one leaves. *)
Theorem round_clears_reach st st' :
  iteration game_status num_rows num_cols nodes_dict st = Ok st' →
  (∀ j n', st'.1 !! j = Some n' →
     visits n' = 0%Z ∧ pSum1 n' = 0 ∧ pSum2 n' = 0)
  ∧ (∀ i n, st.1 !! i = Some n → node_wf n → NoDup (pos_actions n) →
     ∃ nodesA nA nodesF nF stB stJ n',
       for_each (seq 0 i) (forward_node nodes_dict) st.1 = Ok nodesA
       ∧ nodesA !! i = Some nA
       ∧ forward_pass nodes_dict st.1 = Ok nodesF
       ∧ nodesF !! i = Some nF
       ∧ for_each (reverse (seq (S i) (length st.1 - S i)))
           (backward_node game_status num_rows num_cols nodes_dict)
           (nodesF, st.2) = Ok stB
       ∧ backward_node game_status num_rows num_cols nodes_dict i stB
         = Ok stJ
       ∧ st'.1 !! i = Some n'
       ∧ length (strategySum n') = length (strategySum n)
       ∧ (∀ a acc s,
            strategySum n !! a = Some acc → strategy n' !! a = Some s →
            strategySum n' !! a
            = Some (acc
                    + s * (if decide (player n = P1)
                           then pSum1 nA else pSum2 nA)
                    + s * (if decide (player n = P1)
                           then pSum1 nF else pSum2 nF)))
       ∧ length (regretSum n') = length (regretSum n)
       ∧ (game_status num_rows num_cols (board n) ≠ InProgress →
          regretSum n' = regretSum n ∧ T n' = T n)
       ∧ (game_status num_rows num_cols (board n) = InProgress →
          T n' = (T n + visits nF)%Z
          ∧ ∀ a old, regretSum n !! a = Some old →
              (a ∉ pos_actions n → regretSum n' !! a = Some old)
              ∧ (a ∈ pos_actions n →
                 ∃ r, stJ.2 !! a = Some r
                   ∧ regretSum n' !! a
                     = Some ((Qc_of_Z (T n) * old
                              + Qc_of_Z (visits nF)
                                * (if decide (player n = P1)
                                   then pSum2 nF else pSum1 nF)
                                * (r - u n'))
                             / Qc_of_Z (T n + visits nF)))))
  ∧ (∀ k, iterations game_status num_rows num_cols nodes_dict (S k) st
          = iterations game_status num_rows num_cols nodes_dict k st').
Proof.
  intros Hit. split_and!.
  - intros j n' Hn'. pose proof Hit as Hit'. unfold iteration in Hit'.
    apply bind_Ok in Hit' as (ns & Hfw & Hbw).
    by eapply backward_pass_clears.
  - intros i n Hn Hwf Hnd.
    destruct (round_history _ _ _ _ Hit Hn Hwf)
      as (nodesA & nA & nodesF & nF & stB & stJ & n' & HA & HnA & HF & HnF
          & HB & HnB & HJ & HnJ & Hn' & HpA & HpF & HlF & Hstrat & Hsum).
    exists nodesA, nA, nodesF, nF, stB, stJ, n'.
    destruct HpA as (HplA & _).
    destruct HpF as (HplF & HbF & _ & HpaF & _).
    destruct HlF as (_ & HTF & HrsF).
    destruct stB as [nodesB regretB], stJ as [nodesJ regretJ].
    cbn [fst snd] in *.
    assert (HndF : NoDup (pos_actions nF)) by (by rewrite HpaF).
    destruct (backward_node_learned _ _ _ _ _ _ HJ HnB HndF)
      as (n2 & Hn2 & Hlen & Hdec & Hprog).
    assert (n2 = n') as -> by congruence.
    rewrite HbF, HrsF, HTF in *.
    split_and!; [done|done|done|done|done|done|done| | |done|done|].
    + rewrite Hsum. unfold add_weighted, regret_matching.
      rewrite !length_zip_with, !length_normalise, !length_fmap.
      destruct Hwf as (_ & -> & ->). lia.
    + intros a acc s Hacc Hs. rewrite Hstrat in Hs. rewrite Hsum.
      unfold reachWeight. rewrite HplA, HplF.
      apply add_weighted_lookup; [|done].
      by apply add_weighted_lookup.
    + intros Hst. destruct (Hprog Hst) as [HT Hall]. split; [done|].
      intros a old Hold. destruct (Hall a) as [Hout Hin].
      rewrite HpaF in Hout, Hin. split.
      * intros Ha. by rewrite Hout.
      * intros Ha. destruct (Hin Ha) as (old' & r & Hold' & Hr & Hnew).
        assert (old' = old) as -> by congruence.
        exists r. split; [done|]. rewrite Hnew.
        unfold regret_mean, cfp_of. by rewrite HplF.
  - intros k. simpl. by rewrite Hit.
Qed.

End TrainerProofs.

(** ** The construction *)

Section BuilderProofs.

Context (Game : Type) (DarkHex : nat → nat → Game).
Context (turn_info : Game → Player) (BOARDS : Game → Player → Board).
Context (totalHidden_for_player : Game → Player → Z).
Context (valid_moves_colors : Game → Player → list nat).
Context (step : Game → Player → nat → Game * StepResult).
Context (rewind : Game → bool → Game).
Context (legality_status : nat → nat → Board → Player → Z → Status).
Context (legality_turn_info : nat → nat → Board → Player → Z → Player).
Context (num_rows num_cols : nat).

Lemma for_moves_invariant {A S} (P : S → Prop) (xs : list A)
    (body : A → S → option S) (s s' : S) :
  for_moves xs body s = Some s' →
  P s →
  (∀ x t t', P t → body x t = Some t' → P t') →
  P s'.
Proof.
  revert s. induction xs as [|x xs IH]; intros s Hrun Hs Hstep; simpl in Hrun.
  - by injection Hrun as <-.
  - destruct (body x s) as [s1|] eqn:Hx; [|done].
    eapply IH; [done| |done]. by eapply Hstep.
Qed.

Lemma enter_spec game res bs node player bs1 :
  enter turn_info BOARDS totalHidden_for_player legality_status
    legality_turn_info num_rows num_cols game res bs
    = Some (node, player, bs1) →
  built_node node
  ∧ (own_view_legal legality_status legality_turn_info num_rows num_cols node
     ∨ kept_by_lookahead BOARDS totalHidden_for_player legality_status
         legality_turn_info num_rows num_cols node)
  ∧ stack bs1 = stack bs ∧ build_dict bs1 = build_dict bs.
Proof.
  unfold enter. intros Hrun. destruct res as [| |w].
  - destruct (is_board_legal _ _ _ _ (BOARDS game (turn_info game)) _ _ _)
      eqn:Hown; simpl in Hrun.
    + case_decide; [done|]. injection Hrun as <- <- <-.
      split_and!; [by eexists _, _, _, false|by left|done..].
    + destruct (is_board_legal _ _ _ _ (BOARDS game (reverse_player _)) _ _ _)
        eqn:Hopp; simpl in Hrun; [|done].
      case_decide; [done|]. injection Hrun as <- <- <-.
      split_and!; [by eexists _, _, _, false| |done..].
      right. by exists game.
  - destruct (is_board_legal _ _ _ _ (BOARDS game (turn_info game)) _ _ _)
      eqn:Hown; simpl in Hrun; [|done].
    case_decide; [done|]. injection Hrun as <- <- <-.
    split_and!; [by eexists _, _, _, false|by left|done..].
  - destruct (is_board_legal _ _ _ _ (BOARDS game w) _ _ _)
      eqn:Hown; simpl in Hrun.
    + case_decide; [done|]. injection Hrun as <- <- <-.
      split_and!; [by eexists _, _, _, true|by left|done..].
    + destruct (is_board_legal _ _ _ _ (BOARDS game (reverse_player _)) _ _ _)
        eqn:Hopp; simpl in Hrun; [|done].
      case_decide; [done|]. injection Hrun as <- <- <-.
      split_and!; [by eexists _, _, _, true| |done..].
      right. by exists game.
Qed.

Lemma build_inv_ext bs bs1 :
  stack bs1 = stack bs → build_dict bs1 = build_dict bs →
  build_inv BOARDS totalHidden_for_player legality_status legality_turn_info
    num_rows num_cols bs →
  build_inv BOARDS totalHidden_for_player legality_status legality_turn_info
    num_rows num_cols bs1.
Proof. unfold build_inv. by intros -> ->. Qed.

Lemma push_node_inv n bs :
  built_node n →
  own_view_legal legality_status legality_turn_info num_rows num_cols n
  ∨ kept_by_lookahead BOARDS totalHidden_for_player legality_status
      legality_turn_info num_rows num_cols n →
  build_inv BOARDS totalHidden_for_player legality_status legality_turn_info
    num_rows num_cols bs →
  build_inv BOARDS totalHidden_for_player legality_status legality_turn_info
    num_rows num_cols (push_node n bs).
Proof.
  intros Hb Hadm (Hall & Hd & Hs). unfold push_node.
  destruct (build_dict bs !! infoSet n) as [j|] eqn:Hj; [done|].
  unfold build_inv. simpl. split_and!.
  - apply Forall_app. split; [done|]. by apply Forall_singleton.
  - intros k j Hkj. destruct (decide (k = infoSet n)) as [->|Hne].
    + rewrite lookup_insert_eq in Hkj. injection Hkj as <-.
      exists n. split; [|done]. by apply list_lookup_middle.
    + rewrite lookup_insert_ne in Hkj by done.
      destruct (Hd _ _ Hkj) as (m & Hm & Hk). exists m.
      split; [|done]. by apply lookup_app_l_Some.
  - intros j m Hm. apply lookup_snoc_Some in Hm as [[Hlt Hm]|[-> <-]].
    + pose proof (Hs _ _ Hm) as Hdm.
      rewrite lookup_insert_ne; [done|]. intros Heq. congruence.
    + apply lookup_insert_eq.
Qed.

Lemma topSort_play_inv fuel game res bs game' bs' :
  topSort_play turn_info BOARDS totalHidden_for_player valid_moves_colors
    step rewind legality_status legality_turn_info num_rows num_cols
    fuel game res bs = Some (game', bs') →
  build_inv BOARDS totalHidden_for_player legality_status legality_turn_info
    num_rows num_cols bs →
  build_inv BOARDS totalHidden_for_player legality_status legality_turn_info
    num_rows num_cols bs'.
Proof.
  revert game res bs game' bs'.
  induction fuel as [|fuel IH]; intros game res bs game' bs' Hrun Hinv;
    [done|].
  simpl in Hrun.
  destruct (enter _ _ _ _ _ _ _ game res bs) as [[[node pl] bs1]|] eqn:Hent;
    [|by injection Hrun as <- <-].
  destruct (enter_spec _ _ _ _ _ _ Hent) as (Hb & Hadm & Hst & Hdi).
  pose proof (build_inv_ext _ _ Hst Hdi Hinv) as Hinv1.
  destruct (is_terminal node).
  - injection Hrun as <- <-. by apply push_node_inv.
  - destruct (for_moves _ _ _) as [[g2 bs2]|] eqn:Hloop; [|done].
    injection Hrun as <- <-. apply push_node_inv; [done..|].
    apply (for_moves_invariant
             (λ s : Game * BuildState,
                build_inv BOARDS totalHidden_for_player legality_status
                  legality_turn_info num_rows num_cols s.2)
             _ _ _ _ Hloop); [done|].
    intros a [g s] [g' s'] Hs Hbody. simpl in *.
    destruct (step g pl a) as [g1 r].
    destruct (topSort_play _ _ _ _ _ _ _ _ _ _ fuel g1 r s)
      as [[g3 s3]|] eqn:Hrec; [|done].
    injection Hbody as <- <-. by eapply IH.
Qed.

(** What the construction returns. *)
Lemma init_board_topSorted_inv fuel nodes dict :
  init_board_topSorted DarkHex turn_info BOARDS totalHidden_for_player
    valid_moves_colors step rewind legality_status legality_turn_info
    num_rows num_cols fuel = Some (nodes, dict) →
  Forall (λ n, built_node n
               ∧ (own_view_legal legality_status legality_turn_info
                    num_rows num_cols n
                  ∨ kept_by_lookahead BOARDS totalHidden_for_player
                      legality_status legality_turn_info
                      num_rows num_cols n)) nodes
  ∧ dict_consistent dict nodes
  ∧ (∀ j n, nodes !! j = Some n → dict !! infoSet n = Some j).
Proof.
  unfold init_board_topSorted.
  destruct (topSort_play _ _ _ _ _ _ _ _ _ _ _ _ _ _) as [[g bs]|] eqn:Hrun;
    [|done].
  intros [= <- <-].
  assert (Hinv0 : build_inv BOARDS totalHidden_for_player legality_status
                    legality_turn_info num_rows num_cols
                    {| stack := []; visited := ∅; build_dict := ∅ |}).
  { unfold build_inv. simpl. split_and!; [done|by intros k j|by intros j n]. }
  destruct (topSort_play_inv _ _ _ _ _ _ Hrun Hinv0) as (Hall & Hd & Hs).
  split_and!.
  - by apply Forall_reverse.
  - intros k j' Hk. apply lookup_fmap_Some in Hk as (j & <- & Hj).
    destruct (Hd _ _ Hj) as (n & Hn & Hkn). exists n. split; [|done].
    pose proof (lookup_lt_Some _ _ _ Hn) as Hlt.
    rewrite reverse_lookup by lia. rewrite <- Hn. f_equal. lia.
  - intros j n Hn. apply reverse_lookup_Some in Hn as [Hn Hlt].
    rewrite lookup_fmap, (Hs _ _ Hn). simpl. f_equal. lia.
Qed.

Lemma built_node_fresh n : built_node n → fresh_counts n ∧ u n = 0 ∧ node_wf n.
Proof.
  intros (b & p & hid & t & ->). split_and!; [done..|].
  unfold node_wf. simpl. by rewrite !length_replicate.
Qed.

(** *** The calls that make the nodes *)

Lemma for_moves_app {A S} (xs ys : list A) (body : A → S → option S) (s : S) :
  for_moves (xs ++ ys) body s
  = match for_moves xs body s with
    | Some s' => for_moves ys body s'
    | None => None
    end.
Proof.
  revert s. induction xs as [|x xs IH]; intros s; simpl; [done|].
  destruct (body x s); [apply IH|done].
Qed.

Lemma topSort_play_unfold fuel game res bs :
  topSort_play turn_info BOARDS totalHidden_for_player valid_moves_colors
    step rewind legality_status legality_turn_info num_rows num_cols
    (S fuel) game res bs
  = match enter turn_info BOARDS totalHidden_for_player legality_status
            legality_turn_info num_rows num_cols game res bs with
    | None => Some (game, bs)
    | Some (node, pl, bs1) =>
        if is_terminal node then Some (game, push_node node bs1)
        else
          match for_moves (valid_moves_colors game pl)
                  (play_move turn_info BOARDS totalHidden_for_player
                     valid_moves_colors step rewind legality_status
                     legality_turn_info num_rows num_cols fuel pl)
                  (game, bs1) with
          | Some (g', bs2) => Some (g', push_node node bs2)
          | None => None
          end
    end.
Proof. reflexivity. Qed.

(** What a call that passes line 219 knows of its node. *)
Lemma enter_admits game res bs node pl bs1 :
  enter turn_info BOARDS totalHidden_for_player legality_status
    legality_turn_info num_rows num_cols game res bs
    = Some (node, pl, bs1) →
  player node = pl
  ∧ pl = match res with Winner w => w | _ => turn_info game end
  ∧ board node = BOARDS game pl
  ∧ h node = totalHidden_for_player game pl
  ∧ (is_board_legal legality_status legality_turn_info num_rows num_cols
       (board node) (reverse_player pl) pl (h node) = true
     ∨ (res ≠ Failed
        ∧ is_board_legal legality_status legality_turn_info num_rows num_cols
            (BOARDS game (reverse_player pl)) pl (reverse_player pl)
            (totalHidden_for_player game (reverse_player pl)) = true)).
Proof.
  unfold enter. intros Hrun. destruct res as [| |w].
  - destruct (is_board_legal _ _ _ _ (BOARDS game (turn_info game)) _ _ _)
      eqn:Hown; simpl in Hrun.
    + case_decide; [done|]. injection Hrun as <- <- <-.
      split_and!; [done..|by left].
    + destruct (is_board_legal _ _ _ _ (BOARDS game (reverse_player _)) _ _ _)
        eqn:Hopp; simpl in Hrun; [|done].
      case_decide; [done|]. injection Hrun as <- <- <-.
      split_and!; [done..|]. right. by split.
  - destruct (is_board_legal _ _ _ _ (BOARDS game (turn_info game)) _ _ _)
      eqn:Hown; simpl in Hrun; [|done].
    case_decide; [done|]. injection Hrun as <- <- <-.
    split_and!; [done..|by left].
  - destruct (is_board_legal _ _ _ _ (BOARDS game w) _ _ _)
      eqn:Hown; simpl in Hrun.
    + case_decide; [done|]. injection Hrun as <- <- <-.
      split_and!; [done..|by left].
    + destruct (is_board_legal _ _ _ _ (BOARDS game (reverse_player _)) _ _ _)
        eqn:Hopp; simpl in Hrun; [|done].
      case_decide; [done|]. injection Hrun as <- <- <-.
      split_and!; [done..|]. right. by split.
Qed.

Lemma push_node_stack n m bs :
  m ∈ stack (push_node n bs) → m ∈ stack bs ∨ m = n.
Proof.
  unfold push_node. destruct (build_dict bs !! infoSet n); [by left|].
  simpl. intros Hm. apply elem_of_app in Hm as [Hm|Hm]; [by left|].
  apply list_elem_of_singleton in Hm. by right.
Qed.

(** Every node that a call of [__topSort_play] adds to the stack is the
    node of a call that it makes, itself included, and that passes
    line 219. *)
Lemma topSort_play_calls fuel game res bs game' bs' :
  topSort_play turn_info BOARDS totalHidden_for_player valid_moves_colors
    step rewind legality_status legality_turn_info num_rows num_cols
    fuel game res bs = Some (game', bs') →
  ∀ n, n ∈ stack bs' →
    n ∈ stack bs
    ∨ ∃ g r b b1,
        calls turn_info BOARDS totalHidden_for_player valid_moves_colors
          step rewind legality_status legality_turn_info num_rows num_cols
          fuel game res bs g r b
        ∧ enter turn_info BOARDS totalHidden_for_player legality_status
            legality_turn_info num_rows num_cols g r b
          = Some (n, player n, b1).
Proof.
  revert game res bs game' bs'.
  induction fuel as [|fuel IH]; intros game res bs game' bs' Hrun; [done|].
  rewrite topSort_play_unfold in Hrun.
  destruct (enter _ _ _ _ _ _ _ game res bs) as [[[node pl] bs1]|] eqn:Hent;
    [|injection Hrun as <- <-; by left].
  destruct (enter_spec _ _ _ _ _ _ Hent) as (_ & _ & Hst & _).
  destruct (enter_admits _ _ _ _ _ _ Hent) as (Hpl & _).
  assert (Hself : ∃ g r b b1,
            calls turn_info BOARDS totalHidden_for_player valid_moves_colors
              step rewind legality_status legality_turn_info num_rows
              num_cols (S fuel) game res bs g r b
            ∧ enter turn_info BOARDS totalHidden_for_player legality_status
                legality_turn_info num_rows num_cols g r b
              = Some (node, player node, b1)).
  { exists game, res, bs, bs1. split; [apply calls_itself|].
    by rewrite Hpl. }
  destruct (is_terminal node) eqn:Hterm.
  - injection Hrun as <- <-. intros n Hn.
    apply push_node_stack in Hn as [Hn|Heq]; [left; by rewrite <- Hst|].
    subst n. by right.
  - destruct (for_moves _ _ _) as [[g2 bs2]|] eqn:Hloop; [|done].
    injection Hrun as <- <-. intros n Hn.
    apply push_node_stack in Hn as [Hn|Heq]; [|subst n; by right].
    revert n Hn.
    assert (Hgen : ∀ rest pre gl sl,
              valid_moves_colors game pl = pre ++ rest →
              for_moves pre
                (play_move turn_info BOARDS totalHidden_for_player
                   valid_moves_colors step rewind legality_status
                   legality_turn_info num_rows num_cols fuel pl)
                (game, bs1) = Some (gl, sl) →
              for_moves rest
                (play_move turn_info BOARDS totalHidden_for_player
                   valid_moves_colors step rewind legality_status
                   legality_turn_info num_rows num_cols fuel pl)
                (gl, sl) = Some (g2, bs2) →
              (∀ n, n ∈ stack sl →
                 n ∈ stack bs
                 ∨ ∃ g r b b1,
                     calls turn_info BOARDS totalHidden_for_player
                       valid_moves_colors step rewind legality_status
                       legality_turn_info num_rows num_cols
                       (S fuel) game res bs g r b
                     ∧ enter turn_info BOARDS totalHidden_for_player
                         legality_status legality_turn_info num_rows num_cols
                         g r b = Some (n, player n, b1)) →
              ∀ n, n ∈ stack bs2 →
                 n ∈ stack bs
                 ∨ ∃ g r b b1,
                     calls turn_info BOARDS totalHidden_for_player
                       valid_moves_colors step rewind legality_status
                       legality_turn_info num_rows num_cols
                       (S fuel) game res bs g r b
                     ∧ enter turn_info BOARDS totalHidden_for_player
                         legality_status legality_turn_info num_rows num_cols
                         g r b = Some (n, player n, b1)).
    { induction rest as [|a post IHrest]; intros pre gl sl Hsplit Hpre Hrest Hsl.
      - simpl in Hrest. injection Hrest as <- <-. exact Hsl.
      - cbn [for_moves] in Hrest.
        destruct (play_move turn_info BOARDS totalHidden_for_player
                    valid_moves_colors step rewind legality_status
                    legality_turn_info num_rows num_cols fuel pl a (gl, sl))
          as [[gl' sl']|] eqn:Hbody; [|done].
        apply (IHrest (pre ++ [a]) gl' sl').
        + by rewrite <- app_assoc.
        + rewrite for_moves_app, Hpre. cbn [for_moves]. by rewrite Hbody.
        + exact Hrest.
        + intros n Hn. unfold play_move in Hbody.
          destruct (step gl pl a) as [g1 r] eqn:Hstep.
          destruct (topSort_play _ _ _ _ _ _ _ _ _ _ fuel g1 r sl)
            as [[g3 s3]|] eqn:Hrec; [|done].
          injection Hbody as <- <-.
          destruct (IH _ _ _ _ _ Hrec n Hn)
            as [Hin|(g & r' & b & b1 & Hcalls & Henter)]; [by apply Hsl|].
          right. exists g, r', b, b1. split; [|done].
          eapply (calls_inner _ _ _ _ _ _ _ _ _ _ _ fuel game res bs node pl
                    bs1 pre a post gl sl); [done..|].
          by rewrite Hstep. }
    apply (Hgen (valid_moves_colors game pl) [] game bs1); [done..|].
    intros n Hn. left. by rewrite <- Hst.
Qed.

(** C4, as the code has it: the node behind every key of the map is the
    node of a call of [__topSort_play] that the construction makes, for the
    player of that call (the winner when the call is given one, else the
    player to move) and the game state of that call; and at that call the
    node either passes the legality check on its own board, turn and hidden
    count, or it was kept by the look-ahead of lines 210-215: the call was
    not for a failed move, and the other view of that same game state
    passes the check with the other player to move. *)
Theorem map_keys_admitted fuel nodes dict k j :
  init_board_topSorted DarkHex turn_info BOARDS totalHidden_for_player
    valid_moves_colors step rewind legality_status legality_turn_info
    num_rows num_cols fuel = Some (nodes, dict) →
  dict !! k = Some j →
  ∃ n game res bs bs1,
    nodes !! j = Some n ∧ infoSet n = k
    ∧ calls turn_info BOARDS totalHidden_for_player valid_moves_colors
        step rewind legality_status legality_turn_info num_rows num_cols
        fuel (DarkHex num_rows num_cols) Continue
        {| stack := []; visited := ∅; build_dict := ∅ |} game res bs
    ∧ enter turn_info BOARDS totalHidden_for_player legality_status
        legality_turn_info num_rows num_cols game res bs
      = Some (n, player n, bs1)
    ∧ player n = match res with Winner w => w | _ => turn_info game end
    ∧ board n = BOARDS game (player n)
    ∧ h n = totalHidden_for_player game (player n)
    ∧ (is_board_legal legality_status legality_turn_info num_rows num_cols
         (board n) (reverse_player (player n)) (player n) (h n) = true
       ∨ (res ≠ Failed
          ∧ is_board_legal legality_status legality_turn_info
              num_rows num_cols
              (BOARDS game (reverse_player (player n))) (player n)
              (reverse_player (player n))
              (totalHidden_for_player game (reverse_player (player n)))
            = true)).
Proof.
  intros Hinit Hk.
  destruct (init_board_topSorted_inv _ _ _ Hinit) as (_ & Hd & _).
  destruct (Hd _ _ Hk) as (n & Hn & Hkn).
  unfold init_board_topSorted in Hinit.
  destruct (topSort_play _ _ _ _ _ _ _ _ _ _ _ _ _ _) as [[g bs]|] eqn:Hrun;
    [|done].
  injection Hinit as <- _.
  assert (Hin : n ∈ stack bs).
  { apply elem_of_reverse. by eapply list_elem_of_lookup_2. }
  destruct (topSort_play_calls _ _ _ _ _ _ Hrun n Hin)
    as [Hnil|(game & res & b & b1 & Hcalls & Henter)];
    [by apply elem_of_nil in Hnil|].
  destruct (enter_admits _ _ _ _ _ _ Henter) as (_ & Hpl & Hb & Hh & Hadm).
  exists n, game, res, b, b1. by split_and!.
Qed.

Context (game_status : nat → nat → Board → Status).

(** C6: on the graph that the construction returns, where every node has
    [visits = 1] and [T = 0], whatever part of the rounds of [train] has
    run, the node that the next backward step updates has
    [T + visits > 0]: none is updated at [visits = 0] and [T = 0], and
    [train] never ends on a quotient by zero. *)
Theorem denominator_positive fuel k nodes dict pre i post st n :
  init_board_topSorted DarkHex turn_info BOARDS totalHidden_for_player
    valid_moves_colors step rewind legality_status legality_turn_info
    num_rows num_cols fuel = Some (nodes, dict) →
  rounds k (length nodes) = pre ++ Bwd i :: post →
  run game_status num_rows num_cols dict pre
    (nodes, replicate (fsicfr_num_actions num_rows num_cols) 0) = Ok st →
  st.1 !! i = Some n →
  game_status num_rows num_cols (board n) = InProgress →
  Forall (λ m, visits m = 1%Z ∧ T m = 0%Z) nodes
  ∧ (0 < T n + visits n)%Z
  ∧ ¬ (visits n = 0 ∧ T n = 0)%Z
  ∧ train game_status num_rows num_cols dict k nodes ≠ Raise NotFinite.
Proof.
  intros Hinit Hsched Hrun Hn Hst.
  destruct (init_board_topSorted_inv _ _ _ Hinit) as (Hall & _ & _).
  assert (Hfresh : Forall fresh_counts nodes).
  { eapply Forall_impl; [exact Hall|]. intros m [Hb _].
    by apply built_node_fresh. }
  split; [exact Hfresh|].
  destruct (denominator_positive_fresh _ _ _ _ _ _ _ _ _ _ _ _
              Hfresh Hsched Hrun Hn Hst) as [Hpos Hnz].
  split_and!; [done..|]. by apply train_finite_fresh.
Qed.



(** On a constructed graph the hypotheses of the statements about single
    nodes hold at every node, whatever part of [train] has run. *)
Lemma constructed_nodes_ok fuel nodes dict :
  init_board_topSorted DarkHex turn_info BOARDS totalHidden_for_player
    valid_moves_colors step rewind legality_status legality_turn_info
    num_rows num_cols fuel = Some (nodes, dict) →
  Forall node_ok nodes.
Proof.
  intros Hinit.
  destruct (init_board_topSorted_inv _ _ _ Hinit) as (Hall & _ & _).
  eapply Forall_impl; [exact Hall|].
  intros n [(b & p & hid & t & ->) _]. apply Node_init_ok.
Qed.

(** What [train] leaves in [strategySum] of every node that is not flagged
    terminal: a probability vector. *)
Lemma train_average_strategy fuel k nodes dict nodes' j n' :
  init_board_topSorted DarkHex turn_info BOARDS totalHidden_for_player
    valid_moves_colors step rewind legality_status legality_turn_info
    num_rows num_cols fuel = Some (nodes, dict) →
  train game_status num_rows num_cols dict k nodes = Ok nodes' →
  nodes' !! j = Some n' →
  is_terminal n' = false → (0 < num_actions n')%nat →
  total (strategySum n') = 1 ∧ Forall (λ x, 0 ≤ x) (strategySum n').
Proof.
  intros Hinit Htrain Hn' Hterm Hpos. unfold train in Htrain.
  apply bind_Ok in Htrain as ([ns r] & Hit & Htrain). injection Htrain as <-.
  rewrite iterations_as_run in Hit.
  pose proof (run_keeps_ok _ _ _ _ _ _ _ Hit (constructed_nodes_ok _ _ _ Hinit))
    as Hall.
  unfold extract in Hn'. rewrite list_lookup_fmap in Hn'.
  destruct (ns !! j) as [m|] eqn:Hm; [|done]. injection Hn' as <-.
  rewrite Forall_lookup in Hall.
  destruct (Hall _ _ Hm) as ((_ & _ & Hlen) & _ & _ & _ & Hnonneg).
  destruct (is_terminal m) eqn:Htm; [congruence|].
  simpl in *. split.
  - apply total_normalise. lia.
  - by apply normalise_nonneg.
Qed.

End BuilderProofs.
(** * Further properties of the module *)

(** ** Keys *)

(** X1: the tuple that [get_infoset] builds determines the player, the
    board and the hidden count it was built from, whatever the length of
    the board: two nodes share a key of [nodes_dict] exactly when they agree
    on the three. *)
Theorem flat_infoset_inj p b hid p' b' hid' :
  flat_infoset p b hid = flat_infoset p' b' hid'
  ↔ get_infoset p b hid = get_infoset p' b' hid'.
Proof.
  unfold flat_infoset, get_infoset_tuple, get_infoset. split.
  - intros Heq. injection Heq as Hp Hrest.
    apply app_inj_tail in Hrest as [Hb Hh].
    injection Hh as ->. subst p'.
    assert (b = b') as ->; [|done].
    clear -Hb. revert b' Hb. induction b as [|c b IH]; intros [|c' b'] Hb;
      try done.
    rewrite !fmap_cons in Hb. injection Hb as -> Hb. f_equal. by apply IH.
  - by intros [= -> -> ->].
Qed.

(** ** [Node.__init__] *)

Lemma elem_of_neutral_from i b a :
  a ∈ neutral_from i b ↔ (i ≤ a)%nat ∧ b !! (a - i)%nat = Some Empty.
Proof.
  revert i. induction b as [|c b IH]; intros i; simpl.
  - split; [by intros ?%elem_of_nil|by intros [_ ?]].
  - assert (Hstep : a ∈ neutral_from (S i) b
                    ↔ (i < a)%nat ∧ (c :: b) !! (a - i)%nat = Some Empty).
    { rewrite IH. split.
      - intros [Hle Hb]. split; [lia|].
        replace (a - i)%nat with (S (a - S i)) by lia. done.
      - intros [Hlt Hb]. split; [lia|].
        replace (a - i)%nat with (S (a - S i)) in Hb by lia. done. }
    case_decide as Hc.
    + rewrite elem_of_cons, Hstep. split.
      * intros [->|[Hlt Hb]]; [|split; [lia|done]].
        split; [done|]. rewrite Nat.sub_diag. simpl. by rewrite Hc.
      * intros [Hle Hb]. destruct (decide (a = i)) as [->|Hne]; [by left|].
        right. split; [lia|done].
    + rewrite Hstep. split; [intros [Hlt Hb]; split; [lia|done]|].
      intros [Hle Hb]. split; [|done].
      destruct (decide (a = i)) as [->|Hne]; [|lia].
      rewrite Nat.sub_diag in Hb. simpl in Hb. congruence.
Qed.

Lemma neutral_from_sorted i b j1 j2 x y :
  (j1 < j2)%nat → neutral_from i b !! j1 = Some x →
  neutral_from i b !! j2 = Some y → (x < y)%nat.
Proof.
  revert i j1 j2. induction b as [|c b IH]; intros i j1 j2 Hlt H1 H2;
    simpl in *; [done|].
  case_decide.
  - destruct j2 as [|j2]; [lia|]. simpl in H2.
    destruct j1 as [|j1]; simpl in H1.
    + injection H1 as <-.
      apply list_elem_of_lookup_2, neutral_from_ge in H2. lia.
    + eapply (IH (S i) j1 j2); [lia|done..].
  - by eapply (IH (S i) j1 j2).
Qed.

Lemma length_neutral_from i b : length (neutral_from i b) = empties b.
Proof.
  unfold empties. revert i. induction b as [|c b IH]; intros i; simpl; [done|].
  rewrite filter_cons. case_decide; simpl; by rewrite IH.
Qed.

(** X2: the [pos_actions] that the constructor computes are the indices of
    the empty cells of the board, each once and in increasing order, so
    there are as many as [board.count('.')]. *)
Theorem pos_actions_empty_cells b p hid :
  (∀ a, a ∈ pos_actions (Node_init b p hid) ↔ b !! a = Some Empty)
  ∧ (∀ j1 j2 x y, (j1 < j2)%nat →
       pos_actions (Node_init b p hid) !! j1 = Some x →
       pos_actions (Node_init b p hid) !! j2 = Some y → (x < y)%nat)
  ∧ length (pos_actions (Node_init b p hid)) = empties b.
Proof.
  simpl. split_and!.
  - intros a. rewrite elem_of_neutral_from, Nat.sub_0_r.
    split; [by intros [_ ?]|]. intros ?. split; [lia|done].
  - intros j1 j2 x y. apply neutral_from_sorted.
  - apply length_neutral_from.
Qed.

(** ** [__add_stone] and the successor keys *)

Lemma empties_insert b a p :
  b !! a = Some Empty → (empties (<[a := Stone p]> b) + 1 = empties b)%nat.
Proof.
  unfold empties. revert a. induction b as [|c b IH]; intros a Ha; [done|].
  destruct a as [|a]; simpl in *.
  - injection Ha as ->. rewrite !filter_cons.
    destruct (decide (Stone p = Empty)); [done|].
    destruct (decide (Empty = Empty)); [|done]. simpl. lia.
  - rewrite !filter_cons. specialize (IH _ Ha).
    case_decide; simpl; lia.
Qed.

(** X3: the three answers of [__add_stone].  Past the end of the board the
    index raises; on an occupied cell the answer is [False] and on an empty
    one a board of the same length that differs from the given one in that
    cell only, which now holds the stone, and that has one empty cell
    less. *)
Theorem add_stone_cases b a p :
  match b !! a with
  | None => add_stone b a p = Raise IndexError
  | Some (Stone q) => add_stone b a p = Ok None
  | Some Empty =>
      ∃ b', add_stone b a p = Ok (Some b')
        ∧ length b' = length b
        ∧ b' !! a = Some (Stone p)
        ∧ (∀ j, j ≠ a → b' !! j = b !! j)
        ∧ (empties b' + 1 = empties b)%nat
  end.
Proof.
  unfold add_stone, at_index.
  destruct (b !! a) as [[|q]|] eqn:Ha; simpl; [|done..].
  eexists. split; [done|]. split_and!.
  - apply length_insert.
  - apply list_lookup_insert_eq. by eapply lookup_lt_Some.
  - intros j Hj. by apply list_lookup_insert_ne.
  - by apply empties_insert.
Qed.

Lemma forward_backward_children n a :
  match board n !! a with
  | None =>
      forward_children n a = Raise IndexError
      ∧ backward_children n a = Raise IndexError
  | Some (Stone q) =>
      forward_children n a = Raise TypeError
      ∧ backward_children n a = Ok None
  | Some Empty =>
      ∃ ks, forward_children n a = Ok ks
        ∧ backward_children n a = Ok (Some ks)
        ∧ ks = get_infoset (player n) (<[a := Stone (player n)]> (board n))
                 (h n)
               :: (if decide (0 < h n)%Z
                   then [get_infoset (player n)
                           (<[a := Stone (reverse_player (player n))]>
                              (board n)) (h n - 1)]
                   else [])
  end.
Proof.
  unfold forward_children, backward_children, add_stone, at_index.
  destruct (board n !! a) as [[|q]|] eqn:Ha; simpl; [|done..].
  case_decide; simpl; eauto.
Qed.

(** X4: the forward and the backward loop derive the same successor keys
    for an empty cell: the node's own stone there with [h] unchanged and,
    when [h > 0], the other player's stone there with [h - 1].  On an
    occupied cell the backward loop goes on to the next index, while the
    forward loop, which has no such test, raises [TypeError]; past the end
    of the board both raise [IndexError]. *)
Theorem children_of_both_passes n a :
  (board n !! a = Some Empty →
   ∃ ks, forward_children n a = Ok ks
     ∧ backward_children n a = Ok (Some ks)
     ∧ ks = get_infoset (player n) (<[a := Stone (player n)]> (board n)) (h n)
            :: (if decide (0 < h n)%Z
                then [get_infoset (player n)
                        (<[a := Stone (reverse_player (player n))]> (board n))
                        (h n - 1)]
                else []))
  ∧ (∀ q, board n !! a = Some (Stone q) →
       forward_children n a = Raise TypeError
       ∧ backward_children n a = Ok None)
  ∧ (board n !! a = None →
       forward_children n a = Raise IndexError
       ∧ backward_children n a = Raise IndexError).
Proof.
  pose proof (forward_backward_children n a) as H.
  split_and!.
  - intros Ha. by rewrite Ha in H.
  - intros q Ha. by rewrite Ha in H.
  - intros Ha. by rewrite Ha in H.
Qed.

Lemma successor_key_empties n k :
  successor_key n k →
  (empties k.1.2 + 1 = empties (board n))%nat
  ∧ length k.1.2 = length (board n) ∧ k.1.1 = player n
  ∧ (k.2 = h n ∨ (0 < h n ∧ k.2 = h n - 1)%Z).
Proof.
  intros (a & ks & Hks & Hk).
  pose proof (forward_backward_children n a) as H.
  destruct (board n !! a) as [[|q]|] eqn:Ha.
  - destruct H as (ks' & _ & Hb & ->). rewrite Hks in Hb.
    injection Hb as ->.
    apply elem_of_cons in Hk as [->|Hk]; simpl.
    + split_and!; [by apply empties_insert|apply length_insert|done|by left].
    + case_decide as Hh; [|by apply elem_of_nil in Hk].
      apply list_elem_of_singleton in Hk as ->. simpl.
      split_and!; [by apply empties_insert|apply length_insert|done|].
      right. done.
  - destruct H as [_ H]. congruence.
  - destruct H as [_ H]. congruence.
Qed.

Lemma edge_empties nodes_dict nodes i j n m :
  dict_consistent nodes_dict nodes →
  edge nodes_dict nodes i j → nodes !! i = Some n → nodes !! j = Some m →
  (empties (board m) < empties (board n))%nat.
Proof.
  intros Hdict (n0 & k & Hn0 & Hsucc & Hk) Hn Hm.
  assert (n0 = n) as -> by congruence.
  destruct (Hdict _ _ Hk) as (c & Hc & Hck).
  assert (c = m) as -> by congruence.
  destruct (successor_key_empties _ _ Hsucc) as (He & _).
  rewrite <- Hck in He. simpl in He. lia.
Qed.

Lemma edge_in_arena nodes_dict nodes i j :
  dict_consistent nodes_dict nodes → edge nodes_dict nodes i j →
  ∃ n m, nodes !! i = Some n ∧ nodes !! j = Some m.
Proof.
  intros Hdict (n & k & Hn & _ & Hk).
  destruct (Hdict _ _ Hk) as (c & Hc & _). eauto.
Qed.

Lemma path_empties nodes_dict nodes i j :
  dict_consistent nodes_dict nodes →
  tc (edge nodes_dict nodes) i j →
  ∃ n m, nodes !! i = Some n ∧ nodes !! j = Some m
    ∧ (empties (board m) < empties (board n))%nat.
Proof.
  intros Hdict Hpath. induction Hpath as [i j He|i j l He _ IH].
  - destruct (edge_in_arena _ _ _ _ Hdict He) as (n & m & Hn & Hm).
    exists n, m. split_and!; [done..|]. by eapply edge_empties.
  - destruct IH as (m & c & Hm & Hc & Hlt).
    destruct (edge_in_arena _ _ _ _ Hdict He) as (n & m' & Hn & Hm').
    assert (m' = m) as -> by congruence.
    exists n, c. split_and!; [done..|].
    pose proof (edge_empties _ _ _ _ _ _ Hdict He Hn Hm). lia.
Qed.

(** X5: the graph that [train] walks has no cycle.  Every successor key
    has one empty cell less than the node it is derived from, so along any
    path through [nodes_dict] the number of empty cells falls: no position
    is reached from itself, and the successor key of a node is never the
    key of the node itself. *)
Theorem successor_graph_acyclic nodes_dict nodes :
  dict_consistent nodes_dict nodes →
  (∀ i, ¬ tc (edge nodes_dict nodes) i i)
  ∧ (∀ i j n m, tc (edge nodes_dict nodes) i j →
       nodes !! i = Some n → nodes !! j = Some m →
       (empties (board m) < empties (board n))%nat)
  ∧ (∀ n k, successor_key n k →
       (empties k.1.2 + 1 = empties (board n))%nat ∧ k ≠ infoSet n).
Proof.
  intros Hdict. split_and!.
  - intros i Hpath.
    destruct (path_empties _ _ _ _ Hdict Hpath) as (n & m & Hn & Hm & Hlt).
    assert (m = n) as -> by congruence. lia.
  - intros i j n m Hpath Hn Hm.
    destruct (path_empties _ _ _ _ Hdict Hpath) as (n' & m' & Hn' & Hm' & Hlt).
    by assert (n' = n ∧ m' = m) as [-> ->] by (split; congruence).
  - intros n k Hsucc.
    destruct (successor_key_empties _ _ Hsucc) as (He & _).
    split; [done|]. intros ->. simpl in He. lia.
Qed.

(** ** More on [Node.getStrategy] and [Node.getAverageStrategy] *)

Lemma max0_pos (x : Qc) : 0 < x → max0 x = x.
Proof.
  intros Hx. unfold max0. case_decide as Hneg; [|done].
  exfalso. eapply Qclt_not_le; [exact Hx|]. by apply Qclt_le_weak.
Qed.

Lemma max0_scale (c x : Qc) : 0 < c → max0 (c * x) = c * max0 x.
Proof.
  intros Hc. unfold max0.
  destruct (decide (x < 0)) as [Hx|Hx].
  - rewrite decide_True; [ring|].
    apply (proj1 (Qcmult_lt_mono_pos_l x 0 c Hc)) in Hx.
    by rewrite Qcmult_0_r in Hx.
  - rewrite decide_False; [done|].
    intros Hcx. apply Hx. apply (proj2 (Qcmult_lt_mono_pos_l x 0 c Hc)).
    by rewrite Qcmult_0_r.
Qed.

Lemma total_pos (xs : list Qc) (x : Qc) :
  Forall (λ y, 0 ≤ y) xs → x ∈ xs → 0 < x → 0 < total xs.
Proof.
  intros Hall Hx Hpos. induction Hall as [|y ys Hy Hys IH].
  - by apply elem_of_nil in Hx.
  - rewrite total_cons. apply elem_of_cons in Hx as [->|Hx].
    + apply Qcplus_pos_nonneg; [done|]. by apply total_nonneg.
    + apply Qcplus_nonneg_pos; [done|]. by apply IH.
Qed.

Lemma total_scale_l (c : Qc) (xs : list Qc) :
  total ((λ x, c * x) <$> xs) = c * total xs.
Proof.
  induction xs as [|x xs IH].
  - by rewrite fmap_nil, total_nil, Qcmult_0_r.
  - rewrite fmap_cons, !total_cons, IH. ring.
Qed.

Lemma regret_matching_scale (c : Qc) (rs : list Qc) :
  0 < c → regret_matching ((λ r, c * r) <$> rs) = regret_matching rs.
Proof.
  intros Hc. unfold regret_matching.
  assert (Hmax : max0 <$> ((λ r, c * r) <$> rs)
                 = (λ x, c * x) <$> (max0 <$> rs)).
  { rewrite <- !list_fmap_compose. apply list_fmap_ext.
    intros i x _. simpl. by apply max0_scale. }
  rewrite Hmax, total_scale_l, !length_fmap. unfold normalise.
  assert (Hc0 : c ≠ 0) by (intros ->; by apply (Qclt_not_eq 0 0)).
  destruct (decide (0 < total (max0 <$> rs))) as [Hs|Hs].
  - rewrite decide_True by (by apply Qcmult_pos_pos).
    assert (Hs0 : total (max0 <$> rs) ≠ 0)
      by (intros Heq; rewrite Heq in Hs; by apply (Qclt_not_eq 0 0)).
    rewrite <- list_fmap_compose. apply list_fmap_ext. intros i x _. simpl.
    field. by split.
  - rewrite decide_False; [by rewrite !length_fmap|].
    intros Hcs. apply Hs.
    apply (proj2 (Qcmult_lt_mono_pos_l 0 (total (max0 <$> rs)) c Hc)).
    by rewrite Qcmult_0_r.
Qed.

Lemma regret_matching_proportional n :
  node_wf n → (∃ a r, regretSum n !! a = Some r ∧ 0 < r) →
  ∃ n', getStrategy n = Ok n'
    ∧ 0 < total (max0 <$> regretSum n)
    ∧ ∀ a r, regretSum n !! a = Some r →
        strategy n' !! a = Some (max0 r / total (max0 <$> regretSum n))
        ∧ (r ≤ 0 → strategy n' !! a = Some 0)
        ∧ (0 < r → ∃ s, strategy n' !! a = Some s ∧ 0 < s).
Proof.
  intros Hwf (a0 & r0 & Ha0 & Hr0).
  assert (∃ n', getStrategy n = Ok n') as [n' Hgs].
  { destruct Hwf as (Hs & Hr & Hss). eexists. apply getStrategy_ok; lia. }
  exists n'. split; [done|].
  destruct (getStrategy_wf _ _ Hwf Hgs) as (Hstrat & _ & _).
  assert (Hsum : 0 < total (max0 <$> regretSum n)).
  { apply (total_pos _ (max0 r0)).
    - apply Forall_fmap, Forall_true. intros x. apply max0_nonneg.
    - apply list_elem_of_fmap. exists r0. split; [done|].
      by eapply list_elem_of_lookup_2.
    - by rewrite max0_pos. }
  split; [done|]. intros a r Ha.
  assert (Hlook : strategy n' !! a
                  = Some (max0 r / total (max0 <$> regretSum n))).
  { rewrite Hstrat. unfold regret_matching, normalise.
    rewrite decide_True by done.
    by rewrite !list_lookup_fmap, Ha. }
  split_and!; [done| |].
  - intros Hr. rewrite Hlook, max0_nonpos by done.
    unfold Qcdiv. by rewrite Qcmult_0_l.
  - intros Hr. eexists. split; [exact Hlook|].
    rewrite max0_pos by done. unfold Qcdiv.
    apply Qcmult_pos_pos; [done|]. by apply Qcinv_pos.
Qed.

(** X6, in exact arithmetic: regret matching in proportion.  When some
    action of a node has a positive [regretSum], [getStrategy] gives every
    action its positive part divided by the sum of the positive parts, the
    quotient taken over the rationals: probability 0 to the actions whose
    regret is not positive, a positive one to the others.  (On binary64
    numbers the quotient can round to 0, or the sum overflow.)  The positive
    part and the sum are written out, not taken from the method. *)
Theorem getStrategy_proportional n :
  node_wf n → (∃ a r, regretSum n !! a = Some r ∧ 0 < r) →
  ∃ n', getStrategy n = Ok n'
    ∧ 0 < foldr Qcplus 0
            ((λ r, if decide (r < 0) then 0 else r) <$> regretSum n)
    ∧ ∀ a r, regretSum n !! a = Some r →
        strategy n' !! a
        = Some ((if decide (r < 0) then 0 else r)
                / foldr Qcplus 0
                    ((λ r, if decide (r < 0) then 0 else r) <$> regretSum n))
        ∧ (r ≤ 0 → strategy n' !! a = Some 0)
        ∧ (0 < r → ∃ s, strategy n' !! a = Some s ∧ 0 < s).
Proof.
  intros Hwf Hpos.
  destruct (regret_matching_proportional n Hwf Hpos) as (n' & Hgs & Hsum & Hall).
  rewrite total_foldr in Hsum, Hall.
  exists n'. split; [done|]. split; [exact Hsum|exact Hall].
Qed.

(** X7: the strategy depends on the regrets up to a positive factor only:
    multiplying every [regretSum] entry of a node by the same [c > 0]
    leaves the strategy that [getStrategy] computes unchanged. *)
Theorem getStrategy_scale_invariant n c :
  node_wf n → 0 < c →
  ∃ n1 n2,
    getStrategy n = Ok n1
    ∧ getStrategy (with_regretSum ((λ r, c * r) <$> regretSum n) n) = Ok n2
    ∧ strategy n2 = strategy n1.
Proof.
  intros Hwf Hc.
  assert (Hwf2 : node_wf (with_regretSum ((λ r, c * r) <$> regretSum n) n)).
  { destruct Hwf as (Hs & Hr & Hss). unfold node_wf. simpl.
    by rewrite length_fmap. }
  assert (∃ n1, getStrategy n = Ok n1) as [n1 H1].
  { destruct Hwf as (Hs & Hr & Hss). eexists. apply getStrategy_ok; lia. }
  assert (∃ n2, getStrategy
                  (with_regretSum ((λ r, c * r) <$> regretSum n) n) = Ok n2)
    as [n2 H2].
  { destruct Hwf2 as (Hs & Hr & Hss). eexists. apply getStrategy_ok; lia. }
  exists n1, n2. split_and!; [done..|].
  destruct (getStrategy_wf _ _ Hwf H1) as (-> & _ & _).
  destruct (getStrategy_wf _ _ Hwf2 H2) as (-> & _ & _).
  simpl. by apply regret_matching_scale.
Qed.

Lemma normalise_twice (xs : list Qc) :
  let avg := normalise (length xs) (total xs) xs in
  normalise (length avg) (total avg) avg = avg.
Proof.
  intros avg.
  destruct (decide (0 < length xs)%nat) as [Hlen|Hlen].
  - assert (Htot : total avg = 1) by (by apply total_normalise).
    rewrite Htot. unfold normalise at 1. rewrite decide_True by done.
    rewrite <- (list_fmap_id avg) at 2. apply list_fmap_ext.
    intros i x _. simpl. unfold Qcdiv. change (/ 1) with 1.
    by rewrite Qcmult_1_r.
  - destruct xs as [|x xs]; [|simpl in Hlen; lia].
    done.
Qed.

(** X8: [getAverageStrategy] is idempotent in exact arithmetic.  The row it
    stores sums to 1, so a second call divides by 1: it returns the same
    row and leaves the node as the first call left it.  The same holds of
    the final loop of [train] as a whole. *)
Theorem getAverageStrategy_idempotent n :
  getAverageStrategy (getAverageStrategy n).1 = getAverageStrategy n
  ∧ ∀ nodes, extract (extract nodes) = extract nodes.
Proof.
  assert (Hone : ∀ m, getAverageStrategy (getAverageStrategy m).1
                      = getAverageStrategy m).
  { intros m. unfold getAverageStrategy. simpl.
    pose proof (normalise_twice (strategySum m)) as Htw. simpl in Htw.
    rewrite Htw. done. }
  split; [apply Hone|].
  intros nodes. unfold extract. rewrite <- list_fmap_compose.
  apply list_fmap_ext. intros i m _. unfold compose.
  destruct (is_terminal m) eqn:Ht; [by rewrite Ht|].
  assert (Ht' : is_terminal (getAverageStrategy m).1 = false) by done.
  rewrite Ht'. by rewrite Hone.
Qed.

(** X9: the two methods at the edges.  On a node with no action both are
    no-ops: the loops do not run, so the quotient [1 / len] of the uniform
    fall-back is never taken.  On a node whose [regretSum] or [strategySum]
    is shorter than [strategy], [getStrategy] raises [IndexError]; entries
    of [strategySum] past the length of [strategy] are left as they are. *)
Theorem strategy_methods_edge_cases n :
  (strategy n = [] → getStrategy n = Ok n)
  ∧ (strategySum n = [] → getAverageStrategy n = (n, []))
  ∧ ((length (regretSum n) < length (strategy n))%nat
     ∨ (length (strategySum n) < length (strategy n))%nat →
     getStrategy n = Raise IndexError)
  ∧ (∀ n', getStrategy n = Ok n' →
       drop (length (strategy n)) (strategySum n')
       = drop (length (strategy n)) (strategySum n)).
Proof.
  split_and!.
  - intros Hs. destruct n as [pl na bd hh st rs ss t0 u0 p1 p2 v pa tm].
    simpl in Hs. subst st. unfold getStrategy, with_strategy, normalise.
    simpl. by rewrite drop_0.
  - intros Hs. destruct n as [pl na bd hh st rs ss t0 u0 p1 p2 v pa tm].
    simpl in Hs. subst ss.
    unfold getAverageStrategy, with_strategySum, with_strategy, normalise.
    simpl. done.
  - intros Hlt. unfold getStrategy. rewrite decide_False; [done|].
    intros [? ?]. lia.
  - intros n' Hgs. unfold getStrategy in Hgs. case_decide as Hlen; [|done].
    injection Hgs as <-. simpl. rewrite drop_app_length'; [done|].
    rewrite length_zip_with, length_take, length_normalise, length_fmap,
      length_take. lia.
Qed.

(** ** More on [FSICFR.train] *)

Section TrainerMore.

Context (game_status : nat → nat → Board → Status).
Context (num_rows num_cols : nat) (nodes_dict : gmap InfoSet nat).

(** *** What [train] never writes *)

Lemma run_step_positions s st st' :
  run_step game_status num_rows num_cols nodes_dict s st = Ok st' →
  Forall2 same_position st.1 st'.1.
Proof.
  intros Hs. apply Forall2_same_length_lookup. split.
  - by rewrite (run_step_length _ _ _ _ _ _ _ Hs).
  - intros j x y Hx Hy.
    destruct (run_step_position _ _ _ _ _ _ _ _ _ Hs Hy) as (m & Hm & Hpos).
    by assert (m = x) as -> by congruence.
Qed.

Lemma run_positions steps st st' :
  run game_status num_rows num_cols nodes_dict steps st = Ok st' →
  Forall2 same_position st.1 st'.1.
Proof.
  revert st. induction steps as [|s steps IH]; intros st Hrun.
  - injection Hrun as <-. apply Forall_Forall2_diag, Forall_true.
    apply same_position_refl.
  - unfold run in Hrun. simpl in Hrun.
    apply bind_Ok in Hrun as (st1 & Hs & Hrun).
    eapply Forall2_trans; [|by eapply run_step_positions|by eapply IH].
    intros x y z. apply same_position_trans.
Qed.

Lemma extract_positions (ns : list Node) :
  Forall2 same_position ns (extract ns).
Proof.
  unfold extract. apply Forall2_fmap_r, Forall_Forall2_diag, Forall_true.
  intros m. unfold compose. destruct (is_terminal m) eqn:Ht.
  - apply same_position_refl.
  - by repeat split.
Qed.

Lemma train_positions k nodes nodes' :
  train game_status num_rows num_cols nodes_dict k nodes = Ok nodes' →
  Forall2 same_position nodes nodes'.
Proof.
  unfold train. intros Htrain.
  apply bind_Ok in Htrain as ([ns r] & Hit & Htrain). injection Htrain as <-.
  rewrite iterations_as_run in Hit.
  pose proof (run_positions _ _ _ Hit) as Hrun. simpl in Hrun.
  eapply Forall2_trans; [|exact Hrun|apply extract_positions].
  intros x y z. apply same_position_trans.
Qed.

Lemma run_consistent steps st st' :
  run game_status num_rows num_cols nodes_dict steps st = Ok st' →
  dict_consistent nodes_dict st.1 → dict_consistent nodes_dict st'.1.
Proof.
  intros Hrun Hdict.
  apply (for_each_invariant (λ t, dict_consistent nodes_dict t.1)
           _ _ _ _ Hrun); [done|].
  intros s t t' _ Ht Hs. by eapply run_step_consistent.
Qed.

(** X10: [train] leaves the graph as it found it.  The list it returns has
    the nodes of the list it was given, in the same order, each with its
    player, board, hidden count, legal actions and terminal flag; so every
    key of [nodes_dict] still points at a node with that key. *)
Theorem train_keeps_graph k nodes nodes' :
  train game_status num_rows num_cols nodes_dict k nodes = Ok nodes' →
  length nodes' = length nodes
  ∧ (∀ j n n', nodes !! j = Some n → nodes' !! j = Some n' →
       player n' = player n ∧ board n' = board n ∧ h n' = h n
       ∧ pos_actions n' = pos_actions n ∧ is_terminal n' = is_terminal n
       ∧ num_actions n' = num_actions n)
  ∧ (dict_consistent nodes_dict nodes → dict_consistent nodes_dict nodes').
Proof.
  intros Htrain. pose proof (train_positions _ _ _ Htrain) as Hall.
  pose proof (Forall2_length _ _ _ Hall) as Hlen.
  split_and!; [done| |].
  - intros j n n' Hn Hn'. exact (Forall2_lookup_lr _ _ _ _ _ _ Hall Hn Hn').
  - intros Hdict k0 j Hj. destruct (Hdict _ _ Hj) as (c & Hc & Hck).
    destruct (Forall2_lookup_l _ _ _ _ _ Hall Hc) as (c' & Hc' & Hpos).
    exists c'. split; [done|].
    destruct Hpos as (Hp & Hb & Hh & _).
    rewrite <- Hck. unfold infoSet. by rewrite Hp, Hb, Hh.
Qed.

(** *** What a step touches *)

Lemma forward_node_frame i nodes nodes' j :
  forward_node nodes_dict i nodes = Ok nodes' →
  j ≠ i → ¬ edge nodes_dict nodes i j → nodes' !! j = nodes !! j.
Proof.
  intros Hrun Hji Hedge. unfold forward_node in Hrun.
  apply bind_Ok in Hrun as (n & Hn & Hrun). apply node_at_Ok in Hn.
  apply bind_Ok in Hrun as (nd1 & Hgs & Hrun).
  pose proof (getStrategy_fields _ _ Hgs) as Hnd1.
  rewrite <- (list_lookup_insert_ne nodes i j nd1) by done.
  apply (for_each_invariant
           (λ ns, ns !! j = <[i := nd1]> nodes !! j) _ _ _ _ Hrun); [done|].
  intros a t t' _ Ht Hbody.
  apply bind_Ok in Hbody as (ks & Hks & Hbody).
  apply (for_each_invariant
           (λ ns, ns !! j = <[i := nd1]> nodes !! j) _ _ _ _ Hbody); [done|].
  intros k s s' Hk Hs Hvc.
  destruct (visit_child_shape _ _ _ _ _ _ _ Hvc)
    as [->|(j0 & nd & c & sa & Hj0 & _ & _ & _ & ->)]; [done|].
  rewrite list_lookup_insert_ne; [done|]. intros ->. apply Hedge.
  exists n, k. split_and!; [done| |done].
  exists a, ks. split; [|done].
  pose proof (forward_backward_children nd1 a) as Hfb.
  destruct (board nd1 !! a) as [[|q]|].
  - destruct Hfb as (ks' & Hf & Hb & _).
    assert (ks' = ks) as -> by congruence.
    rewrite <- Hb. unfold backward_children. by rewrite Hnd1.
  - destruct Hfb as [Hf _]. congruence.
  - destruct Hfb as [Hf _]. congruence.
Qed.

(** X11: what one step of either pass touches.  A forward step leaves
    [u], [T] and [regretSum] of every node alone, changes [strategy] and
    [strategySum] of the expanded node only, and changes nothing at all at
    a node that is not a successor of the expanded one.  A backward step
    changes the node it is at and the scratch list, which keeps its length,
    and no other node. *)
Theorem steps_touch_only i nodes regret :
  (∀ nodes', forward_node nodes_dict i nodes = Ok nodes' →
     (∀ j, j ≠ i → ¬ edge nodes_dict nodes i j → nodes' !! j = nodes !! j)
     ∧ (∀ j m', nodes' !! j = Some m' →
          ∃ m, nodes !! j = Some m
            ∧ u m' = u m ∧ T m' = T m ∧ regretSum m' = regretSum m
            ∧ (j ≠ i →
               strategy m' = strategy m ∧ strategySum m' = strategySum m)))
  ∧ (∀ nodes' regret',
       backward_node game_status num_rows num_cols nodes_dict i
         (nodes, regret) = Ok (nodes', regret') →
       (∀ j, j ≠ i → nodes' !! j = nodes !! j)
       ∧ length nodes' = length nodes
       ∧ length regret' = length regret).
Proof.
  split.
  - intros nodes' Hrun. split.
    + intros j. by apply forward_node_frame.
    + intros j m' Hm'.
      destruct (forward_node_lookup _ _ _ _ _ _ Hrun Hm')
        as (m & Hm & _ & (Hu & HT & Hrs) & Hne & _).
      exists m. by split_and!.
  - intros nodes' regret' Hrun. split_and!.
    + intros j Hj.
      exact (backward_node_other game_status num_rows num_cols nodes_dict
               i j (nodes, regret) (nodes', regret') Hrun Hj).
    + exact (backward_node_length game_status num_rows num_cols nodes_dict
               i (nodes, regret) (nodes', regret') Hrun).
    + assert (∃ n, nodes !! i = Some n) as [n Hn].
      { unfold backward_node in Hrun. apply bind_Ok in Hrun as (n & Hn & _).
        apply node_at_Ok in Hn. eauto. }
      destruct (backward_node_shape _ _ _ _ _ _ _ _ _ _ Hrun Hn)
        as (nd1 & Hgs & Hshape).
      destruct (game_status num_rows num_cols (board n)).
      * destruct Hshape as (x & rs & Hcol & _ & _).
        assert (Hn1 : <[i := nd1]> nodes !! i = Some nd1).
        { apply list_lookup_insert_eq. by eapply lookup_lt_Some. }
        by destruct (collect_loop_only_u _ _ _ _ _ _ _ _ Hn1 Hcol) as [_ Hlen].
      * by destruct Hshape as [-> _].
      * by destruct Hshape as [-> _].
Qed.

(** *** One regret update *)

Lemma regret_mean_no_visits (t : Z) (old cfp diff : Qc) :
  (t ≠ 0)%Z → regret_mean t old 0 cfp diff = old.
Proof.
  intros Ht. unfold regret_mean. rewrite Z.add_0_r, Z2Qc_inj_0.
  assert (Hq : Qc_of_Z t ≠ 0).
  { rewrite <- Z2Qc_inj_0. intros Heq. by apply Z2Qc_inj in Heq. }
  field. done.
Qed.

Lemma regret_mean_gap (t v : Z) (old x : Qc) :
  (0 < t + v)%Z →
  let new := (Qc_of_Z t * old + Qc_of_Z v * x) / Qc_of_Z (t + v) in
  new - old = Qc_of_Z v * (x - old) / Qc_of_Z (t + v)
  ∧ x - new = Qc_of_Z t * (x - old) / Qc_of_Z (t + v).
Proof.
  intros Hpos new. subst new.
  assert (Hq : Qc_of_Z t + Qc_of_Z v ≠ 0).
  { rewrite <- Z2Qc_inj_add, <- Z2Qc_inj_0. intros Heq.
    apply Z2Qc_inj in Heq. lia. }
  rewrite !Z2Qc_inj_add. split; by field.
Qed.

Lemma regret_mean_between (t v : Z) (old cfp diff : Qc) :
  (0 ≤ t)%Z → (0 ≤ v)%Z → (0 < t + v)%Z →
  (old ≤ cfp * diff →
   old ≤ regret_mean t old v cfp diff
   ∧ regret_mean t old v cfp diff ≤ cfp * diff)
  ∧ (cfp * diff ≤ old →
     cfp * diff ≤ regret_mean t old v cfp diff
     ∧ regret_mean t old v cfp diff ≤ old).
Proof.
  intros Ht Hv Hpos. unfold regret_mean.
  rewrite <- (Qcmult_assoc (Qc_of_Z v) cfp diff).
  destruct (regret_mean_gap t v old (cfp * diff) Hpos) as [Hlo Hhi].
  cbv zeta in Hlo, Hhi.
  assert (Hinv : 0 ≤ / Qc_of_Z (t + v)).
  { apply Qclt_le_weak, Qcinv_pos. rewrite <- Z2Qc_inj_0.
    by apply (proj1 (Z2Qc_inj_lt 0 (t + v))). }
  assert (Htq : 0 ≤ Qc_of_Z t).
  { rewrite <- Z2Qc_inj_0. by apply (proj1 (Z2Qc_inj_le 0 t)). }
  assert (Hvq : 0 ≤ Qc_of_Z v).
  { rewrite <- Z2Qc_inj_0. by apply (proj1 (Z2Qc_inj_le 0 v)). }
  split; intros Hle.
  - assert (Hd : 0 ≤ cfp * diff - old).
    { unfold Qcminus. by apply (proj1 (Qcle_minus_iff old (cfp * diff))). }
    split; apply Qcle_minus_iff; fold (Qcminus);
      [change (0 ≤ (Qc_of_Z t * old + Qc_of_Z v * (cfp * diff))
                     / Qc_of_Z (t + v) - old)
      |change (0 ≤ cfp * diff
                     - (Qc_of_Z t * old + Qc_of_Z v * (cfp * diff))
                       / Qc_of_Z (t + v))];
      [rewrite Hlo|rewrite Hhi]; unfold Qcdiv;
      (apply Qcmult_nonneg_nonneg; [|done]);
      by apply Qcmult_nonneg_nonneg.
  - assert (Hd : 0 ≤ old - cfp * diff).
    { unfold Qcminus. by apply (proj1 (Qcle_minus_iff (cfp * diff) old)). }
    assert (Hneg : ∀ a b c : Qc, 0 ≤ a → 0 ≤ c → 0 ≤ - (a * b * c)
                                 ↔ 0 ≤ a * (- b) * c)
      by (intros a b c _ _; by replace (- (a * b * c)) with (a * - b * c)
                                   by ring).
    split; apply Qcle_minus_iff.
    + change (0 ≤ (Qc_of_Z t * old + Qc_of_Z v * (cfp * diff))
                    / Qc_of_Z (t + v) - cfp * diff).
      replace ((Qc_of_Z t * old + Qc_of_Z v * (cfp * diff))
                 / Qc_of_Z (t + v) - cfp * diff)
        with (- (cfp * diff
                 - (Qc_of_Z t * old + Qc_of_Z v * (cfp * diff))
                   / Qc_of_Z (t + v))) by ring.
      rewrite Hhi. unfold Qcdiv. apply Hneg; [done..|].
      apply Qcmult_nonneg_nonneg; [|done].
      apply Qcmult_nonneg_nonneg; [done|].
      by replace (- (cfp * diff - old)) with (old - cfp * diff) by ring.
    + change (0 ≤ old - (Qc_of_Z t * old + Qc_of_Z v * (cfp * diff))
                          / Qc_of_Z (t + v)).
      replace (old - (Qc_of_Z t * old + Qc_of_Z v * (cfp * diff))
                       / Qc_of_Z (t + v))
        with (- ((Qc_of_Z t * old + Qc_of_Z v * (cfp * diff))
                   / Qc_of_Z (t + v) - old)) by ring.
      rewrite Hlo. unfold Qcdiv. apply Hneg; [done..|].
      apply Qcmult_nonneg_nonneg; [|done].
      apply Qcmult_nonneg_nonneg; [done|].
      by replace (- (cfp * diff - old)) with (old - cfp * diff) by ring.
Qed.

(** X12: one regret update as a mean.  With counters that are not negative
    and a positive [T + visits], the new [regretSum[a]] lies between the
    old one and the weighted regret [cfp * (regret[a] - u)] of this round;
    it is the old one when [visits] is 0 and the regret of this round when
    [T] is 0.  No other entry of [regretSum] changes. *)
Theorem update_regret_between n regret a rs old r :
  rs !! a = Some old → regret !! a = Some r →
  (0 ≤ T n)%Z → (0 ≤ visits n)%Z → (0 < T n + visits n)%Z →
  ∃ new,
    update_regret n regret a rs = Ok (<[a := new]> rs)
    ∧ new = regret_mean (T n) old (visits n) (cfp_of n) (r - u n)
    ∧ (old ≤ cfp_of n * (r - u n) → old ≤ new ∧ new ≤ cfp_of n * (r - u n))
    ∧ (cfp_of n * (r - u n) ≤ old → cfp_of n * (r - u n) ≤ new ∧ new ≤ old)
    ∧ (visits n = 0%Z → new = old)
    ∧ (T n = 0%Z → new = cfp_of n * (r - u n)).
Proof.
  intros Hold Hr HT Hv Hpos. eexists. split_and!.
  - unfold update_regret, at_index, set_index. rewrite Hold. simpl.
    rewrite Hr. simpl. rewrite decide_False by lia.
    rewrite decide_True by (by eapply lookup_lt_Some). done.
  - done.
  - by apply regret_mean_between.
  - by apply regret_mean_between.
  - intros H0. rewrite H0. apply regret_mean_no_visits. lia.
  - intros H0. rewrite H0. unfold regret_mean.
    assert (Hq : Qc_of_Z (visits n) ≠ 0).
    { rewrite <- Z2Qc_inj_0. intros Heq. apply Z2Qc_inj in Heq. lia. }
    rewrite Z.add_0_l, Z2Qc_inj_0. by field.
Qed.

(** *** Decided positions *)

Lemma run_step_decided s j st st' m :
  run_step game_status num_rows num_cols nodes_dict s st = Ok st' →
  st.1 !! j = Some m →
  game_status num_rows num_cols (board m) ≠ InProgress →
  ∃ m', st'.1 !! j = Some m' ∧ regretSum m' = regretSum m ∧ T m' = T m
    ∧ board m' = board m.
Proof.
  intros Hs Hm Hst.
  assert (is_Some (st'.1 !! j)) as [m' Hm'].
  { apply lookup_lt_is_Some. rewrite (run_step_length _ _ _ _ _ _ _ Hs).
    by eapply lookup_lt_Some. }
  exists m'. split; [done|].
  destruct s as [i|i]; simpl in Hs.
  - apply bind_Ok in Hs as (ns & Hns & Hs). injection Hs as <-.
    destruct (forward_node_lookup _ _ _ _ _ _ Hns Hm')
      as (m0 & Hm0 & (_ & Hb & _) & (_ & HT & Hrs) & _).
    assert (m0 = m) as -> by congruence. done.
  - destruct (decide (j = i)) as [->|Hne].
    + destruct st as [nodes regret], st' as [nodes' regret'].
      destruct (backward_node_shape _ _ _ _ _ _ _ _ _ _ Hs Hm)
        as (nd1 & Hgs & Hshape).
      pose proof (getStrategy_fields _ _ Hgs) as Hnd1.
      assert (Hlt : (i < length nodes)%nat) by (by eapply lookup_lt_Some).
      simpl in Hm'.
      destruct (game_status num_rows num_cols (board m)); [done| |];
        destruct Hshape as [_ ->];
        rewrite list_lookup_insert_eq in Hm' by done;
        injection Hm' as <-; by rewrite Hnd1.
    + rewrite (backward_node_other _ _ _ _ _ _ _ _ Hs Hne) in Hm'.
      by assert (m' = m) as -> by congruence.
Qed.

(** X13: a node whose board the rule engine reports as decided never takes
    part in the regret update.  Whatever the number of rounds, its
    [regretSum] and its [T] come out of [train] as they went in. *)
Theorem decided_nodes_keep_regrets k nodes nodes' j m :
  train game_status num_rows num_cols nodes_dict k nodes = Ok nodes' →
  nodes !! j = Some m →
  game_status num_rows num_cols (board m) ≠ InProgress →
  ∃ m', nodes' !! j = Some m' ∧ regretSum m' = regretSum m ∧ T m' = T m.
Proof.
  unfold train. intros Htrain Hm Hst.
  apply bind_Ok in Htrain as ([ns r] & Hit & Htrain). injection Htrain as <-.
  rewrite iterations_as_run in Hit. unfold run in Hit.
  assert (∃ m1, ns !! j = Some m1 ∧ regretSum m1 = regretSum m ∧ T m1 = T m
                ∧ board m1 = board m) as (m1 & Hm1 & Hrs & HT & _).
  { apply (for_each_invariant
             (λ t, ∃ m1, t.1 !! j = Some m1 ∧ regretSum m1 = regretSum m
                         ∧ T m1 = T m ∧ board m1 = board m) _ _ _ _ Hit).
    - by exists m.
    - intros s t t' _ (m1 & Hm1 & Hrs & HT & Hb) Hs.
      destruct (run_step_decided _ _ _ _ _ Hs Hm1) as (m2 & Hm2 & ? & ? & ?);
        [by rewrite Hb|].
      exists m2. split_and!; congruence. }
  unfold extract. rewrite list_lookup_fmap, Hm1. simpl.
  eexists. split; [done|]. by destruct (is_terminal m1).
Qed.

(** *** The utility of a node in progress *)

Lemma weighted_zero strat a : weighted strat a 0 = 0.
Proof. unfold weighted. destruct (strat !! a); [ring|done]. Qed.

Lemma weighted_plus strat a v w :
  weighted strat a (v + w) = weighted strat a v + weighted strat a w.
Proof. unfold weighted. destruct (strat !! a); ring. Qed.

Lemma with_u_with_u x y nd : with_u y (with_u x nd) = with_u y nd.
Proof. done. Qed.

Section CollectUtility.

Context (nodes : list Node) (i : nat) (n nd1 : Node).
Context (Hn : nodes !! i = Some n).
Context (Hpos : same_position n nd1).
Context (Hdict : dict_consistent nodes_dict nodes).

Lemma collect_child_utility strat a k x r st' :
  collect_child nodes_dict i strat a k (<[i := with_u x nd1]> nodes, r)
    = Ok st' →
  k ≠ infoSet n →
  st'.1 = <[i := with_u (x + weighted strat a
                             (childUtil_of nodes_dict nodes n k)) nd1]> nodes.
Proof.
  intros Hrun Hk.
  assert (Hlt : (i < length nodes)%nat) by (by eapply lookup_lt_Some).
  unfold collect_child in Hrun. unfold childUtil_of.
  destruct (nodes_dict !! k) as [j|] eqn:Hj.
  - destruct (Hdict _ _ Hj) as (c & Hc & Hck).
    assert (Hji : j ≠ i).
    { intros ->. apply Hk. rewrite <- Hck. congruence. }
    apply bind_Ok in Hrun as (nd & Hnd & Hrun). apply node_at_Ok in Hnd.
    rewrite list_lookup_insert_eq in Hnd by done. injection Hnd as <-.
    apply bind_Ok in Hrun as (c' & Hc' & Hrun). apply node_at_Ok in Hc'.
    rewrite list_lookup_insert_ne in Hc' by done.
    assert (c' = c) as -> by congruence.
    apply bind_Ok in Hrun as (v & Hv & Hrun).
    apply bind_Ok in Hrun as (r' & Hr' & Hrun).
    apply bind_Ok in Hrun as (sa & Hsa & Hrun). injection Hrun as <-.
    apply at_index_Ok in Hsa.
    simpl. rewrite list_insert_insert_eq, Hc. unfold weighted. rewrite Hsa.
    destruct Hpos as (Hp & _). by rewrite Hp.
  - injection Hrun as <-. simpl. by rewrite weighted_zero, Qcplus_0_r.
Qed.

Lemma collect_children_utility strat a ks x r st' :
  for_each ks (collect_child nodes_dict i strat a)
    (<[i := with_u x nd1]> nodes, r) = Ok st' →
  (∀ k, k ∈ ks → k ≠ infoSet n) →
  st'.1 = <[i := with_u (x + weighted strat a
                             (total (childUtil_of nodes_dict nodes n <$> ks)))
                   nd1]> nodes.
Proof.
  revert x r. induction ks as [|k ks IH]; intros x r Hrun Hks.
  - injection Hrun as <-. simpl.
    by rewrite total_nil, weighted_zero, Qcplus_0_r.
  - simpl in Hrun. apply bind_Ok in Hrun as ([ns1 r1] & Hk & Hrun).
    pose proof (collect_child_utility _ _ _ _ _ _ Hk) as Hy.
    simpl in Hy. rewrite Hy in Hrun by (apply Hks, list_elem_of_here).
    rewrite (IH _ _ Hrun)
      by (intros k' Hk'; by apply Hks, list_elem_of_further).
    rewrite fmap_cons, total_cons, weighted_plus. do 2 f_equal. ring.
Qed.

Lemma collect_action_utility strat a x r st' :
  collect_action nodes_dict i strat a (<[i := with_u x nd1]> nodes, r)
    = Ok st' →
  st'.1 = <[i := with_u (x + weighted strat a
                             (action_contribution nodes_dict nodes n a))
                   nd1]> nodes.
Proof.
  intros Hrun.
  assert (Hlt : (i < length nodes)%nat) by (by eapply lookup_lt_Some).
  unfold collect_action in Hrun. simpl in Hrun.
  apply bind_Ok in Hrun as (nd & Hnd & Hrun). apply node_at_Ok in Hnd.
  rewrite list_lookup_insert_eq in Hnd by done. injection Hnd as <-.
  apply bind_Ok in Hrun as (ks & Hks & Hrun).
  assert (Hks' : backward_children n a = Ok ks).
  { rewrite <- Hks. unfold backward_children. simpl.
    destruct Hpos as (Hp & Hb & Hh & _). by rewrite Hp, Hb, Hh. }
  unfold action_contribution. rewrite Hks'.
  destruct ks as [ks|].
  - apply (collect_children_utility _ _ _ _ _ _ Hrun).
    intros k. by apply (backward_children_new_key n a).
  - injection Hrun as <-. simpl. by rewrite weighted_zero, Qcplus_0_r.
Qed.

Lemma collect_actions_utility strat acts x r st' :
  for_each acts (collect_action nodes_dict i strat)
    (<[i := with_u x nd1]> nodes, r) = Ok st' →
  st'.1 = <[i := with_u
                   (x + total ((λ a, weighted strat a
                                       (action_contribution nodes_dict nodes
                                          n a)) <$> acts))
                   nd1]> nodes.
Proof.
  revert x r. induction acts as [|b acts IH]; intros x r Hrun.
  - injection Hrun as <-. simpl. by rewrite total_nil, Qcplus_0_r.
  - simpl in Hrun. apply bind_Ok in Hrun as ([ns1 r1] & Hb & Hrun).
    pose proof (collect_action_utility _ _ _ _ _ Hb) as Hy.
    simpl in Hy. rewrite Hy in Hrun. rewrite (IH _ _ Hrun).
    rewrite fmap_cons, total_cons. do 2 f_equal. ring.
Qed.

End CollectUtility.

(** X14: the utility of a node in progress is added to, never set.  The
    backward step leaves in [u] the value it finds there plus, for every
    action index, the strategy of that action times the utilities of its
    successors in the map, each seen from the node's player: the sum
    starts from what [u] held before the step, whatever that is. *)
Theorem utility_accumulates i nodes regret nodes' regret' n :
  backward_node game_status num_rows num_cols nodes_dict i (nodes, regret)
    = Ok (nodes', regret') →
  nodes !! i = Some n →
  dict_consistent nodes_dict nodes →
  game_status num_rows num_cols (board n) = InProgress →
  ∃ n', nodes' !! i = Some n'
    ∧ u n' = u n
             + total ((λ a, weighted (strategy n') a
                              (action_contribution nodes_dict nodes n a))
                        <$> seq 0 (fsicfr_num_actions num_rows num_cols)).
Proof.
  intros Hrun Hn Hdict Hst.
  destruct (backward_node_shape _ _ _ _ _ _ _ _ _ _ Hrun Hn)
    as (nd1 & Hgs & Hshape).
  rewrite Hst in Hshape. destruct Hshape as (x & rs & Hcol & _ & ->).
  pose proof (getStrategy_fields _ _ Hgs) as Hnd1.
  assert (Hlt : (i < length nodes)%nat) by (by eapply lookup_lt_Some).
  assert (Hpos : same_position n nd1) by (rewrite Hnd1; by repeat split).
  rewrite <- (with_u_id nd1) in Hcol at 2.
  rewrite <- (list_insert_insert_eq nodes i (with_u (u nd1) nd1) n) in Hcol.
  rewrite (list_insert_id nodes i n) in Hcol by done.
  pose proof (collect_actions_utility _ _ _ _ Hn Hpos Hdict _ _ _ _ _ Hcol)
    as Heq.
  cbn [fst] in Heq.
  apply (f_equal (λ l, l !! i)) in Heq.
  rewrite !list_lookup_insert_eq in Heq by done.
  injection Heq as Heq.
  eexists. split; [by apply list_lookup_insert_eq|].
  cbn [u strategy with_reach with_T with_regretSum with_u].
  rewrite Heq. f_equal. by rewrite Hnd1.
Qed.

(** *** [train] returns *)

Lemma for_each_progress {A S} (P : S → Prop) (xs : list A)
    (body : A → S → result S) (s : S) :
  P s →
  (∀ x t, x ∈ xs → P t → ∃ t', body x t = Ok t' ∧ P t') →
  ∃ s', for_each xs body s = Ok s' ∧ P s'.
Proof.
  revert s. induction xs as [|x xs IH]; intros s Hs Hstep; simpl.
  - eauto.
  - destruct (Hstep x s) as (t & Ht & HPt); [apply list_elem_of_here|done|].
    rewrite Ht. simpl. apply IH; [done|].
    intros y t' Hy. apply Hstep. by apply list_elem_of_further.
Qed.

Lemma getStrategy_returns n : node_wf n → ∃ nd1, getStrategy n = Ok nd1.
Proof.
  intros (Hs & Hr & Hss). eexists. apply getStrategy_ok; lia.
Qed.

Lemma visit_child_returns i strat a k nodes t :
  dict_consistent nodes_dict nodes →
  length t = length nodes → (i < length nodes)%nat →
  (a < length strat)%nat →
  ∃ t', visit_child nodes_dict i strat a k t = Ok t'
    ∧ length t' = length nodes.
Proof.
  intros Hdict Hlen Hi Ha. unfold visit_child.
  destruct (nodes_dict !! k) as [j|] eqn:Hj; [|eauto].
  destruct (Hdict _ _ Hj) as (c & Hc & _).
  apply lookup_lt_Some in Hc.
  destruct (lookup_lt_is_Some_2 t i) as [nd Hnd]; [lia|].
  destruct (lookup_lt_is_Some_2 t j) as [c' Hc']; [lia|].
  destruct (lookup_lt_is_Some_2 strat a Ha) as [sa Hsa].
  unfold node_at, at_index. rewrite Hnd, Hc', Hsa. simpl.
  eexists. split; [done|]. by rewrite length_insert.
Qed.

Lemma forward_node_returns i nodes :
  dict_consistent nodes_dict nodes →
  Forall node_ok nodes →
  Forall (fits (fsicfr_num_actions num_rows num_cols)) nodes →
  (i < length nodes)%nat →
  ∃ nodes', forward_node nodes_dict i nodes = Ok nodes'.
Proof.
  intros Hdict Hok Hfit Hi.
  destruct (lookup_lt_is_Some_2 nodes i Hi) as [n Hn].
  rewrite Forall_lookup in Hok. rewrite Forall_lookup in Hfit.
  destruct (Hok _ _ Hn) as (Hwf & _).
  destruct (Hfit _ _ Hn) as (Hlenb & Hna & Hempty).
  destruct (getStrategy_returns _ Hwf) as [nd1 Hgs].
  destruct (getStrategy_wf _ _ Hwf Hgs) as (_ & _ & (Hs1 & _ & _)).
  pose proof (getStrategy_fields _ _ Hgs) as Hnd1.
  assert (Hb1 : board nd1 = board n) by (by rewrite Hnd1).
  assert (Hpa1 : pos_actions nd1 = pos_actions n) by (by rewrite Hnd1).
  assert (Hna1 : num_actions nd1 = num_actions n) by (by rewrite Hnd1).
  unfold forward_node, node_at. rewrite Hn. simpl. rewrite Hgs. simpl.
  destruct (for_each_progress (λ ns : list Node, length ns = length nodes)
              (pos_actions nd1)
              (λ a ns, ks ←! forward_children nd1 a;
                       for_each ks (visit_child nodes_dict i (strategy nd1) a)
                         ns)
              (<[i := nd1]> nodes)) as (ns' & Hrun & _);
    [apply length_insert| |by exists ns'].
  intros a t Ha Ht. rewrite Hpa1 in Ha. specialize (Hempty _ Ha).
  pose proof (forward_backward_children nd1 a) as Hks.
  rewrite Hb1, Hempty in Hks. destruct Hks as (ks & Hks & _ & _).
  rewrite Hks. simpl.
  apply (for_each_progress (λ ns : list Node, length ns = length nodes));
    [done|].
  intros k s _ Hlen. apply visit_child_returns; [done..|].
  apply lookup_lt_Some in Hempty. lia.
Qed.

Lemma backward_children_returns nd a :
  (a < length (board nd))%nat → ∃ ks, backward_children nd a = Ok ks.
Proof.
  intros Ha. destruct (lookup_lt_is_Some_2 _ _ Ha) as [c Hc].
  pose proof (forward_backward_children nd a) as H. rewrite Hc in H.
  destruct c as [|q]; [destruct H as (ks & _ & H & _)|destruct H as [_ H]];
    eauto.
Qed.

Lemma collect_child_returns i strat a k nodes nd1 t :
  dict_consistent nodes_dict nodes → (i < length nodes)%nat →
  (a < length strat)%nat → (a < length t.2)%nat →
  (∃ x, t.1 = <[i := with_u x nd1]> nodes) →
  ∃ t', collect_child nodes_dict i strat a k t = Ok t'
    ∧ (∃ x, t'.1 = <[i := with_u x nd1]> nodes)
    ∧ length t'.2 = length t.2.
Proof.
  intros Hdict Hi Ha Hr [x Hx]. destruct t as [ns regret]. simpl in *.
  subst ns. unfold collect_child.
  destruct (nodes_dict !! k) as [j|] eqn:Hj; [|eauto].
  destruct (Hdict _ _ Hj) as (c & Hc & _).
  apply lookup_lt_Some in Hc.
  destruct (lookup_lt_is_Some_2 (<[i := with_u x nd1]> nodes) j)
    as [c' Hc']; [by rewrite length_insert|].
  destruct (lookup_lt_is_Some_2 strat a Ha) as [sa Hsa].
  destruct (lookup_lt_is_Some_2 regret a Hr) as [v Hv].
  unfold node_at, at_index, set_index.
  rewrite list_lookup_insert_eq by done. simpl. rewrite Hc'. simpl.
  rewrite Hv. simpl. rewrite decide_True by done. simpl. rewrite Hsa. simpl.
  eexists. split; [done|]. simpl. split.
  - eexists. by rewrite list_insert_insert_eq.
  - by rewrite length_insert.
Qed.

Lemma collect_action_returns i strat a nodes nd1 t :
  dict_consistent nodes_dict nodes → (i < length nodes)%nat →
  (a < length strat)%nat → (a < length t.2)%nat →
  (a < length (board nd1))%nat →
  (∃ x, t.1 = <[i := with_u x nd1]> nodes) →
  ∃ t', collect_action nodes_dict i strat a t = Ok t'
    ∧ (∃ x, t'.1 = <[i := with_u x nd1]> nodes)
    ∧ length t'.2 = length t.2.
Proof.
  intros Hdict Hi Ha Hr Hb [x Hx]. unfold collect_action, node_at.
  rewrite Hx, list_lookup_insert_eq by done. simpl.
  destruct (backward_children_returns (with_u x nd1) a Hb) as [ks Hks].
  rewrite Hks. simpl. destruct ks as [ks|]; [|eauto].
  destruct (for_each_progress
              (λ s : TrainState,
                 (∃ y, s.1 = <[i := with_u y nd1]> nodes)
                 ∧ length s.2 = length t.2)
              ks (collect_child nodes_dict i strat a) t)
    as (t' & Hrun & HP); [eauto| |by exists t'].
  intros k s _ [Hs Hlen].
  destruct (collect_child_returns i strat a k nodes nd1 s)
    as (s' & Hs' & Hshape & Hlen'); [done..|lia|done|].
  exists s'. split_and!; [done..|lia].
Qed.

Lemma update_regret_returns nd regret a rs :
  (a < length rs)%nat → (a < length regret)%nat →
  (T nd + visits nd ≠ 0)%Z →
  ∃ rs', update_regret nd regret a rs = Ok rs' ∧ length rs' = length rs.
Proof.
  intros Ha Hr Hden. unfold update_regret, at_index, set_index.
  destruct (lookup_lt_is_Some_2 rs a Ha) as [old Hold].
  destruct (lookup_lt_is_Some_2 regret a Hr) as [v Hv].
  rewrite Hold. simpl. rewrite Hv. simpl.
  rewrite decide_False by done. rewrite decide_True by done.
  eexists. split; [done|]. by rewrite length_insert.
Qed.

Lemma backward_node_returns i st :
  dict_consistent nodes_dict st.1 →
  Forall node_ok st.1 →
  Forall (counts_ok game_status num_rows num_cols) st.1 →
  Forall (fits (fsicfr_num_actions num_rows num_cols)) st.1 →
  length st.2 = fsicfr_num_actions num_rows num_cols →
  (i < length st.1)%nat →
  ∃ st', backward_node game_status num_rows num_cols nodes_dict i st = Ok st'
    ∧ length st'.2 = length st.2.
Proof.
  destruct st as [nodes regret]. simpl.
  intros Hdict Hok Hcnt Hfit Hreg Hi.
  destruct (lookup_lt_is_Some_2 nodes i Hi) as [n Hn].
  rewrite Forall_lookup in Hok. rewrite Forall_lookup in Hfit.
  rewrite Forall_lookup in Hcnt.
  destruct (Hok _ _ Hn) as (Hwf & _).
  destruct (Hfit _ _ Hn) as (Hlenb & Hna & Hempty).
  destruct (Hcnt _ _ Hn) as (_ & _ & Hden).
  destruct (getStrategy_returns _ Hwf) as [nd1 Hgs].
  destruct (getStrategy_wf _ _ Hwf Hgs) as (_ & _ & (Hs1 & Hr1 & _)).
  pose proof (getStrategy_fields _ _ Hgs) as Hnd1.
  assert (Hb1 : board nd1 = board n) by (by rewrite Hnd1).
  assert (Hpa1 : pos_actions nd1 = pos_actions n) by (by rewrite Hnd1).
  assert (Hna1 : num_actions nd1 = num_actions n) by (by rewrite Hnd1).
  assert (HT1 : T nd1 = T n) by (by rewrite Hnd1).
  assert (Hv1 : visits nd1 = visits n) by (by rewrite Hnd1).
  unfold backward_node, node_at. rewrite Hn. simpl. rewrite Hgs. simpl.
  rewrite Hb1.
  destruct (game_status num_rows num_cols (board n)) as [|w|] eqn:Hst.
  - unfold backward_inner.
    destruct (for_each_progress
                (λ s : TrainState,
                   (∃ y, s.1 = <[i := with_u y nd1]> nodes)
                   ∧ length s.2 = length regret)
                (seq 0 (fsicfr_num_actions num_rows num_cols))
                (collect_action nodes_dict i (strategy nd1))
                (<[i := nd1]> nodes, regret))
      as ([nodesA regretA] & Hcol & [[x Hx] HlenA]).
    { split; [|done]. exists (u nd1). simpl. by rewrite with_u_id. }
    { intros a s Ha [Hs Hlen]. apply elem_of_seq in Ha.
      destruct (collect_action_returns i (strategy nd1) a nodes nd1 s)
        as (s' & Hs' & Hshape & Hlen');
        [done|done|lia|lia|rewrite Hb1; lia|done|].
      exists s'. split_and!; [done..|lia]. }
    simpl in Hx, HlenA. subst nodesA. rewrite Hcol. simpl.
    unfold node_at. rewrite list_lookup_insert_eq by done. simpl.
    destruct (for_each_progress
                (λ rs : list Qc, length rs = length (regretSum nd1))
                (pos_actions nd1)
                (update_regret (with_u x nd1) regretA)
                (regretSum nd1)) as (rs & Hupd & _); [done| |].
    { intros a rs Ha Hlen. rewrite Hpa1 in Ha. specialize (Hempty _ Ha).
      apply lookup_lt_Some in Hempty.
      destruct (update_regret_returns (with_u x nd1) regretA a rs)
        as (rs' & Hrs' & Hlen'); [lia|lia| |].
      - simpl. rewrite HT1, Hv1. specialize (Hden eq_refl). lia.
      - exists rs'. split; [done|lia]. }
    rewrite Hupd. simpl.
    rewrite list_lookup_insert_eq by (by rewrite length_insert). simpl.
    eexists. split; [done|]. done.
  - unfold node_at. case_decide; simpl;
      (rewrite list_lookup_insert_eq by (by rewrite length_insert)); simpl;
      eauto.
  - unfold node_at. simpl.
    rewrite list_lookup_insert_eq by (by rewrite length_insert). simpl.
    eauto.
Qed.

Lemma run_step_fits s st st' :
  run_step game_status num_rows num_cols nodes_dict s st = Ok st' →
  Forall (fits (fsicfr_num_actions num_rows num_cols)) st.1 →
  Forall (fits (fsicfr_num_actions num_rows num_cols)) st'.1.
Proof.
  intros Hs Hfit. apply Forall_lookup. intros j m' Hm'.
  destruct (run_step_position _ _ _ _ _ _ _ _ _ Hs Hm') as (m & Hm & Hpos).
  rewrite Forall_lookup in Hfit. destruct (Hfit _ _ Hm) as (Hb & Hna & He).
  destruct Hpos as (_ & Hb' & _ & Hpa' & _ & Hna').
  unfold fits. by rewrite Hb', Hpa', Hna'.
Qed.

Lemma run_step_returns len s st :
  arena_ok game_status num_rows num_cols nodes_dict len st →
  (step_index s < len)%nat →
  ∃ st', run_step game_status num_rows num_cols nodes_dict s st = Ok st'
    ∧ arena_ok game_status num_rows num_cols nodes_dict len st'.
Proof.
  intros (Hlen & Hreg & Hdict & Hok & Hcnt & Hfit) Hi.
  assert (∃ st', run_step game_status num_rows num_cols nodes_dict s st
                 = Ok st' ∧ length st'.2 = length st.2) as (st' & Hs & Hreg').
  { destruct s as [i|i]; simpl in *.
    - destruct (forward_node_returns i st.1) as [ns Hns]; [done..|lia|].
      rewrite Hns. simpl. eauto.
    - apply backward_node_returns; [done..|lia]. }
  exists st'. split; [done|]. unfold arena_ok. split_and!.
  - by rewrite (run_step_length _ _ _ _ _ _ _ Hs).
  - lia.
  - by eapply run_step_consistent.
  - apply (run_keeps_ok game_status num_rows num_cols nodes_dict [s] st);
      [|done]. unfold run. simpl. by rewrite Hs.
  - apply (run_counts game_status num_rows num_cols nodes_dict [s] st);
      [|done]. unfold run. simpl. by rewrite Hs.
  - by eapply run_step_fits.
Qed.

Lemma run_returns len steps st :
  arena_ok game_status num_rows num_cols nodes_dict len st →
  Forall (λ s, (step_index s < len)%nat) steps →
  ∃ st', run game_status num_rows num_cols nodes_dict steps st = Ok st'
    ∧ arena_ok game_status num_rows num_cols nodes_dict len st'.
Proof.
  intros Hst Hsteps. unfold run.
  apply (for_each_progress
           (arena_ok game_status num_rows num_cols nodes_dict len)); [done|].
  intros s t Hs Ht. apply run_step_returns; [done|].
  rewrite Forall_forall in Hsteps. by apply Hsteps.
Qed.

Lemma rounds_in_range k len :
  Forall (λ s, (step_index s < len)%nat) (rounds k len).
Proof.
  unfold rounds. apply Forall_concat, Forall_replicate. unfold round.
  apply Forall_app. split.
  - apply Forall_fmap, Forall_seq. intros j Hj. simpl. lia.
  - apply Forall_fmap, Forall_reverse, Forall_seq. intros j Hj. simpl. lia.
Qed.

Lemma train_returns_arena k nodes :
  dict_consistent nodes_dict nodes →
  Forall node_ok nodes →
  Forall (counts_ok game_status num_rows num_cols) nodes →
  Forall (fits (fsicfr_num_actions num_rows num_cols)) nodes →
  ∃ nodes', train game_status num_rows num_cols nodes_dict k nodes
            = Ok nodes'.
Proof.
  intros Hdict Hok Hcnt Hfit. unfold train.
  rewrite iterations_as_run. simpl.
  destruct (run_returns (length nodes) (rounds k (length nodes))
              (nodes, replicate (fsicfr_num_actions num_rows num_cols) 0))
    as ([ns r] & Hrun & _).
  - unfold arena_ok. simpl. by rewrite length_replicate.
  - apply rounds_in_range.
  - rewrite Hrun. simpl. eauto.
Qed.

(** *** The rounds after the first *)

Lemma add_weighted_zero (ss strat : list Qc) :
  (length ss ≤ length strat)%nat → add_weighted 0 ss strat = ss.
Proof.
  unfold add_weighted. revert strat.
  induction ss as [|x ss IH]; intros [|p strat] Hlen; simpl in *;
    [done..|lia|].
  f_equal; [ring|]. apply IH. lia.
Qed.

Lemma length_regret_matching rs : length (regret_matching rs) = length rs.
Proof. unfold regret_matching. by rewrite length_normalise, length_fmap. Qed.

Lemma getStrategy_settled n nd1 :
  node_wf n → reach_cleared n → getStrategy n = Ok nd1 →
  frozen n nd1 ∧ reach_cleared nd1 ∧ board nd1 = board n.
Proof.
  intros Hwf (Hv & Hp1 & Hp2) Hgs.
  destruct (getStrategy_wf _ _ Hwf Hgs) as (_ & Hss & _).
  pose proof (getStrategy_fields _ _ Hgs) as Hnd1.
  assert (Hw : reachWeight n = 0).
  { unfold reachWeight. by case_decide. }
  rewrite Hw, add_weighted_zero in Hss.
  - unfold frozen, reach_cleared. rewrite Hss.
    split_and!; [by rewrite Hnd1|done|by rewrite Hnd1| | | |];
      by rewrite Hnd1.
  - destruct Hwf as (_ & Hr & Hs). rewrite length_regret_matching. lia.
Qed.

Lemma add_reach_cleared sa nd c :
  reach_cleared nd → reach_cleared c → reach_cleared (add_reach sa nd c).
Proof.
  intros (Hv & Hp1 & Hp2) (Hv' & Hp1' & Hp2').
  unfold reach_cleared, add_reach. simpl. rewrite Hv, Hv', Hp1, Hp1', Hp2, Hp2'.
  split_and!; [done|case_decide; ring..].
Qed.

Lemma frozen_refl m : frozen m m.
Proof. by repeat split. Qed.

Lemma frozen_trans m1 m2 m3 : frozen m1 m2 → frozen m2 m3 → frozen m1 m3.
Proof. intros (?&?&?) (?&?&?). repeat split; congruence. Qed.

Lemma forward_node_settled i nodes nodes' :
  forward_node nodes_dict i nodes = Ok nodes' →
  Forall node_ok nodes →
  Forall (settled game_status num_rows num_cols) nodes →
  Forall2 frozen nodes nodes'
  ∧ Forall (settled game_status num_rows num_cols) nodes'.
Proof.
  intros Hrun Hok Hset.
  assert (∃ n nd1, nodes !! i = Some n ∧ getStrategy n = Ok nd1)
    as (n & nd1 & Hn & Hgs).
  { unfold forward_node in Hrun.
    apply bind_Ok in Hrun as (n & Hn & Hrun). apply node_at_Ok in Hn.
    apply bind_Ok in Hrun as (nd1 & Hnd1 & _). eauto. }
  rewrite Forall_lookup in Hok. rewrite Forall_lookup in Hset.
  destruct (Hok _ _ Hn) as (Hwf & _). destruct (Hset _ _ Hn) as (Hcl & HTn).
  destruct (getStrategy_settled _ _ Hwf Hcl Hgs) as (Hfr & Hcl1 & Hb1).
  assert (Hlt : (i < length nodes)%nat) by (by eapply lookup_lt_Some).
  assert (HP : Forall2 (λ m m', frozen m m' ∧ board m' = board m) nodes nodes'
               ∧ Forall reach_cleared nodes').
  { apply (forward_node_invariant_at _
             (λ ns, Forall2 (λ m m', frozen m m' ∧ board m' = board m)
                      nodes ns
                    ∧ Forall reach_cleared ns) _ _ _ _ _ Hrun Hn Hgs).
    - split.
      + apply Forall2_same_length_lookup. split; [by rewrite length_insert|].
        intros j x y Hx Hy. destruct (decide (j = i)) as [->|Hne].
        * rewrite list_lookup_insert_eq in Hy by done. injection Hy as <-.
          by assert (x = n) as -> by congruence.
        * rewrite list_lookup_insert_ne in Hy by done.
          assert (y = x) as -> by congruence. split; [apply frozen_refl|done].
      + apply Forall_insert; [|done]. apply Forall_lookup.
        intros j m Hm. by destruct (Hset _ _ Hm).
    - intros ns j nd c sa _ [Hall Hclr] Hnd Hc. split.
      + apply Forall2_same_length_lookup.
        pose proof (Forall2_length _ _ _ Hall) as Hlen. split;
          [by rewrite length_insert|].
        intros idx x y Hx Hy. destruct (decide (idx = j)) as [->|Hne].
        * rewrite list_lookup_insert_eq in Hy by (by eapply lookup_lt_Some).
          injection Hy as <-.
          destruct (Forall2_lookup_lr _ _ _ _ _ _ Hall Hx Hc) as [Hf Hb].
          split; [|done]. destruct Hf as (?&?&?). by repeat split.
        * rewrite list_lookup_insert_ne in Hy by done.
          exact (Forall2_lookup_lr _ _ _ _ _ _ Hall Hx Hy).
      + apply Forall_insert; [done|]. rewrite Forall_lookup in Hclr.
        apply add_reach_cleared; by eapply Hclr. }
  destruct HP as [Hall Hclr]. split.
  - eapply Forall2_impl; [exact Hall|]. by intros x y [? _].
  - apply Forall_lookup. intros j m' Hm'.
    destruct (Forall2_lookup_r _ _ _ _ _ Hall Hm') as (m & Hm & Hf & Hb).
    rewrite Forall_lookup in Hclr. split; [by eapply Hclr|].
    destruct Hf as (_ & _ & HT). rewrite Hb, HT.
    by destruct (Hset _ _ Hm).
Qed.

Lemma update_loop_no_visits (nd : Node) (regret rs rs' : list Qc) :
  for_each (pos_actions nd) (update_regret nd regret) rs = Ok rs' →
  NoDup (pos_actions nd) → visits nd = 0%Z → (T nd ≠ 0)%Z → rs' = rs.
Proof.
  intros Hupd Hnd Hv Ht.
  destruct (update_loop_spec _ _ _ _ _ Hupd Hnd) as (Hlen & Hout & Hin).
  apply list_eq. intros a.
  destruct (decide (a ∈ pos_actions nd)) as [Ha|Ha]; [|by apply Hout].
  destruct (Hin a Ha) as (_ & old & r & Hold & _ & Hnew).
  rewrite Hnew, Hold, Hv. f_equal. by apply regret_mean_no_visits.
Qed.

Lemma backward_node_settled i st st' :
  backward_node game_status num_rows num_cols nodes_dict i st = Ok st' →
  Forall node_ok st.1 →
  Forall (settled game_status num_rows num_cols) st.1 →
  Forall2 frozen st.1 st'.1
  ∧ Forall (settled game_status num_rows num_cols) st'.1.
Proof.
  destruct st as [nodes regret], st' as [nodes' regret']. simpl.
  intros Hrun Hok Hset.
  assert (∃ n, nodes !! i = Some n) as [n Hn].
  { unfold backward_node in Hrun. apply bind_Ok in Hrun as (n & Hn & _).
    apply node_at_Ok in Hn. eauto. }
  destruct (backward_node_shape _ _ _ _ _ _ _ _ _ _ Hrun Hn)
    as (nd1 & Hgs & Hshape).
  pose proof Hok as Hok'. rewrite Forall_lookup in Hok'.
  pose proof Hset as Hset'. rewrite Forall_lookup in Hset'.
  destruct (Hok' _ _ Hn) as (Hwf & Hnodup & _).
  destruct (Hset' _ _ Hn) as (Hcl & HTn).
  destruct (getStrategy_settled _ _ Hwf Hcl Hgs)
    as ((Hrs1 & Hss1 & HT1) & Hcl1 & Hb1).
  pose proof (getStrategy_fields _ _ Hgs) as Hnd1.
  assert (Hlt : (i < length nodes)%nat) by (by eapply lookup_lt_Some).
  assert (∃ n', nodes' = <[i := n']> nodes ∧ frozen n n'
                ∧ reach_cleared n' ∧ board n' = board n)
    as (n' & -> & Hfr & Hcl' & Hb').
  { destruct (game_status num_rows num_cols (board n)) as [|w|] eqn:Hst.
    - destruct Hshape as (x & rs & _ & Hupd & ->).
      eexists. split; [done|].
      assert (rs = regretSum n) as ->.
      { assert (Hpa : pos_actions (with_u x nd1) = pos_actions n)
          by (simpl; by rewrite Hnd1).
        rewrite <- Hpa in Hupd.
        apply (update_loop_no_visits _ _ _ _ Hupd).
        - by rewrite Hpa.
        - simpl. destruct Hcl1 as (Hv & _). done.
        - simpl. rewrite HT1. specialize (HTn eq_refl). lia. }
      destruct Hcl as (Hv & _).
      unfold frozen, reach_cleared. simpl. rewrite Hv, Z.add_0_r.
      by split_and!.
    - destruct Hshape as [_ ->]. eexists. split; [done|].
      unfold frozen, reach_cleared. simpl. by split_and!.
    - destruct Hshape as [_ ->]. eexists. split; [done|].
      unfold frozen, reach_cleared. simpl. by split_and!. }
  split.
  - apply Forall2_same_length_lookup. split; [by rewrite length_insert|].
    intros j x y Hx Hy. destruct (decide (j = i)) as [->|Hne].
    + rewrite list_lookup_insert_eq in Hy by done. injection Hy as <-.
      by assert (x = n) as -> by congruence.
    + rewrite list_lookup_insert_ne in Hy by done.
      assert (y = x) as -> by congruence. apply frozen_refl.
  - apply Forall_insert; [done|]. split; [done|].
    destruct Hfr as (_ & _ & HT). by rewrite Hb', HT.
Qed.

Lemma run_settled steps st st' :
  run game_status num_rows num_cols nodes_dict steps st = Ok st' →
  Forall node_ok st.1 →
  Forall (settled game_status num_rows num_cols) st.1 →
  Forall2 frozen st.1 st'.1
  ∧ Forall (settled game_status num_rows num_cols) st'.1.
Proof.
  revert st. induction steps as [|s steps IH]; intros st Hrun Hok Hset.
  - injection Hrun as <-. split; [|done].
    apply Forall_Forall2_diag, Forall_true, frozen_refl.
  - unfold run in Hrun. simpl in Hrun.
    apply bind_Ok in Hrun as (st1 & Hs & Hrun).
    assert (Hok1 : Forall node_ok st1.1).
    { apply (run_keeps_ok game_status num_rows num_cols nodes_dict [s] st);
        [|done]. unfold run. simpl. by rewrite Hs. }
    assert (Forall2 frozen st.1 st1.1
            ∧ Forall (settled game_status num_rows num_cols) st1.1)
      as [Hfr1 Hset1].
    { destruct s as [i|i]; simpl in Hs.
      - apply bind_Ok in Hs as (ns & Hns & Hs). injection Hs as <-.
        by eapply forward_node_settled.
      - by eapply backward_node_settled. }
    destruct (IH _ Hrun Hok1 Hset1) as [Hfr Hset'].
    split; [|done].
    eapply Forall2_trans; [|exact Hfr1|exact Hfr].
    intros x y z. apply frozen_trans.
Qed.

Lemma backward_node_settles i j st st' n' :
  backward_node game_status num_rows num_cols nodes_dict i st = Ok st' →
  Forall (counts_ok game_status num_rows num_cols) st.1 →
  (∀ n, st.1 !! j = Some n → settled game_status num_rows num_cols n)
  ∨ j = i →
  st'.1 !! j = Some n' → settled game_status num_rows num_cols n'.
Proof.
  destruct st as [nodes regret], st' as [nodes' regret']. simpl.
  intros Hrun Hcnt Hj Hn'.
  destruct (decide (j = i)) as [->|Hne].
  - assert (∃ n, nodes !! i = Some n) as [n Hn].
    { unfold backward_node in Hrun. apply bind_Ok in Hrun as (n & Hn & _).
      apply node_at_Ok in Hn. eauto. }
    destruct (backward_node_shape _ _ _ _ _ _ _ _ _ _ Hrun Hn)
      as (nd1 & Hgs & Hshape).
    pose proof (getStrategy_fields _ _ Hgs) as Hnd1.
    assert (Hb1 : board nd1 = board n) by (by rewrite Hnd1).
    assert (Hlt : (i < length nodes)%nat) by (by eapply lookup_lt_Some).
    rewrite Forall_lookup in Hcnt. destruct (Hcnt _ _ Hn) as (_ & _ & Hden).
    destruct (game_status num_rows num_cols (board n)) as [|w|] eqn:Hst.
    + destruct Hshape as (x & rs & _ & _ & ->).
      rewrite list_lookup_insert_eq in Hn' by done. injection Hn' as <-.
      split; [done|]. simpl. intros _. by apply Hden.
    + destruct Hshape as [_ ->].
      rewrite list_lookup_insert_eq in Hn' by done. injection Hn' as <-.
      split; [done|]. simpl. rewrite Hb1, Hst. done.
    + destruct Hshape as [_ ->].
      rewrite list_lookup_insert_eq in Hn' by done. injection Hn' as <-.
      split; [done|]. simpl. rewrite Hb1, Hst. done.
  - pose proof (backward_node_other game_status num_rows num_cols nodes_dict
                  i j (nodes, regret) (nodes', regret') Hrun Hne) as Heq.
    simpl in Heq. rewrite Heq in Hn'.
    destruct Hj as [Hj|Hj]; [by apply Hj|done].
Qed.

Lemma backward_loop_settles xs st st' j n' :
  for_each xs (backward_node game_status num_rows num_cols nodes_dict) st
    = Ok st' →
  Forall (counts_ok game_status num_rows num_cols) st.1 →
  j ∈ xs → st'.1 !! j = Some n' →
  settled game_status num_rows num_cols n'.
Proof.
  revert st. induction xs as [|x xs IH]; intros st Hrun Hcnt Hj Hn'.
  - by apply elem_of_nil in Hj.
  - simpl in Hrun. apply bind_Ok in Hrun as (st1 & Hx & Hrun).
    pose proof (backward_node_counts _ _ _ _ _ _ _ Hx Hcnt) as Hcnt1.
    destruct (decide (j ∈ xs)) as [Hin|Hnin]; [by eapply IH|].
    apply elem_of_cons in Hj as [->|Hj]; [|done].
    clear IH.
    assert (HP : (∀ n', st'.1 !! x = Some n' →
                    settled game_status num_rows num_cols n')
                 ∧ Forall (counts_ok game_status num_rows num_cols) st'.1).
    { apply (for_each_invariant
               (λ t, (∀ n', t.1 !! x = Some n' →
                        settled game_status num_rows num_cols n')
                     ∧ Forall (counts_ok game_status num_rows num_cols) t.1)
               _ _ _ _ Hrun).
      - split; [|done]. intros m Hm.
        eapply backward_node_settles; [exact Hx|done|by right|done].
      - intros i t t' _ [Ht Hc] Hi. split.
        + intros m Hm.
          eapply backward_node_settles; [exact Hi|done|by left|done].
        + by eapply backward_node_counts. }
    by apply HP.
Qed.

Lemma iteration_settles st st' :
  iteration game_status num_rows num_cols nodes_dict st = Ok st' →
  Forall (counts_ok game_status num_rows num_cols) st.1 →
  Forall (settled game_status num_rows num_cols) st'.1.
Proof.
  intros Hit Hcnt. unfold iteration in Hit.
  apply bind_Ok in Hit as (ns & Hfw & Hbw).
  assert (Hcnt1 : Forall (counts_ok game_status num_rows num_cols) ns).
  { apply (for_each_invariant
             (Forall (counts_ok game_status num_rows num_cols))
             _ _ _ _ Hfw); [done|].
    intros i t t' _ Ht Hi. by eapply forward_node_counts. }
  unfold backward_pass in Hbw. simpl in Hbw.
  apply Forall_lookup. intros j n' Hn'.
  eapply (backward_loop_settles _ _ _ j); [exact Hbw|done| |done].
  apply elem_of_reverse, elem_of_seq.
  apply lookup_lt_Some in Hn'.
  assert (length st'.1 = length ns); [|lia].
  apply (for_each_invariant (λ s, length s.1 = length ns) _ _ _ _ Hbw);
    [done|].
  intros i s s' _ Hs Hi. by rewrite (backward_node_length _ _ _ _ _ _ _ Hi).
Qed.

Lemma later_rounds_frozen k st st1 st2 :
  Forall node_ok st.1 →
  Forall (counts_ok game_status num_rows num_cols) st.1 →
  iteration game_status num_rows num_cols nodes_dict st = Ok st1 →
  iterations game_status num_rows num_cols nodes_dict k st1 = Ok st2 →
  Forall2 frozen st1.1 st2.1
  ∧ Forall (settled game_status num_rows num_cols) st2.1.
Proof.
  intros Hok Hcnt Hit Hrest.
  pose proof (iteration_settles _ _ Hit Hcnt) as Hset.
  rewrite iteration_as_run in Hit.
  pose proof (run_keeps_ok _ _ _ _ _ _ _ Hit Hok) as Hok1.
  rewrite iterations_as_run in Hrest.
  by eapply run_settled.
Qed.

(** X15: in exact arithmetic [train] learns in its first round only.  The
    backward pass clears [visits], [pSum1] and [pSum2] of every node, the
    root included, and no line sets them again; so from the second round on
    every reach weight is 0, [getStrategy] adds nothing to [strategySum],
    the regret update divides [T * regretSum[a]] by [T], and [T] grows by
    0.  Whatever the number of rounds, [train] returns the [strategySum],
    [regretSum] and [T] of every node that one round gives. *)
Theorem later_rounds_change_nothing k nodes nodesk :
  Forall node_ok nodes →
  Forall (counts_ok game_status num_rows num_cols) nodes →
  train game_status num_rows num_cols nodes_dict (S k) nodes = Ok nodesk →
  ∃ nodes1,
    train game_status num_rows num_cols nodes_dict 1 nodes = Ok nodes1
    ∧ Forall2 (λ m m', strategySum m' = strategySum m
                       ∧ regretSum m' = regretSum m ∧ T m' = T m
                       ∧ visits m' = 0%Z ∧ pSum1 m' = 0 ∧ pSum2 m' = 0)
        nodes1 nodesk.
Proof.
  intros Hok Hcnt Htrain. unfold train in *.
  apply bind_Ok in Htrain as ([ns r] & Hit & Htrain). injection Htrain as <-.
  simpl in Hit. apply bind_Ok in Hit as ([ns1 r1] & H1 & Hrest).
  exists (extract ns1). split; [cbv zeta; cbn [iterations]; by rewrite H1|].
  destruct (later_rounds_frozen k
              (nodes, replicate (fsicfr_num_actions num_rows num_cols) 0)
              (ns1, r1) (ns, r) Hok Hcnt H1 Hrest) as [Hfr Hset].
  simpl in Hfr, Hset.
  pose proof (run_positions _ _ _
                (eq_trans (eq_sym (iterations_as_run _ _ _ _ _ _)) Hrest))
    as Hpos.
  simpl in Hpos. unfold extract.
  apply Forall2_fmap. apply Forall2_same_length_lookup.
  split; [by eapply Forall2_length|].
  intros j m m' Hm Hm'.
  destruct (Forall2_lookup_lr _ _ _ _ _ _ Hfr Hm Hm') as (Hrs & Hss & HT).
  destruct (Forall2_lookup_lr _ _ _ _ _ _ Hpos Hm Hm')
    as (_ & _ & _ & _ & Hterm & _).
  rewrite Forall_lookup in Hset.
  destruct (Hset _ _ Hm') as ((Hv & Hp1 & Hp2) & _).
  rewrite Hterm. destruct (is_terminal m); simpl; [done|].
  rewrite Hss. done.
Qed.

End TrainerMore.

(** ** More on the construction *)

Section BuilderMore.

Context (Game : Type) (DarkHex : nat → nat → Game).
Context (turn_info : Game → Player) (BOARDS : Game → Player → Board).
Context (totalHidden_for_player : Game → Player → Z).
Context (valid_moves_colors : Game → Player → list nat).
Context (step : Game → Player → nat → Game * StepResult).
Context (rewind : Game → bool → Game).
Context (legality_status : nat → nat → Board → Player → Z → Status).
Context (legality_turn_info : nat → nat → Board → Player → Z → Player).
Context (num_rows num_cols : nat).

(** X16: the list and the map that the construction returns describe the
    same set of information sets.  No two nodes of the list have the same
    key, the map has as many keys as the list has nodes (the number that
    [__init_board_topSorted] prints), and a key is mapped to a position
    exactly when the node at that position has this key. *)
Theorem constructed_map_bijection fuel nodes dict :
  init_board_topSorted DarkHex turn_info BOARDS totalHidden_for_player
    valid_moves_colors step rewind legality_status legality_turn_info
    num_rows num_cols fuel = Some (nodes, dict) →
  NoDup (infoSet <$> nodes)
  ∧ size dict = length nodes
  ∧ (∀ k j, dict !! k = Some j
            ↔ ∃ n, nodes !! j = Some n ∧ infoSet n = k).
Proof.
  intros Hinit.
  destruct (init_board_topSorted_inv _ _ _ _ _ _ _ _ _ _ _ _ _ _ _ Hinit)
    as (_ & Hd & Hs).
  assert (Hnd : NoDup (infoSet <$> nodes)).
  { apply NoDup_alt. intros i j k Hi Hj.
    rewrite list_lookup_fmap in Hi. rewrite list_lookup_fmap in Hj.
    destruct (nodes !! i) as [n1|] eqn:H1; [|done].
    destruct (nodes !! j) as [n2|] eqn:H2; [|done].
    injection Hi as Hi. injection Hj as Hj.
    pose proof (Hs _ _ H1) as Hd1. pose proof (Hs _ _ H2) as Hd2.
    rewrite Hi in Hd1. rewrite Hj in Hd2. congruence. }
  split_and!; [done| |].
  - rewrite <- size_dom, <- (length_fmap infoSet nodes).
    rewrite <- (size_list_to_set (C := gset InfoSet)) by done.
    f_equal. apply set_eq. intros k.
    rewrite elem_of_dom, elem_of_list_to_set, list_elem_of_fmap. split.
    + intros [j Hj]. destruct (Hd _ _ Hj) as (n & Hn & Hk).
      exists n. split; [done|]. by eapply list_elem_of_lookup_2.
    + intros (n & -> & Hn). apply list_elem_of_lookup in Hn as [j Hj].
      exists j. by apply Hs.
  - intros k j. split; [apply Hd|].
    intros (n & Hn & <-). by apply Hs.
Qed.

(** X17: the construction hands every node to [train] as the constructor
    made it.  Apart from the terminal flag, each node of the returned list
    is [Node(board, _, player, h)] for its own board, player and hidden
    count: [T] and [u] are 0, [visits] and both reach accumulators are 1,
    the three arrays hold a zero for every cell, and the legal actions are
    the empty cells of the board. *)
Theorem constructed_nodes_fresh fuel nodes dict :
  init_board_topSorted DarkHex turn_info BOARDS totalHidden_for_player
    valid_moves_colors step rewind legality_status legality_turn_info
    num_rows num_cols fuel = Some (nodes, dict) →
  Forall (λ n,
            n = with_is_terminal (is_terminal n)
                  (Node_init (board n) (player n) (h n))
            ∧ T n = 0%Z ∧ u n = 0 ∧ visits n = 1%Z
            ∧ pSum1 n = 1 ∧ pSum2 n = 1
            ∧ regretSum n = replicate (length (board n)) 0
            ∧ strategySum n = replicate (length (board n)) 0
            ∧ strategy n = replicate (length (board n)) 0
            ∧ ∀ a, a ∈ pos_actions n ↔ board n !! a = Some Empty) nodes.
Proof.
  intros Hinit.
  destruct (init_board_topSorted_inv _ _ _ _ _ _ _ _ _ _ _ _ _ _ _ Hinit)
    as (Hall & _ & _).
  eapply Forall_impl; [exact Hall|].
  intros n [(b & p & hid & t & ->) _]. simpl. split_and!; [done..|].
  intros a. rewrite elem_of_neutral_from, Nat.sub_0_r.
  split; [by intros [_ ?]|]. intros ?. split; [lia|done].
Qed.

(** X18: what the legality check grants.  [__is_board_legal] answers
    [False] for every board with no more empty cells than hidden stones,
    whatever the rule engine says.  So the node made for a board and hidden
    count that pass the check has more legal actions than hidden stones, and
    at least one when the hidden count is not negative. *)
Theorem legal_node_has_actions b q p hid :
  ((Z.of_nat (empties b) ≤ hid)%Z →
   is_board_legal legality_status legality_turn_info num_rows num_cols
     b q p hid = false)
  ∧ (is_board_legal legality_status legality_turn_info num_rows num_cols
       b q p hid = true →
     legality_status num_rows num_cols b q hid ≠ Illegal
     ∧ legality_turn_info num_rows num_cols b q hid = p
     ∧ (hid < Z.of_nat (length (pos_actions (Node_init b p hid))))%Z
     ∧ ((0 ≤ hid)%Z → pos_actions (Node_init b p hid) ≠ [])).
Proof.
  unfold is_board_legal. fold (empties b). split.
  - intros Hle. rewrite decide_True; [done|]. by right; right.
  - case_decide as Hc; [done|]. intros _.
    assert (Hlen : length (pos_actions (Node_init b p hid)) = empties b)
      by apply length_neutral_from.
    split_and!.
    + intros Hi. apply Hc. by left.
    + destruct (decide (legality_turn_info num_rows num_cols b q hid = p));
        [done|]. exfalso. apply Hc. right. by left.
    + rewrite Hlen. destruct (decide (hid < Z.of_nat (empties b))%Z);
        [done|]. exfalso. apply Hc. right. right. lia.
    + intros Hh Hnil. rewrite Hnil in Hlen. simpl in Hlen.
      apply Hc. right. right. lia.
Qed.

(** *** What a call of [__topSort_play] leaves of its arguments *)

Lemma enter_visited game res bs node player bs1 :
  enter turn_info BOARDS totalHidden_for_player legality_status
    legality_turn_info num_rows num_cols game res bs
    = Some (node, player, bs1) →
  (BOARDS game P1 ++ BOARDS game P2 ∉ visited bs)
  ∧ bs1 = mark_visited (BOARDS game P1 ++ BOARDS game P2) bs.
Proof.
  unfold enter. intros Hrun.
  destruct res as [| |w];
    [destruct (negb _ && negb _)|destruct (negb _)|destruct (negb _ && negb _)];
    try done; case_decide; try done; by injection Hrun as <- <- <-.
Qed.

Lemma push_node_grows n bs :
  prefix (stack bs) (stack (push_node n bs))
  ∧ build_dict bs ⊆ build_dict (push_node n bs)
  ∧ visited (push_node n bs) = visited bs.
Proof.
  unfold push_node. destruct (build_dict bs !! infoSet n) eqn:Hk; [done|].
  simpl. split_and!; [by apply prefix_app_r|by apply insert_subseteq|done].
Qed.

Lemma topSort_play_grows_aux fuel game res bs game' bs' :
  topSort_play turn_info BOARDS totalHidden_for_player valid_moves_colors
    step rewind legality_status legality_turn_info num_rows num_cols
    fuel game res bs = Some (game', bs') →
  prefix (stack bs) (stack bs')
  ∧ build_dict bs ⊆ build_dict bs'
  ∧ visited bs ⊆ visited bs'.
Proof.
  revert game res bs game' bs'.
  induction fuel as [|fuel IH]; intros game res bs game' bs' Hrun; [done|].
  simpl in Hrun.
  destruct (enter _ _ _ _ _ _ _ game res bs) as [[[node pl] bs1]|] eqn:Hent;
    [|by injection Hrun as <- <-].
  destruct (enter_visited _ _ _ _ _ _ Hent) as [_ ->].
  assert (Hmono : ∀ s, prefix (stack bs) (stack s)
                       ∧ build_dict bs ⊆ build_dict s
                       ∧ visited bs ⊆ visited s →
                       prefix (stack bs) (stack (push_node node s))
                       ∧ build_dict bs ⊆ build_dict (push_node node s)
                       ∧ visited bs ⊆ visited (push_node node s)).
  { intros s (H1 & H2 & H3).
    destruct (push_node_grows node s) as (G1 & G2 & G3).
    rewrite G3. split_and!; [by etrans|by etrans|done]. }
  assert (Hstart : prefix (stack bs)
                     (stack
                        (mark_visited (BOARDS game P1 ++ BOARDS game P2) bs))
                   ∧ build_dict bs ⊆
                       build_dict
                         (mark_visited (BOARDS game P1 ++ BOARDS game P2) bs)
                   ∧ visited bs ⊆
                       visited
                         (mark_visited (BOARDS game P1 ++ BOARDS game P2) bs)).
  { simpl. split_and!; [done..|]. apply union_subseteq_r. }
  destruct (is_terminal node).
  - injection Hrun as <- <-. by apply Hmono.
  - destruct (for_moves _ _ _) as [[g2 bs2]|] eqn:Hloop; [|done].
    injection Hrun as <- <-. apply Hmono.
    apply (for_moves_invariant
             (λ s : Game * BuildState,
                prefix (stack bs) (stack s.2)
                ∧ build_dict bs ⊆ build_dict s.2
                ∧ visited bs ⊆ visited s.2)
             _ _ _ _ Hloop); [done|].
    intros a [g s] [g' s'] (H1 & H2 & H3) Hbody. simpl in *.
    destruct (step g pl a) as [g1 r].
    destruct (topSort_play _ _ _ _ _ _ _ _ _ _ fuel g1 r s)
      as [[g3 s3]|] eqn:Hrec; [|done].
    injection Hbody as <- <-.
    destruct (IH _ _ _ _ _ Hrec) as (G1 & G2 & G3).
    split_and!; by etrans.
Qed.

(** X19: a call of [__topSort_play] only adds to what it is given.  The
    stack it leaves starts with the stack it found, every key of
    [nodes_dict] keeps the node it had, and no board is taken out of
    [visited]: the first node made for an information set is the one that
    stays. *)
Theorem topSort_play_grows fuel game res bs game' bs' :
  topSort_play turn_info BOARDS totalHidden_for_player valid_moves_colors
    step rewind legality_status legality_turn_info num_rows num_cols
    fuel game res bs = Some (game', bs') →
  (∃ added, stack bs' = stack bs ++ added)
  ∧ (∀ k j, build_dict bs !! k = Some j → build_dict bs' !! k = Some j)
  ∧ (∀ b, b ∈ visited bs → b ∈ visited bs').
Proof.
  intros Hrun.
  destruct (topSort_play_grows_aux _ _ _ _ _ _ Hrun) as (H1 & H2 & H3).
  split_and!.
  - exact H1.
  - intros k j Hk. by eapply lookup_weaken.
  - intros b Hb. by apply H3.
Qed.

(** X20: a won position is not expanded.  Called with a winner as the
    result of the last step, [__topSort_play] plays no move and leaves the
    game as it is: either it returns at once, or it adds the full board to
    [visited] and pushes one node flagged terminal, the view of the winner
    and not of the player whose turn it is, unless the map has its key
    already. *)
Theorem won_position_not_expanded fuel game w bs :
  ∃ bs',
    topSort_play turn_info BOARDS totalHidden_for_player valid_moves_colors
      step rewind legality_status legality_turn_info num_rows num_cols
      (S fuel) game (Winner w) bs = Some (game, bs')
    ∧ (bs' = bs
       ∨ bs' = push_node
                 (with_is_terminal true
                    (Node_init (BOARDS game w) w
                       (totalHidden_for_player game w)))
                 (mark_visited (BOARDS game P1 ++ BOARDS game P2) bs)).
Proof.
  cbn [topSort_play]. unfold enter.
  destruct (negb _ && negb _); [eauto|].
  case_decide; [eauto|]. simpl. eauto.
Qed.

(** *** Termination *)

Lemma for_moves_progress {A S} (P : S → Prop) (xs : list A)
    (body : A → S → option S) (s : S) :
  P s →
  (∀ x t, P t → ∃ t', body x t = Some t' ∧ P t') →
  ∃ s', for_moves xs body s = Some s' ∧ P s'.
Proof.
  revert s. induction xs as [|x xs IH]; intros s Hs Hstep; simpl.
  - eauto.
  - destruct (Hstep x s Hs) as (t & Ht & HPt). rewrite Ht. by apply IH.
Qed.

Lemma for_moves_ext {A S} (xs : list A) (body1 body2 : A → S → option S)
    (s s' : S) :
  (∀ x t t', body1 x t = Some t' → body2 x t = Some t') →
  for_moves xs body1 s = Some s' → for_moves xs body2 s = Some s'.
Proof.
  intros Hext. revert s. induction xs as [|x xs IH]; intros s Hrun;
    simpl in *; [done|].
  destruct (body1 x s) as [t|] eqn:Hx; [|done].
  rewrite (Hext _ _ _ Hx). by apply IH.
Qed.

Lemma topSort_play_more_fuel fuel fuel' game res bs r :
  topSort_play turn_info BOARDS totalHidden_for_player valid_moves_colors
    step rewind legality_status legality_turn_info num_rows num_cols
    fuel game res bs = Some r →
  (fuel ≤ fuel')%nat →
  topSort_play turn_info BOARDS totalHidden_for_player valid_moves_colors
    step rewind legality_status legality_turn_info num_rows num_cols
    fuel' game res bs = Some r.
Proof.
  revert fuel' game res bs r.
  induction fuel as [|fuel IH]; intros fuel' game res bs r Hrun Hle; [done|].
  destruct fuel' as [|fuel']; [lia|]. simpl in *.
  destruct (enter _ _ _ _ _ _ _ game res bs) as [[[node pl] bs1]|]; [|done].
  destruct (is_terminal node); [done|].
  destruct (for_moves _ _ _) as [[g2 bs2]|] eqn:Hloop; [|done].
  erewrite for_moves_ext; cycle 2; [exact Hloop|exact Hrun|].
  intros a [g s] [g' s'] Hbody. simpl in *.
  destruct (step g pl a) as [g1 r1].
  destruct (topSort_play _ _ _ _ _ _ _ _ _ _ fuel g1 r1 s)
    as [[g3 s3]|] eqn:Hrec; [|done].
  rewrite (IH fuel' _ _ _ _ Hrec) by lia. done.
Qed.

Lemma topSort_play_returns (I : Game → Prop) (U : gset Board)
    fuel game res bs :
  (∀ g p a, I g → I (step g p a).1) →
  (∀ g f, I g → I (rewind g f)) →
  (∀ g, I g → BOARDS g P1 ++ BOARDS g P2 ∈ U) →
  I game → (size (U ∖ visited bs) < fuel)%nat →
  ∃ game' bs',
    topSort_play turn_info BOARDS totalHidden_for_player valid_moves_colors
      step rewind legality_status legality_turn_info num_rows num_cols
      fuel game res bs = Some (game', bs')
    ∧ I game'.
Proof.
  intros Hstep Hrew HU. revert game res bs.
  induction fuel as [|fuel IH]; intros game res bs HI Hfuel; [lia|].
  simpl.
  destruct (enter _ _ _ _ _ _ _ game res bs) as [[[node pl] bs1]|] eqn:Hent;
    [|eauto].
  destruct (enter_visited _ _ _ _ _ _ Hent) as [Hnew ->].
  assert (Hless : (size (U ∖ visited
                             (mark_visited (BOARDS game P1 ++ BOARDS game P2)
                                bs)) < fuel)%nat).
  { assert (U ∖ visited (mark_visited (BOARDS game P1 ++ BOARDS game P2) bs)
            ⊂ U ∖ visited bs) as Hsub.
    { simpl. pose proof (HU _ HI) as Hin. split.
      - intros b Hb. apply elem_of_difference in Hb as [Hb1 Hb2].
        apply elem_of_difference. split; [done|].
        intros Hb3. apply Hb2, elem_of_union. by right.
      - intros Hsub.
        assert (Hx : BOARDS game P1 ++ BOARDS game P2 ∈ U ∖ visited bs)
          by (by apply elem_of_difference).
        apply Hsub, elem_of_difference in Hx as [_ Hx]. apply Hx.
        apply elem_of_union. left. by apply elem_of_singleton. }
    apply subset_size in Hsub. lia. }
  destruct (is_terminal node); [eauto|].
  destruct (for_moves_progress
              (λ s : Game * BuildState,
                 I s.1
                 ∧ visited
                     (mark_visited (BOARDS game P1 ++ BOARDS game P2) bs)
                   ⊆ visited s.2)
              (valid_moves_colors game pl)
              (λ a '(g, s),
                 let '(g1, r) := step g pl a in
                 match
                   topSort_play turn_info BOARDS totalHidden_for_player
                     valid_moves_colors step rewind legality_status
                     legality_turn_info num_rows num_cols fuel g1 r s
                 with
                 | Some (g2, s2) =>
                     Some (rewind g2 (bool_decide (r = Failed)), s2)
                 | None => None
                 end)
              (game, mark_visited (BOARDS game P1 ++ BOARDS game P2) bs))
    as ([g' bs2] & Hloop & HI' & _); [done| |].
  - intros a [g s] [Hg Hs]. simpl in Hg, Hs.
    pose proof (Hstep g pl a Hg) as Hg1.
    destruct (step g pl a) as [g1 r]. simpl in Hg1.
    destruct (IH g1 r s Hg1) as (g2 & s2 & Hrec & Hg2).
    { eapply Nat.le_lt_trans; [|exact Hless].
      apply subseteq_size. intros b Hb.
      apply elem_of_difference in Hb as [Hb1 Hb2].
      apply elem_of_difference. split; [done|]. intros Hb3. by apply Hb2, Hs. }
    rewrite Hrec. eexists (_, _). split; [done|]. simpl. split; [by apply Hrew|].
    destruct (topSort_play_grows_aux _ _ _ _ _ _ Hrec) as (_ & _ & Hv).
    by etrans.
  - rewrite Hloop. eauto.
Qed.

(** X21: the construction terminates, and its result does not depend on
    the bound of the recursion.  A call of [__topSort_play] goes past its
    first lines only for a full-board key that [visited] does not hold yet,
    and adds it.  So for a rule engine whose states, from the start
    position on through [step] and [rewind], show boards of a finite set
    [U], the recursion is no deeper than [size U + 1], and every bound
    above [size U] gives the same list and the same map. *)
Theorem construction_terminates (I : Game → Prop) (U : gset Board) :
  I (DarkHex num_rows num_cols) →
  (∀ g p a, I g → I (step g p a).1) →
  (∀ g f, I g → I (rewind g f)) →
  (∀ g, I g → BOARDS g P1 ++ BOARDS g P2 ∈ U) →
  ∃ graph, ∀ fuel, (size U < fuel)%nat →
    init_board_topSorted DarkHex turn_info BOARDS totalHidden_for_player
      valid_moves_colors step rewind legality_status legality_turn_info
      num_rows num_cols fuel = Some graph.
Proof.
  intros Hstart Hstep Hrew HU.
  destruct (topSort_play_returns I U (S (size U)) (DarkHex num_rows num_cols)
              Continue {| stack := []; visited := ∅; build_dict := ∅ |}
              Hstep Hrew HU Hstart) as (g & bs & Hrun & _).
  { simpl. apply Nat.lt_succ_r, subseteq_size.
    intros b Hb. by apply elem_of_difference in Hb as [Hb _]. }
  eexists. intros fuel Hfuel. unfold init_board_topSorted.
  rewrite (topSort_play_more_fuel _ fuel _ _ _ _ Hrun) by lia. done.
Qed.

Lemma push_node_has n bs : is_Some (build_dict (push_node n bs) !! infoSet n).
Proof.
  unfold push_node. destruct (build_dict bs !! infoSet n) eqn:Hk; [by eexists|].
  simpl. rewrite lookup_insert_eq. by eexists.
Qed.

(** X22: the start position.  When the first call of [__topSort_play]
    rejects the start position, the construction returns an empty list and
    an empty map; when it accepts it, the key of the start node is in the
    returned map. *)
Theorem start_position_in_map fuel nodes dict :
  init_board_topSorted DarkHex turn_info BOARDS totalHidden_for_player
    valid_moves_colors step rewind legality_status legality_turn_info
    num_rows num_cols fuel = Some (nodes, dict) →
  match
    enter turn_info BOARDS totalHidden_for_player legality_status
      legality_turn_info num_rows num_cols (DarkHex num_rows num_cols)
      Continue {| stack := []; visited := ∅; build_dict := ∅ |}
  with
  | Some (node, _, _) => is_Some (dict !! infoSet node)
  | None => nodes = [] ∧ dict = ∅
  end.
Proof.
  unfold init_board_topSorted.
  destruct (topSort_play _ _ _ _ _ _ _ _ _ _ _ _ _ _) as [[g bs]|] eqn:Hrun;
    [|done].
  intros [= <- <-]. destruct fuel as [|fuel]; [done|].
  cbn [topSort_play] in Hrun.
  destruct (enter _ _ _ _ _ _ _ _ _ _) as [[[node pl] bs1]|] eqn:Hent.
  - assert (is_Some (build_dict bs !! infoSet node)) as [j Hj].
    { destruct (is_terminal node).
      - injection Hrun as _ <-. apply push_node_has.
      - destruct (for_moves _ _ _) as [[g2 bs2]|]; [|done].
        injection Hrun as _ <-. apply push_node_has. }
    rewrite lookup_fmap, Hj. by eexists.
  - injection Hrun as _ <-. simpl. split; [done|]. apply fmap_empty.
Qed.

(** *** Construction, then training *)

Context (game_status : nat → nat → Board → Status).

(** X23: the two phases of the module together.  On the graph that the
    construction returns, for a rule engine whose boards have
    [num_cols * num_rows] cells, [train] raises no exception for any number
    of rounds, and the list it returns has the length of the constructed
    one.  In exact arithmetic [strategySum] of every node not flagged
    terminal is then a probability vector, the average strategy that the
    final loop prints: no entry is negative, and the entries, added over
    the rationals, give 1. *)
Theorem construct_then_train fuel k nodes dict :
  init_board_topSorted DarkHex turn_info BOARDS totalHidden_for_player
    valid_moves_colors step rewind legality_status legality_turn_info
    num_rows num_cols fuel = Some (nodes, dict) →
  Forall (λ n, length (board n) = fsicfr_num_actions num_rows num_cols)
    nodes →
  ∃ nodes',
    train game_status num_rows num_cols dict k nodes = Ok nodes'
    ∧ length nodes' = length nodes
    ∧ ∀ j n', nodes' !! j = Some n' →
        is_terminal n' = false → (0 < num_actions n')%nat →
        foldr Qcplus 0 (strategySum n') = 1
        ∧ Forall (λ x, 0 ≤ x) (strategySum n').
Proof.
  intros Hinit Hlen.
  destruct (init_board_topSorted_inv _ _ _ _ _ _ _ _ _ _ _ _ _ _ _ Hinit)
    as (Hall & Hd & _).
  destruct (train_returns_arena game_status num_rows num_cols dict k nodes)
    as [nodes' Htrain].
  - done.
  - by eapply constructed_nodes_ok.
  - eapply Forall_impl; [exact Hall|]. intros m [Hb _].
    apply fresh_counts_ok. by apply built_node_fresh.
  - apply Forall_lookup. intros j m Hm.
    rewrite Forall_lookup in Hall. rewrite Forall_lookup in Hlen.
    destruct (Hall _ _ Hm) as [(b & p & hid & t & ->) _].
    pose proof (Hlen _ _ Hm) as Hb. simpl in Hb.
    unfold fits. simpl. split_and!; [done..|].
    intros a Ha. apply elem_of_neutral_from in Ha as [_ Ha].
    by rewrite Nat.sub_0_r in Ha.
  - exists nodes'. split_and!; [done| |].
    + symmetry. eapply Forall2_length. by eapply train_positions.
    + intros j n' Hn' Hterm Hpos. rewrite <- total_foldr.
      by eapply (train_average_strategy Game DarkHex).
Qed.

End BuilderMore.

(** * The statements on concrete boards *)

(** A one-node arena: an empty 1 × 1 board with [visits = 2], both reach
    accumulators 1, and 3 in the scratch list. *)
Lemma regretSum_weighted_mean_witness :
  ∃ nodes' regret' n',
    backward_node MiniHex.game_status 1 1 ∅ 0
      ([with_reach 2 1 1 (Node_init [Empty] P1 0)], [Qc_of_Z 3])
      = Ok (nodes', regret')
    ∧ nodes' !! 0%nat = Some n' ∧ T n' = 2%Z
    ∧ regretSum n' !! 0%nat = Some (Qc_of_Z 3).
Proof.
  edestruct (regretSum_weighted_mean MiniHex.game_status 1 1 ∅ 0
               [with_reach 2 1 1 (Node_init [Empty] P1 0)] [Qc_of_Z 3])
    as ((n' & Hn' & HT & Hupd) & _ & _).
  - vm_compute. reflexivity.
  - reflexivity.
  - vm_compute. reflexivity.
  - simpl. apply NoDup_cons. split; [apply not_elem_of_nil|apply NoDup_nil_2].
  - eexists _, _, n'. split; [vm_compute; reflexivity|].
    split; [exact Hn'|]. split; [exact HT|].
    destruct (Hupd 0%nat) as (_ & old & r & Hold & Hr & Hnew);
      [simpl; apply list_elem_of_here|].
    rewrite Hnew. f_equal. injection Hold as <-. injection Hr as <-.
    injection Hn' as <-. apply Qc_is_canon. by vm_compute.
Defined.

(** C5 on a node of three cells, one of them occupied, with no positive
    regret: a third for every index, the occupied one included. *)
Lemma getStrategy_distribution_witness :
  ∃ n', getStrategy (Node_init [Empty; Stone P1; Empty] P2 1) = Ok n'
    ∧ length (strategy n') = 3%nat
    ∧ Forall (λ x, 0 ≤ x) (strategy n')
    ∧ foldr Qcplus 0 (strategy n') = 1
    ∧ (Forall (λ r, r ≤ 0) (replicate 3 (0 : Qc)) →
       strategy n' = replicate 3 (1 / Qc_of_Z (Z.of_nat 3)))
    ∧ this <$> strategy n' = [1 # 3; 1 # 3; 1 # 3]%Q.
Proof.
  destruct (getStrategy_distribution (Node_init [Empty; Stone P1; Empty] P2 1))
    as (n' & Hgs & Hlen & Hnn & Hsum & Hunif).
  - apply Node_init_wf.
  - simpl. lia.
  - exists n'. split_and!; [done..|].
    vm_compute in Hgs. injection Hgs as <-. vm_compute. reflexivity.
Defined.

(** C8 on a row that sums to 4. *)
Lemma getAverageStrategy_normalises_witness :
  let n := with_strategySum [Q2Qc 1; Q2Qc 3] (Node_init [Empty; Empty] P1 0) in
  (strategySum (getAverageStrategy n).1 = (getAverageStrategy n).2
   ∧ strategy (getAverageStrategy n).1 = strategy n
   ∧ regretSum (getAverageStrategy n).1 = regretSum n
   ∧ length (getAverageStrategy n).2 = 2%nat
   ∧ (0 < foldr Qcplus 0 (strategySum n) →
      (getAverageStrategy n).2
      = (λ x, x / foldr Qcplus 0 (strategySum n)) <$> strategySum n)
   ∧ (¬ 0 < foldr Qcplus 0 (strategySum n) →
      (getAverageStrategy n).2 = replicate 2 (1 / Qc_of_Z (Z.of_nat 2)))
   ∧ foldr Qcplus 0 (getAverageStrategy n).2 = 1
   ∧ (Forall (λ x, 0 ≤ x) (strategySum n) →
      Forall (λ x, 0 ≤ x) (getAverageStrategy n).2))
  ∧ this <$> (getAverageStrategy n).2 = [1 # 4; 3 # 4]%Q.
Proof.
  split.
  - apply (getAverageStrategy_normalises
             (with_strategySum [Q2Qc 1; Q2Qc 3] (Node_init [Empty; Empty] P1 0))).
    + reflexivity.
    + simpl. lia.
  - vm_compute. reflexivity.
Defined.

(** ** The two methods on binary64 numbers *)

Section FloatRuns.

Import PrimFloat.

(** C5 fails in the arithmetic of the arrays.  With regrets 1, 4 and 1 the
    three quotients are the binary64 numbers next to 1/6, 2/3 and 1/6, and
    their sum is [0x1.fffffffffffffp-1], the number just below 1 that
    Python prints as 0.9999999999999999.  With two regrets of 2^1023 the
    sum of the positive parts is [inf], both quotients are 0, and the
    strategy sums to 0. *)
Lemma getStrategy_sum_rounds :
  ∃ n1 n2,
    F64.getStrategy
      {| F64.player := P1; F64.strategy := [0; 0; 0]%float;
         F64.regretSum := [1; 4; 1]%float;
         F64.strategySum := [0; 0; 0]%float;
         F64.pSum1 := 1%float; F64.pSum2 := 1%float |} = Ok n1
    ∧ F64.strategy n1
      = [0x1.5555555555555p-3; 0x1.5555555555555p-1;
         0x1.5555555555555p-3]%float
    ∧ foldl add 0%float (F64.strategy n1) = 0x1.fffffffffffffp-1%float
    ∧ ltb (foldl add 0%float (F64.strategy n1)) 1 = true
    ∧ F64.getStrategy
        {| F64.player := P1; F64.strategy := [0; 0]%float;
           F64.regretSum := [0x1p1023; 0x1p1023]%float;
           F64.strategySum := [0; 0]%float;
           F64.pSum1 := 1%float; F64.pSum2 := 1%float |} = Ok n2
    ∧ F64.strategy n2 = [0; 0]%float
    ∧ foldl add 0%float (F64.strategy n2) = 0%float.
Proof.
  eexists _, _. split; [vm_compute; reflexivity|].
  split; [reflexivity|]. split; [vm_compute; reflexivity|].
  split; [vm_compute; reflexivity|].
  split; [vm_compute; reflexivity|].
  split; [reflexivity|]. vm_compute. reflexivity.
Qed.

(** C8 fails in the arithmetic of the arrays.  A [strategySum] of 1, 4
    and 1 becomes a row that sums to [0x1.fffffffffffffp-1], just below 1;
    the nine zeros of a node of the 3 × 3 board, the default of
    [FSICFR], become nine times the binary64 number next to 1/9, which sum
    to [0x1.0000000000001p+0], the number just above 1 that Python prints
    as 1.0000000000000002. *)
Lemma getAverageStrategy_sum_rounds :
  ∃ row row9,
    (F64.getAverageStrategy
       {| F64.player := P1; F64.strategy := [0; 0; 0]%float;
          F64.regretSum := [0; 0; 0]%float;
          F64.strategySum := [1; 4; 1]%float;
          F64.pSum1 := 1%float; F64.pSum2 := 1%float |}).2 = row
    ∧ row = [0x1.5555555555555p-3; 0x1.5555555555555p-1;
             0x1.5555555555555p-3]%float
    ∧ foldl add 0%float row = 0x1.fffffffffffffp-1%float
    ∧ ltb (foldl add 0%float row) 1 = true
    ∧ (F64.getAverageStrategy
         {| F64.player := P1; F64.strategy := replicate 9 0%float;
            F64.regretSum := replicate 9 0%float;
            F64.strategySum := replicate 9 0%float;
            F64.pSum1 := 1%float; F64.pSum2 := 1%float |}).2 = row9
    ∧ row9 = replicate 9 0x1.c71c71c71c71cp-4%float
    ∧ foldl add 0%float row9 = 0x1.0000000000001p+0%float
    ∧ ltb 1 (foldl add 0%float row9) = true.
Proof.
  eexists _, _. split; [vm_compute; reflexivity|].
  split; [reflexivity|]. split; [vm_compute; reflexivity|].
  split; [vm_compute; reflexivity|].
  split; [vm_compute; reflexivity|].
  split; [reflexivity|]. split; vm_compute; reflexivity.
Qed.

End FloatRuns.

(** The three graphs are what the construction returns. *)
Lemma graph_of_Some (r : option (list Node * gmap InfoSet nat)) :
  MiniHex.returned r = true →
  r = Some ((MiniHex.graph_of r).1, (MiniHex.graph_of r).2).
Proof. by destruct r as [[ns d]|]. Qed.

Lemma row_graph_built :
  MiniHex.build 1 2 5 = Some (MiniHex.row_graph.1, MiniHex.row_graph.2).
Proof. apply graph_of_Some. vm_compute. reflexivity. Qed.

Lemma column_graph_built :
  MiniHex.build 2 1 5 = Some (MiniHex.column_graph.1, MiniHex.column_graph.2).
Proof. apply graph_of_Some. vm_compute. reflexivity. Qed.

Lemma square_graph_built :
  MiniHex.build 2 2 12 = Some (MiniHex.square_graph.1, MiniHex.square_graph.2).
Proof. apply graph_of_Some. vm_compute. reflexivity. Qed.

Lemma row_graph_keys :
  infoSet <$> MiniHex.row_graph.1
  = [(P1, [Empty; Empty], 0%Z); (P1, [Empty; Stone P1], 0%Z);
     (P1, [Stone P1; Empty], 0%Z)].
Proof. vm_compute. reflexivity. Qed.

Lemma column_graph_keys :
  infoSet <$> MiniHex.column_graph.1
  = [(P1, [Empty; Empty], 0%Z); (P2, [Empty; Stone P1], 0%Z);
     (P2, [Empty; Empty], 1%Z); (P2, [Stone P1; Empty], 0%Z)].
Proof. vm_compute. reflexivity. Qed.

(** C2 on the 2 × 2 graph, at the node of position 47: [P1]'s view with
    its own stone on cell 0 and a stone of [P2] on cell 1.  The first round
    finds it with [T = 0] and [visits = 2]; it leaves 0 in the two entries
    of [regretSum] that belong to the occupied cells, 3/2 and -1/2 in the
    others, and 5/8 in every entry of [strategySum]: with [pSum2 = 2], the
    scratch list 0, 0, 1, 0 and [u = 1/4], the two means are
    [2 · 2 · (1 - 1/4) / 2] and [2 · 2 · (0 - 1/4) / 2]. *)
Lemma round_clears_reach_witness :
  ∃ st' nodesA nA nodesF nF stB stJ n',
    iteration MiniHex.game_status 2 2 MiniHex.square_graph.2
      (MiniHex.square_graph.1, replicate 4 0) = Ok st'
    ∧ (∀ j m', st'.1 !! j = Some m' →
         visits m' = 0%Z ∧ pSum1 m' = 0 ∧ pSum2 m' = 0)
    ∧ for_each (seq 0 47) (forward_node MiniHex.square_graph.2)
        MiniHex.square_graph.1 = Ok nodesA
    ∧ nodesA !! 47%nat = Some nA
    ∧ forward_pass MiniHex.square_graph.2 MiniHex.square_graph.1 = Ok nodesF
    ∧ nodesF !! 47%nat = Some nF
    ∧ for_each
        (reverse
           (seq 48 (length (MiniHex.square_graph.1, replicate 4 (0 : Qc)).1
                    - 48)))
        (backward_node MiniHex.game_status 2 2 MiniHex.square_graph.2)
        (nodesF, replicate 4 0) = Ok stB
    ∧ backward_node MiniHex.game_status 2 2 MiniHex.square_graph.2 47 stB
      = Ok stJ
    ∧ st'.1 !! 47%nat = Some n'
    ∧ (∀ a acc s,
         replicate 4 (0 : Qc) !! a = Some acc → strategy n' !! a = Some s →
         strategySum n' !! a = Some (acc + s * pSum1 nA + s * pSum1 nF))
    ∧ T n' = (0 + visits nF)%Z
    ∧ (∀ a old, replicate 4 (0 : Qc) !! a = Some old →
         (a ∉ [2; 3]%nat → regretSum n' !! a = Some old)
         ∧ (a ∈ [2; 3]%nat →
            ∃ r, stJ.2 !! a = Some r
              ∧ regretSum n' !! a
                = Some ((Qc_of_Z 0 * old
                         + Qc_of_Z (visits nF) * pSum2 nF * (r - u n'))
                        / Qc_of_Z (0 + visits nF))))
    ∧ board n' = [Stone P1; Stone P2; Empty; Empty]
    ∧ visits nF = 2%Z
    ∧ this <$> stJ.2 = [0; 0; 1; 0]%Q ∧ this (pSum2 nF) = 2%Q
    ∧ this (u n') = (1 # 4)%Q
    ∧ this <$> regretSum n' = [0; 0; 3 # 2; -1 # 2]%Q
    ∧ this <$> strategySum n' = [5 # 8; 5 # 8; 5 # 8; 5 # 8]%Q.
Proof.
  assert (∃ st', iteration MiniHex.game_status 2 2 MiniHex.square_graph.2
                   (MiniHex.square_graph.1, replicate 4 0) = Ok st')
    as [st' Hit] by (eexists; vm_compute; reflexivity).
  destruct (round_clears_reach MiniHex.game_status 2 2 MiniHex.square_graph.2
              (MiniHex.square_graph.1, replicate 4 0) st' Hit)
    as (Hclr & Hnode & _).
  destruct (Hnode 47%nat (Node_init [Stone P1; Stone P2; Empty; Empty] P1 0))
    as (nodesA & nA & nodesF & nF & stB & stJ & n' & HA & HnA & HF & HnF
        & HB & HJ & Hn' & _ & Hss & _ & _ & Hprog).
  - vm_compute. reflexivity.
  - apply Node_init_wf.
  - apply NoDup_neutral_from.
  - destruct Hprog as [HT Hrs]; [vm_compute; reflexivity|].
    exists st', nodesA, nA, nodesF, nF, stB, stJ, n'.
    split; [exact Hit|]. split; [exact Hclr|].
    split; [exact HA|]. split; [exact HnA|].
    split; [exact HF|]. split; [exact HnF|]. split; [exact HB|].
    split; [exact HJ|]. split; [exact Hn'|].
    split; [exact Hss|]. split; [exact HT|]. split; [exact Hrs|].
    split_and!.
    + vm_compute in Hit. injection Hit as <-.
      vm_compute in Hn'. injection Hn' as <-. reflexivity.
    + vm_compute in HF. injection HF as <-.
      vm_compute in HnF. injection HnF as <-. reflexivity.
    + vm_compute in HF. injection HF as <-.
      vm_compute in HB. injection HB as <-.
      vm_compute in HJ. injection HJ as <-. vm_compute. reflexivity.
    + vm_compute in HF. injection HF as <-.
      vm_compute in HnF. injection HnF as <-. reflexivity.
    + vm_compute in Hit. injection Hit as <-.
      vm_compute in Hn'. injection Hn' as <-. vm_compute. reflexivity.
    + vm_compute in Hit. injection Hit as <-.
      vm_compute in Hn'. injection Hn' as <-. vm_compute. reflexivity.
    + vm_compute in Hit. injection Hit as <-.
      vm_compute in Hn'. injection Hn' as <-. vm_compute. reflexivity.
Defined.

(** C2 fails for [u]: after one round on the 1 × 2 graph the node at index
    1, a board won by its player, has cleared reach accumulators and
    [u = 1]. *)
Lemma round_keeps_utility :
  ∃ st' n',
    iteration MiniHex.game_status 1 2 MiniHex.row_graph.2
      (MiniHex.row_graph.1, replicate 2 0) = Ok st'
    ∧ st'.1 !! 1%nat = Some n'
    ∧ visits n' = 0%Z ∧ pSum1 n' = 0 ∧ pSum2 n' = 0
    ∧ u n' = 1 ∧ u n' ≠ 0.
Proof.
  eexists _, _. split; [vm_compute; reflexivity|].
  split; [reflexivity|]. split_and!; [reflexivity..|].
  intros Hu. by apply (f_equal this) in Hu.
Qed.

(** C3 on the 2 × 2 board of the module's own call: the node at index 28 is
    [P2]'s view of the empty board with one hidden stone; its successor for
    cell 1, the view that shows [P1]'s stone there with no hidden stone
    left, is in the map and sits at index 17, before its parent. *)
Lemma successor_before_parent :
  ∃ n,
    MiniHex.build 2 2 12
      = Some (MiniHex.square_graph.1, MiniHex.square_graph.2)
    ∧ MiniHex.square_graph.1 !! 28%nat = Some n
    ∧ infoSet n = (P2, [Empty; Empty; Empty; Empty], 1%Z)
    ∧ forward_children n 1
      = Ok [(P2, [Empty; Stone P2; Empty; Empty], 1%Z);
            (P2, [Empty; Stone P1; Empty; Empty], 0%Z)]
    ∧ MiniHex.square_graph.2 !! (P2, [Empty; Stone P1; Empty; Empty], 0%Z)
      = Some 17%nat
    ∧ (17 < 28)%nat.
Proof.
  eexists. split; [exact square_graph_built|].
  split; [vm_compute; reflexivity|].
  split_and!; [reflexivity|reflexivity|vm_compute; reflexivity|lia].
Qed.

(** The same on the 2 × 1 board, where the whole list has four nodes. *)
Lemma successor_before_parent_column :
  ∃ n,
    MiniHex.column_graph.1 !! 2%nat = Some n
    ∧ infoSet n = (P2, [Empty; Empty], 1%Z)
    ∧ forward_children n 1
      = Ok [(P2, [Empty; Stone P2], 1%Z); (P2, [Empty; Stone P1], 0%Z)]
    ∧ MiniHex.column_graph.2 !! (P2, [Empty; Stone P1], 0%Z) = Some 1%nat.
Proof.
  eexists. split; [vm_compute; reflexivity|].
  split_and!; [reflexivity|reflexivity|vm_compute; reflexivity].
Qed.

(** C4 fails on the 1 × 2 board: [P1] wins by its first stone, the node of
    that position is [P1]'s view with [P2] to move, which the legality check
    rejects, and the look-ahead keeps it in the map. *)
Lemma lookahead_keeps_rejected_key :
  MiniHex.build 1 2 5 = Some (MiniHex.row_graph.1, MiniHex.row_graph.2)
  ∧ MiniHex.row_graph.2 !! (P1, [Stone P1; Empty], 0%Z) = Some 2%nat
  ∧ MiniHex.legality_turn_info 1 2 [Stone P1; Empty] P2 0 = P2
  ∧ is_board_legal MiniHex.legality_status MiniHex.legality_turn_info 1 2
      [Stone P1; Empty] (reverse_player P1) P1 0 = false.
Proof.
  split; [exact row_graph_built|].
  split_and!; vm_compute; reflexivity.
Qed.

(** On that board the winner's node is the node of a call that the
    construction makes, and what admits it there is the look-ahead. *)
Lemma map_keys_admitted_witness :
  ∃ n game res bs bs1,
    MiniHex.row_graph.1 !! 2%nat = Some n
    ∧ infoSet n = (P1, [Stone P1; Empty], 0%Z)
    ∧ calls MiniHex.turn_info MiniHex.BOARDS MiniHex.totalHidden_for_player
        MiniHex.valid_moves_colors MiniHex.step MiniHex.rewind
        MiniHex.legality_status MiniHex.legality_turn_info 1 2
        5 (MiniHex.new_game 1 2) Continue
        {| stack := []; visited := ∅; build_dict := ∅ |} game res bs
    ∧ enter MiniHex.turn_info MiniHex.BOARDS MiniHex.totalHidden_for_player
        MiniHex.legality_status MiniHex.legality_turn_info 1 2 game res bs
      = Some (n, player n, bs1)
    ∧ player n = match res with
                 | Winner w => w
                 | _ => MiniHex.turn_info game
                 end
    ∧ board n = MiniHex.BOARDS game (player n)
    ∧ h n = MiniHex.totalHidden_for_player game (player n)
    ∧ (is_board_legal MiniHex.legality_status MiniHex.legality_turn_info 1 2
         (board n) (reverse_player (player n)) (player n) (h n) = true
       ∨ (res ≠ Failed
          ∧ is_board_legal MiniHex.legality_status
              MiniHex.legality_turn_info 1 2
              (MiniHex.BOARDS game (reverse_player (player n))) (player n)
              (reverse_player (player n))
              (MiniHex.totalHidden_for_player game
                 (reverse_player (player n)))
            = true)).
Proof.
  apply (map_keys_admitted MiniHex.Game MiniHex.new_game MiniHex.turn_info
           MiniHex.BOARDS MiniHex.totalHidden_for_player
           MiniHex.valid_moves_colors MiniHex.step MiniHex.rewind
           MiniHex.legality_status MiniHex.legality_turn_info 1 2 5
           MiniHex.row_graph.1 MiniHex.row_graph.2
           (P1, [Stone P1; Empty], 0%Z) 2).
  - exact row_graph_built.
  - vm_compute. reflexivity.
Defined.

(** C6 on the 2 × 1 graph: the forward pass of the first round has run and
    the backward pass is about to update the node at index 3. *)
Lemma denominator_positive_witness :
  ∃ st n,
    run MiniHex.game_status 2 1 MiniHex.column_graph.2 (Fwd <$> seq 0 4)
      (MiniHex.column_graph.1, replicate 2 0) = Ok st
    ∧ st.1 !! 3%nat = Some n
    ∧ MiniHex.game_status 2 1 (board n) = InProgress
    ∧ Forall (λ m, visits m = 1%Z ∧ T m = 0%Z) MiniHex.column_graph.1
    ∧ (0 < T n + visits n)%Z
    ∧ ¬ (visits n = 0 ∧ T n = 0)%Z
    ∧ train MiniHex.game_status 2 1 MiniHex.column_graph.2 1
        MiniHex.column_graph.1 ≠ Raise NotFinite.
Proof.
  eexists _, _. split; [vm_compute; reflexivity|].
  split; [reflexivity|]. split; [vm_compute; reflexivity|].
  eapply (denominator_positive MiniHex.Game MiniHex.new_game MiniHex.turn_info
            MiniHex.BOARDS MiniHex.totalHidden_for_player
            MiniHex.valid_moves_colors MiniHex.step MiniHex.rewind
            MiniHex.legality_status MiniHex.legality_turn_info 2 1
            MiniHex.game_status 5 1 MiniHex.column_graph.1
            MiniHex.column_graph.2 (Fwd <$> seq 0 4) 3
            (Bwd <$> [2; 1; 0]%nat)).
  - exact column_graph_built.
  - vm_compute. reflexivity.
  - vm_compute. reflexivity.
  - reflexivity.
  - vm_compute. reflexivity.
Defined.



(** C9 on the 2 × 2 graph, at the last backward step of the first round,
    the one that updates the root. *)
Lemma scratch_accumulates_witness :
  ∃ st st',
    run MiniHex.game_status 2 2 MiniHex.square_graph.2
      ((Fwd <$> seq 0 51) ++ (Bwd <$> reverse (seq 1 50)))
      (MiniHex.square_graph.1, replicate (fsicfr_num_actions 2 2) 0) = Ok st
    ∧ backward_node MiniHex.game_status 2 2 MiniHex.square_graph.2 0 st
      = Ok st'
    ∧ ∀ a, (a < fsicfr_num_actions 2 2)%nat →
        st'.2 !! a
        = Some (accumulated MiniHex.game_status 2 2 MiniHex.square_graph.2
                  (backward_visits MiniHex.game_status 2 2
                     MiniHex.square_graph.2
                     ((Fwd <$> seq 0 51) ++ (Bwd <$> reverse (seq 1 50)))
                     (MiniHex.square_graph.1,
                      replicate (fsicfr_num_actions 2 2) 0)
                   ++ [(st.1, 0%nat)]) a).
Proof.
  eexists _, _. split; [vm_compute; reflexivity|].
  split; [vm_compute; reflexivity|].
  eapply (scratch_accumulates MiniHex.game_status 2 2 MiniHex.square_graph.2 1
            MiniHex.square_graph.1
            ((Fwd <$> seq 0 51) ++ (Bwd <$> reverse (seq 1 50))) 0 []).
  - eapply (init_board_topSorted_inv MiniHex.Game MiniHex.new_game
              MiniHex.turn_info MiniHex.BOARDS MiniHex.totalHidden_for_player
              MiniHex.valid_moves_colors MiniHex.step MiniHex.rewind
              MiniHex.legality_status MiniHex.legality_turn_info 2 2 12).
    exact square_graph_built.
  - vm_compute. reflexivity.
  - vm_compute. reflexivity.
  - vm_compute. reflexivity.
Defined.

(** At that step the root contributes nothing to the scratch list, none of
    its successor keys being in the map, and yet its [regretSum] becomes
    4, 25/4, 6, 3: what the earlier nodes of the pass left there. *)
Lemma scratch_carries_earlier_nodes :
  ∃ st st' n',
    run MiniHex.game_status 2 2 MiniHex.square_graph.2
      ((Fwd <$> seq 0 51) ++ (Bwd <$> reverse (seq 1 50)))
      (MiniHex.square_graph.1, replicate (fsicfr_num_actions 2 2) 0) = Ok st
    ∧ backward_node MiniHex.game_status 2 2 MiniHex.square_graph.2 0 st
      = Ok st'
    ∧ (λ a, this (step_contribution MiniHex.game_status 2 2
                    MiniHex.square_graph.2 st.1 0 a)) <$> seq 0 4
      = [0; 0; 0; 0]%Q
    ∧ st'.1 !! 0%nat = Some n'
    ∧ this <$> regretSum n' = [4; 25 # 4; 6; 3]%Q
    ∧ this <$> st'.2 = [4; 25 # 4; 6; 3]%Q.
Proof.
  eexists _, _, _. split; [vm_compute; reflexivity|].
  split; [vm_compute; reflexivity|].
  split; [vm_compute; reflexivity|].
  split; [reflexivity|].
  split; vm_compute; reflexivity.
Qed.

(** C10 on the 2 × 2 graph, at the node of position 19: a board that
    [P1] has won, seen by [P1], flagged terminal.  The forward loop arrives
    while [pSum1] is 3/2 and the forward pass leaves it at 15/8, its
    parents coming partly after it in the list: the round adds 1/4 · 3/2
    and then 1/4 · 15/8 to every entry of [strategySum]. *)
Lemma getStrategy_twice_per_round_witness :
  ∃ st' nodesA nA nodesF nF n1 n',
    iteration MiniHex.game_status 2 2 MiniHex.square_graph.2
      (MiniHex.square_graph.1, replicate 4 0) = Ok st'
    ∧ for_each (seq 0 19) (forward_node MiniHex.square_graph.2)
        MiniHex.square_graph.1 = Ok nodesA
    ∧ nodesA !! 19%nat = Some nA
    ∧ forward_pass MiniHex.square_graph.2 MiniHex.square_graph.1 = Ok nodesF
    ∧ nodesF !! 19%nat = Some nF
    ∧ st'.1 !! 19%nat = Some n'
    ∧ getStrategy
        (with_is_terminal true
           (Node_init [Empty; Stone P1; Stone P1; Stone P2] P1 0)) = Ok n1
    ∧ strategy n' = strategy n1
    ∧ (∀ a acc s,
         replicate 4 (0 : Qc) !! a = Some acc → strategy n' !! a = Some s →
         strategySum n' !! a = Some (acc + s * pSum1 nA + s * pSum1 nF))
    ∧ MiniHex.game_status 2 2 (board n') = Won P1
    ∧ is_terminal n' = true
    ∧ this (pSum1 nA) = (3 # 2)%Q ∧ this (pSum1 nF) = (15 # 8)%Q
    ∧ this <$> strategy n' = [1 # 4; 1 # 4; 1 # 4; 1 # 4]%Q
    ∧ this <$> strategySum n' = [27 # 32; 27 # 32; 27 # 32; 27 # 32]%Q.
Proof.
  assert (∃ st', iteration MiniHex.game_status 2 2 MiniHex.square_graph.2
                   (MiniHex.square_graph.1, replicate 4 0) = Ok st')
    as [st' Hit] by (eexists; vm_compute; reflexivity).
  destruct (getStrategy_twice_per_round MiniHex.game_status 2 2
              MiniHex.square_graph.2 (MiniHex.square_graph.1, replicate 4 0)
              st' 19
              (with_is_terminal true
                 (Node_init [Empty; Stone P1; Stone P1; Stone P2] P1 0)) Hit)
    as (nodesA & nA & nodesF & nF & n1 & n' & HA & HnA & HF & HnF & Hn'
        & Hgs & Hstrat & _ & _ & Hss).
  - vm_compute. reflexivity.
  - apply (Node_init_wf [Empty; Stone P1; Stone P1; Stone P2] P1 0).
  - exists st', nodesA, nA, nodesF, nF, n1, n'.
    split; [exact Hit|]. split; [exact HA|]. split; [exact HnA|].
    split; [exact HF|]. split; [exact HnF|]. split; [exact Hn'|].
    split; [exact Hgs|]. split; [exact Hstrat|]. split; [exact Hss|].
    split_and!.
    + vm_compute in Hit. injection Hit as <-.
      vm_compute in Hn'. injection Hn' as <-. vm_compute. reflexivity.
    + vm_compute in Hit. injection Hit as <-.
      vm_compute in Hn'. injection Hn' as <-. reflexivity.
    + vm_compute in HA. injection HA as <-.
      vm_compute in HnA. injection HnA as <-. reflexivity.
    + vm_compute in HF. injection HF as <-.
      vm_compute in HnF. injection HnF as <-. reflexivity.
    + vm_compute in Hit. injection Hit as <-.
      vm_compute in Hn'. injection Hn' as <-. vm_compute. reflexivity.
    + vm_compute in Hit. injection Hit as <-.
      vm_compute in Hn'. injection Hn' as <-. vm_compute. reflexivity.
Defined.

(** * The further statements on concrete boards *)

Lemma value_of_Ok {A} (d : A) (r : result A) :
  returns r = true → r = Ok (value_of d r).
Proof. by destruct r. Qed.

Lemma row_graph_consistent :
  dict_consistent MiniHex.row_graph.2 MiniHex.row_graph.1.
Proof.
  eapply (init_board_topSorted_inv MiniHex.Game MiniHex.new_game
            MiniHex.turn_info MiniHex.BOARDS MiniHex.totalHidden_for_player
            MiniHex.valid_moves_colors MiniHex.step MiniHex.rewind
            MiniHex.legality_status MiniHex.legality_turn_info 1 2 5).
  exact row_graph_built.
Qed.

Lemma row_graph_ok : Forall node_ok MiniHex.row_graph.1.
Proof.
  eapply (constructed_nodes_ok MiniHex.Game MiniHex.new_game
            MiniHex.turn_info MiniHex.BOARDS MiniHex.totalHidden_for_player
            MiniHex.valid_moves_colors MiniHex.step MiniHex.rewind
            MiniHex.legality_status MiniHex.legality_turn_info 1 2 5).
  exact row_graph_built.
Qed.

Lemma square_graph_ok : Forall node_ok MiniHex.square_graph.1.
Proof.
  eapply (constructed_nodes_ok MiniHex.Game MiniHex.new_game
            MiniHex.turn_info MiniHex.BOARDS MiniHex.totalHidden_for_player
            MiniHex.valid_moves_colors MiniHex.step MiniHex.rewind
            MiniHex.legality_status MiniHex.legality_turn_info 2 2 12).
  exact square_graph_built.
Qed.

Lemma square_graph_counts :
  Forall (counts_ok MiniHex.game_status 2 2) MiniHex.square_graph.1.
Proof.
  pose proof (init_board_topSorted_inv MiniHex.Game MiniHex.new_game
                MiniHex.turn_info MiniHex.BOARDS
                MiniHex.totalHidden_for_player MiniHex.valid_moves_colors
                MiniHex.step MiniHex.rewind MiniHex.legality_status
                MiniHex.legality_turn_info 2 2 12 _ _ square_graph_built)
    as (Hall & _ & _).
  eapply Forall_impl; [exact Hall|]. intros m [Hb _].
  apply fresh_counts_ok. by apply built_node_fresh.
Qed.

(** The 1 × 2 graph: the root at position 0 has both of its successors in
    the map, at positions 2 and 1. *)
Lemma successor_graph_acyclic_witness :
  edge MiniHex.row_graph.2 MiniHex.row_graph.1 0 2
  ∧ (∀ i, ¬ tc (edge MiniHex.row_graph.2 MiniHex.row_graph.1) i i)
  ∧ (∀ i j n m, tc (edge MiniHex.row_graph.2 MiniHex.row_graph.1) i j →
       MiniHex.row_graph.1 !! i = Some n →
       MiniHex.row_graph.1 !! j = Some m →
       (empties (board m) < empties (board n))%nat)
  ∧ (∀ n k, successor_key n k →
       (empties k.1.2 + 1 = empties (board n))%nat ∧ k ≠ infoSet n).
Proof.
  split.
  - exists (Node_init [Empty; Empty] P1 0), (P1, [Stone P1; Empty], 0%Z).
    split; [vm_compute; reflexivity|]. split.
    + exists 0%nat, [(P1, [Stone P1; Empty], 0%Z)].
      split; [reflexivity|apply list_elem_of_here].
    + vm_compute. reflexivity.
  - apply (successor_graph_acyclic MiniHex.row_graph.2 MiniHex.row_graph.1).
    exact row_graph_consistent.
Defined.

Lemma getStrategy_proportional_witness :
  ∃ n', getStrategy sample_node = Ok n'
    ∧ 0 < foldr Qcplus 0
            ((λ r, if decide (r < 0) then 0 else r)
               <$> regretSum sample_node)
    ∧ ∀ a r, regretSum sample_node !! a = Some r →
        strategy n' !! a
        = Some ((if decide (r < 0) then 0 else r)
                / foldr Qcplus 0
                    ((λ r, if decide (r < 0) then 0 else r)
                       <$> regretSum sample_node))
        ∧ (r ≤ 0 → strategy n' !! a = Some 0)
        ∧ (0 < r → ∃ s, strategy n' !! a = Some s ∧ 0 < s).
Proof.
  apply (getStrategy_proportional sample_node).
  - repeat split.
  - exists 0%nat, (Qc_of_Z 3). split; [reflexivity|]. by vm_compute.
Defined.

Lemma getStrategy_scale_invariant_witness :
  ∃ n1 n2,
    getStrategy sample_node = Ok n1
    ∧ getStrategy
        (with_regretSum ((λ r, Qc_of_Z 2 * r) <$> regretSum sample_node)
           sample_node) = Ok n2
    ∧ strategy n2 = strategy n1.
Proof.
  apply (getStrategy_scale_invariant sample_node (Qc_of_Z 2)).
  - repeat split.
  - by vm_compute.
Defined.

(** One round of [train] on the 1 × 2 graph. *)
Lemma train_keeps_graph_witness :
  ∃ nodes',
    train MiniHex.game_status 1 2 MiniHex.row_graph.2 1 MiniHex.row_graph.1
      = Ok nodes'
    ∧ length nodes' = length MiniHex.row_graph.1
    ∧ (∀ j n n', MiniHex.row_graph.1 !! j = Some n → nodes' !! j = Some n' →
         player n' = player n ∧ board n' = board n ∧ h n' = h n
         ∧ pos_actions n' = pos_actions n ∧ is_terminal n' = is_terminal n
         ∧ num_actions n' = num_actions n)
    ∧ (dict_consistent MiniHex.row_graph.2 MiniHex.row_graph.1 →
       dict_consistent MiniHex.row_graph.2 nodes').
Proof.
  assert (∃ nodes', train MiniHex.game_status 1 2 MiniHex.row_graph.2 1
                      MiniHex.row_graph.1 = Ok nodes')
    as [nodes' Htrain] by (eexists; vm_compute; reflexivity).
  exists nodes'. split; [exact Htrain|].
  exact (train_keeps_graph MiniHex.game_status 1 2 MiniHex.row_graph.2 1
           MiniHex.row_graph.1 nodes' Htrain).
Defined.

(** Two rounds on the 1 × 2 graph; the node at position 1 is a board that
    [P1] has won. *)
Lemma decided_nodes_keep_regrets_witness :
  ∃ nodes' m m',
    train MiniHex.game_status 1 2 MiniHex.row_graph.2 2 MiniHex.row_graph.1
      = Ok nodes'
    ∧ MiniHex.row_graph.1 !! 1%nat = Some m
    ∧ MiniHex.game_status 1 2 (board m) = Won P1
    ∧ nodes' !! 1%nat = Some m'
    ∧ regretSum m' = regretSum m ∧ T m' = T m.
Proof.
  assert (∃ nodes', train MiniHex.game_status 1 2 MiniHex.row_graph.2 2
                      MiniHex.row_graph.1 = Ok nodes')
    as [nodes' Htrain] by (eexists; vm_compute; reflexivity).
  destruct (decided_nodes_keep_regrets MiniHex.game_status 1 2
              MiniHex.row_graph.2 2 MiniHex.row_graph.1 nodes' 1
              (with_is_terminal true (Node_init [Empty; Stone P1] P1 0))
              Htrain)
    as (m' & Hm' & Hrs & HT).
  - vm_compute. reflexivity.
  - by vm_compute.
  - exists nodes', (with_is_terminal true (Node_init [Empty; Stone P1] P1 0)),
      m'.
    split_and!; [exact Htrain|vm_compute; reflexivity|vm_compute; reflexivity
                |exact Hm'|exact Hrs|exact HT].
Defined.


(** The last backward step of the first round on the 1 × 2 graph: both
    successors of the root have been given [u = 1], and the root, whose
    strategy is 1/2 and 1/2, goes from [u = 0] to [u = 1]. *)
Lemma utility_accumulates_witness :
  ∃ n n',
    run MiniHex.game_status 1 2 MiniHex.row_graph.2
      [Fwd 0; Fwd 1; Fwd 2; Bwd 2; Bwd 1]
      (MiniHex.row_graph.1, replicate 2 0) = Ok row_before_root
    ∧ backward_node MiniHex.game_status 1 2 MiniHex.row_graph.2 0
        row_before_root = Ok row_after_root
    ∧ row_before_root.1 !! 0%nat = Some n
    ∧ row_after_root.1 !! 0%nat = Some n'
    ∧ u n' = u n
             + total ((λ a, weighted (strategy n') a
                              (action_contribution MiniHex.row_graph.2
                                 row_before_root.1 n a))
                        <$> seq 0 (fsicfr_num_actions 1 2))
    ∧ this (u n) = 0%Q ∧ this (u n') = 1%Q.
Proof.
  assert (Hrun : run MiniHex.game_status 1 2 MiniHex.row_graph.2
                   [Fwd 0; Fwd 1; Fwd 2; Bwd 2; Bwd 1]
                   (MiniHex.row_graph.1, replicate 2 0) = Ok row_before_root)
    by (apply value_of_Ok; vm_compute; reflexivity).
  assert (Hstep : backward_node MiniHex.game_status 1 2 MiniHex.row_graph.2 0
                    row_before_root = Ok row_after_root)
    by (apply value_of_Ok; vm_compute; reflexivity).
  destruct (utility_accumulates MiniHex.game_status 1 2 MiniHex.row_graph.2 0
              row_before_root.1 row_before_root.2
              row_after_root.1 row_after_root.2
              (default sample_node (row_before_root.1 !! 0%nat)))
    as (n' & Hn' & Hu).
  - vm_compute. reflexivity.
  - vm_compute. reflexivity.
  - exact (run_consistent _ _ _ _ _ _ _ Hrun row_graph_consistent).
  - vm_compute. reflexivity.
  - exists (default sample_node (row_before_root.1 !! 0%nat)), n'.
    split_and!; [exact Hrun|exact Hstep|vm_compute; reflexivity|exact Hn'
                |exact Hu|vm_compute; reflexivity|].
    vm_compute in Hn'. injection Hn' as <-. reflexivity.
Defined.

(** Three rounds on the 2 × 2 graph against one: the same [strategySum],
    [regretSum] and [T] at every node; at the root, the regrets 4, 25/4, 6
    and 3 of the first round. *)
Lemma later_rounds_change_nothing_witness :
  ∃ nodes3 nodes1 n,
    train MiniHex.game_status 2 2 MiniHex.square_graph.2 3
      MiniHex.square_graph.1 = Ok nodes3
    ∧ train MiniHex.game_status 2 2 MiniHex.square_graph.2 1
        MiniHex.square_graph.1 = Ok nodes1
    ∧ Forall2 (λ m m', strategySum m' = strategySum m
                       ∧ regretSum m' = regretSum m ∧ T m' = T m
                       ∧ visits m' = 0%Z ∧ pSum1 m' = 0 ∧ pSum2 m' = 0)
        nodes1 nodes3
    ∧ nodes3 !! 0%nat = Some n
    ∧ this <$> regretSum n = [4; 25 # 4; 6; 3]%Q.
Proof.
  assert (∃ nodes3, train MiniHex.game_status 2 2 MiniHex.square_graph.2 3
                      MiniHex.square_graph.1 = Ok nodes3)
    as [nodes3 H3] by (eexists; vm_compute; reflexivity).
  destruct (later_rounds_change_nothing MiniHex.game_status 2 2
              MiniHex.square_graph.2 2 MiniHex.square_graph.1 nodes3
              square_graph_ok square_graph_counts H3)
    as (nodes1 & H1 & Hall).
  assert (∃ n, nodes3 !! 0%nat = Some n
               ∧ this <$> regretSum n = [4; 25 # 4; 6; 3]%Q) as (n & Hn & Hr).
  { vm_compute in H3. injection H3 as <-. eexists. split; reflexivity. }
  exists nodes3, nodes1, n. split_and!; [exact H3|exact H1|exact Hall|exact Hn|exact Hr].
Defined.

(** The 2 × 2 graph of the module's own call: 51 nodes, 51 keys. *)
Lemma constructed_map_bijection_witness :
  length MiniHex.square_graph.1 = 51%nat
  ∧ NoDup (infoSet <$> MiniHex.square_graph.1)
  ∧ size MiniHex.square_graph.2 = length MiniHex.square_graph.1
  ∧ (∀ k j, MiniHex.square_graph.2 !! k = Some j
            ↔ ∃ n, MiniHex.square_graph.1 !! j = Some n ∧ infoSet n = k).
Proof.
  split; [vm_compute; reflexivity|].
  exact (constructed_map_bijection MiniHex.Game MiniHex.new_game
           MiniHex.turn_info MiniHex.BOARDS MiniHex.totalHidden_for_player
           MiniHex.valid_moves_colors MiniHex.step MiniHex.rewind
           MiniHex.legality_status MiniHex.legality_turn_info 2 2 12
           MiniHex.square_graph.1 MiniHex.square_graph.2 square_graph_built).
Defined.

Lemma constructed_nodes_fresh_witness :
  Forall (λ n,
            n = with_is_terminal (is_terminal n)
                  (Node_init (board n) (player n) (h n))
            ∧ T n = 0%Z ∧ u n = 0 ∧ visits n = 1%Z
            ∧ pSum1 n = 1 ∧ pSum2 n = 1
            ∧ regretSum n = replicate (length (board n)) 0
            ∧ strategySum n = replicate (length (board n)) 0
            ∧ strategy n = replicate (length (board n)) 0
            ∧ ∀ a, a ∈ pos_actions n ↔ board n !! a = Some Empty)
    MiniHex.square_graph.1.
Proof.
  exact (constructed_nodes_fresh MiniHex.Game MiniHex.new_game
           MiniHex.turn_info MiniHex.BOARDS MiniHex.totalHidden_for_player
           MiniHex.valid_moves_colors MiniHex.step MiniHex.rewind
           MiniHex.legality_status MiniHex.legality_turn_info 2 2 12
           MiniHex.square_graph.1 MiniHex.square_graph.2 square_graph_built).
Defined.

(** The construction for the 1 × 2 board, started on a stack and a map
    that hold one node already: that node stays first, under its key, and
    the three nodes of the board follow. *)
Lemma topSort_play_grows_witness :
  ∃ game' bs',
    topSort_play MiniHex.turn_info MiniHex.BOARDS
      MiniHex.totalHidden_for_player MiniHex.valid_moves_colors MiniHex.step
      MiniHex.rewind MiniHex.legality_status MiniHex.legality_turn_info 1 2
      5 (MiniHex.new_game 1 2) Continue seeded = Some (game', bs')
    ∧ length (stack bs') = 4%nat
    ∧ (∃ added, stack bs' = stack seeded ++ added)
    ∧ (∀ k j, build_dict seeded !! k = Some j →
              build_dict bs' !! k = Some j)
    ∧ (∀ b, b ∈ visited seeded → b ∈ visited bs').
Proof.
  assert (∃ r, topSort_play MiniHex.turn_info MiniHex.BOARDS
                 MiniHex.totalHidden_for_player MiniHex.valid_moves_colors
                 MiniHex.step MiniHex.rewind MiniHex.legality_status
                 MiniHex.legality_turn_info 1 2 5 (MiniHex.new_game 1 2)
                 Continue seeded = Some r)
    as [[game' bs'] Hrun] by (eexists; vm_compute; reflexivity).
  exists game', bs'. split; [exact Hrun|]. split.
  - vm_compute in Hrun. injection Hrun as _ <-. reflexivity.
  - exact (topSort_play_grows MiniHex.Game MiniHex.turn_info MiniHex.BOARDS
             MiniHex.totalHidden_for_player MiniHex.valid_moves_colors
             MiniHex.step MiniHex.rewind MiniHex.legality_status
             MiniHex.legality_turn_info 1 2 5 (MiniHex.new_game 1 2) Continue
             seeded game' bs' Hrun).
Defined.

(** The engine of this file on boards of [k] cells. *)
Lemma sized_new_game rows cols :
  sized (rows * cols) (MiniHex.new_game rows cols).
Proof.
  unfold sized. simpl. rewrite length_replicate. by split_and!.
Qed.

Lemma sized_step k g p a : sized k g → sized k (MiniHex.step g p a).1.
Proof.
  intros (H1 & H2 & H3). unfold MiniHex.step.
  destruct (MiniHex.g_full g !! a) as [[|q]|]; [| |done];
    destruct p; simpl; unfold sized; simpl;
    (split_and!; [by rewrite ?length_insert..|]);
    (apply Forall_cons; split; [done|done]).
Qed.

Lemma sized_rewind k g f : sized k g → sized k (MiniHex.rewind g f).
Proof.
  intros (H1 & H2 & H3). unfold MiniHex.rewind.
  destruct (MiniHex.g_prev g) as [|[[[full v1] v2] t] rest] eqn:Hp;
    [by rewrite <- Hp in H3|].
  apply Forall_cons in H3 as [[Hv1 Hv2] Hrest]. by split_and!.
Qed.

Lemma elem_of_boards_of_length (b : Board) :
  b ∈ boards_of_length (length b).
Proof.
  induction b as [|c b IH]; simpl; [apply list_elem_of_here|].
  apply list_elem_of_bind. exists b. split; [|done].
  destruct c as [|[|]];
    repeat (first [apply list_elem_of_here|apply list_elem_of_further]).
Qed.

Lemma sized_boards k g :
  sized k g →
  MiniHex.BOARDS g P1 ++ MiniHex.BOARDS g P2
  ∈ (list_to_set (boards_of_length (k + k)) : gset Board).
Proof.
  intros (H1 & H2 & _). apply elem_of_list_to_set.
  replace (k + k)%nat
    with (length (MiniHex.BOARDS g P1 ++ MiniHex.BOARDS g P2)).
  - apply elem_of_boards_of_length.
  - rewrite length_app. simpl. lia.
Qed.

(** The construction for the 1 × 2 board returns for every bound above the
    number of pairs of views, and always the same graph. *)
Lemma construction_terminates_witness :
  ∃ graph, ∀ fuel,
    (size (list_to_set (boards_of_length (2 + 2)) : gset Board) < fuel)%nat →
    init_board_topSorted MiniHex.new_game MiniHex.turn_info MiniHex.BOARDS
      MiniHex.totalHidden_for_player MiniHex.valid_moves_colors MiniHex.step
      MiniHex.rewind MiniHex.legality_status MiniHex.legality_turn_info 1 2
      fuel = Some graph.
Proof.
  apply (construction_terminates MiniHex.Game MiniHex.new_game
           MiniHex.turn_info MiniHex.BOARDS MiniHex.totalHidden_for_player
           MiniHex.valid_moves_colors MiniHex.step MiniHex.rewind
           MiniHex.legality_status MiniHex.legality_turn_info 1 2
           (sized 2) (list_to_set (boards_of_length (2 + 2)))).
  - exact (sized_new_game 1 2).
  - intros g p a. apply sized_step.
  - intros g f. apply sized_rewind.
  - intros g. apply sized_boards.
Defined.

(** The start position of the 1 × 2 board is accepted, and its key is in
    the map. *)
Lemma start_position_in_map_witness :
  match
    enter MiniHex.turn_info MiniHex.BOARDS MiniHex.totalHidden_for_player
      MiniHex.legality_status MiniHex.legality_turn_info 1 2
      (MiniHex.new_game 1 2) Continue
      {| stack := []; visited := ∅; build_dict := ∅ |}
  with
  | Some (node, _, _) => is_Some (MiniHex.row_graph.2 !! infoSet node)
  | None => MiniHex.row_graph.1 = [] ∧ MiniHex.row_graph.2 = ∅
  end.
Proof.
  exact (start_position_in_map MiniHex.Game MiniHex.new_game
           MiniHex.turn_info MiniHex.BOARDS MiniHex.totalHidden_for_player
           MiniHex.valid_moves_colors MiniHex.step MiniHex.rewind
           MiniHex.legality_status MiniHex.legality_turn_info 1 2 5
           MiniHex.row_graph.1 MiniHex.row_graph.2 row_graph_built).
Defined.

Lemma square_graph_cells :
  Forall (λ n, length (board n) = fsicfr_num_actions 2 2)
    MiniHex.square_graph.1.
Proof.
  apply (Forall_fmap (λ n, length (board n))
           (λ k, k = fsicfr_num_actions 2 2)).
  assert ((λ n, length (board n)) <$> MiniHex.square_graph.1
          = replicate 51 4%nat) as -> by (vm_compute; reflexivity).
  by apply Forall_replicate.
Qed.

(** Construction and two rounds of training on the 2 × 2 board. *)
Lemma construct_then_train_witness :
  ∃ nodes',
    train MiniHex.game_status 2 2 MiniHex.square_graph.2 2
      MiniHex.square_graph.1 = Ok nodes'
    ∧ length nodes' = length MiniHex.square_graph.1
    ∧ ∀ j n', nodes' !! j = Some n' →
        is_terminal n' = false → (0 < num_actions n')%nat →
        foldr Qcplus 0 (strategySum n') = 1
        ∧ Forall (λ x, 0 ≤ x) (strategySum n').
Proof.
  exact (construct_then_train MiniHex.Game MiniHex.new_game MiniHex.turn_info
           MiniHex.BOARDS MiniHex.totalHidden_for_player
           MiniHex.valid_moves_colors MiniHex.step MiniHex.rewind
           MiniHex.legality_status MiniHex.legality_turn_info 2 2
           MiniHex.game_status 12 2 MiniHex.square_graph.1
           MiniHex.square_graph.2 square_graph_built square_graph_cells).
Defined.

(** One update from [T = 0] with [visits = 2], [cfp = 1] and a regret of 3
    for the round. *)
Lemma update_regret_between_witness :
  ∃ new,
    update_regret (with_reach 2 1 1 (Node_init [Empty] P1 0)) [Qc_of_Z 3]
      0 [0] = Ok (<[0%nat := new]> [0])
    ∧ new = regret_mean 0 0 2 1 (Qc_of_Z 3 - 0)
    ∧ (0 ≤ 1 * (Qc_of_Z 3 - 0) → 0 ≤ new ∧ new ≤ 1 * (Qc_of_Z 3 - 0))
    ∧ (1 * (Qc_of_Z 3 - 0) ≤ 0 → 1 * (Qc_of_Z 3 - 0) ≤ new ∧ new ≤ 0)
    ∧ (2%Z = 0%Z → new = 0)
    ∧ (0%Z = 0%Z → new = 1 * (Qc_of_Z 3 - 0)).
Proof.
  apply (update_regret_between (with_reach 2 1 1 (Node_init [Empty] P1 0))
           [Qc_of_Z 3] 0 [0] 0 (Qc_of_Z 3)).
  - reflexivity.
  - reflexivity.
  - simpl. lia.
  - simpl. lia.
  - simpl. lia.
Defined.
